(** * The o5m decoder and the item buffer of libosmium

    A shallow embedding of
    - [osmium/io/detail/o5m_input_format.hpp]: [ReferenceTable] and
      [O5mParser];
    - [osmium/memory/buffer.hpp]: [Buffer].

    Unsigned machine integers are values of [Z] with the wrap-around of
    their width written out ([uint64], [uint32]); signed ones use
    [int64].  Bytes are [Byte.byte]; a [const char*] is the list of the
    bytes that can be read from it. *)

From Stdlib Require Import ZArith Lia Bool.
From Stdlib Require Import Strings.Byte.
From stdpp Require Import base option list strings gmap.

Local Open Scope Z_scope.

(** ** Machine integers and bytes *)

Abbreviation byte := Byte.byte.

Definition uint64 (z : Z) : Z := z mod 2 ^ 64.
Definition uint32 (z : Z) : Z := z mod 2 ^ 32.
Definition int64 (z : Z) : Z := (z + 2 ^ 63) mod 2 ^ 64 - 2 ^ 63.
Definition int32 (z : Z) : Z := (z + 2 ^ 31) mod 2 ^ 32 - 2 ^ 31.

(** The value of a byte read as [unsigned char]. *)
Definition byte_val (b : byte) : Z := Z.of_N (Byte.to_N b).

#[global] Instance byte_eq_dec : EqDecision byte := Byte.byte_eq_dec.

(** ** Exceptions and results *)

Inductive exn : Type :=
  | o5m_error (what : string)
  | end_of_buffer_exception
  | varint_too_long_exception
  | buffer_is_full
  | logic_error (what : string)
  | invalid_argument (what : string).

(** The outcome of a call: a value, a C++ exception, a failed [assert]
    or undefined behaviour ([Undefined]), or a loop of the model that ran
    out of rounds ([OutOfFuel]; the loops of the parser never end this
    way, see [run_terminates]). *)
Inductive result (A : Type) : Type :=
  | Ok (a : A)
  | Throw (e : exn)
  | Undefined
  | OutOfFuel.

Arguments Ok {A} a.
Arguments Throw {A} e.
Arguments Undefined {A}.
Arguments OutOfFuel {A}.

Definition result_bind {A B} (f : A -> result B) (r : result A) : result B :=
  match r with
  | Ok a => f a
  | Throw e => Throw e
  | Undefined => Undefined
  | OutOfFuel => OutOfFuel
  end.

#[global] Instance result_mbind : MBind result := @result_bind.
#[global] Instance result_mret : MRet result := @Ok.

Definition raises {A} (r : result A) : Prop := exists e, r = Throw e.

(** [r] threw an [o5m_error]. *)
Definition raises_o5m_error {A} (r : result A) : Prop :=
  exists what, r = Throw (o5m_error what).

(** A call whose loops end within their bounds. *)
Definition terminates {A} (r : result A) : Prop := r <> OutOfFuel.

(** ** Varints (protozero) *)

Definition max_varint_length : Z := 10.

(** Modelled from the spec: [protozero::decode_varint] (protozero/varint.hpp)
    is not among the sources.  Base 128, least significant group first,
    seven data bits per byte, the top bit is the continuation bit; the
    input running out inside a varint is [end_of_buffer_exception], a
    tenth byte that still has its continuation bit is
    [varint_too_long_exception].  [n] counts the bytes that may still be
    read, [shift] is the position of the next group. *)
Fixpoint decode_varint_impl (n : nat) (shift val : Z) (data : list byte)
  : result (Z * list byte) :=
  match n with
  | O => Throw varint_too_long_exception
  | S n' =>
    match data with
    | [] => Throw end_of_buffer_exception
    | b :: data' =>
      let val' :=
        Z.lor val (uint64 (Z.shiftl (Z.land (byte_val b) 127) shift)) in
      if byte_val b <? 128 then Ok (val', data')
      else decode_varint_impl n' (shift + 7) val' data'
    end
  end.

Definition decode_varint (data : list byte) : result (Z * list byte) :=
  decode_varint_impl (Z.to_nat max_varint_length) 0 0 data.

(** Modelled from the spec: [protozero::decode_zigzag64] is not among the
    sources; the spec gives it as [(n >> 1) ^ -(n & 1)]. *)
Definition decode_zigzag64 (n : Z) : Z :=
  Z.lxor (Z.shiftr n 1) (- Z.land n 1).

(** ** ReferenceTable *)

Module ReferenceTable.

Definition number_of_entries : Z := 15000.
Definition entry_size : Z := 256.
Definition max_length : Z := 250 + 2.

(** [m_table] is the [std::string]; [current_entry] is an
    [unsigned int]. *)
Record t : Type := mk {
  m_table : list byte;
  current_entry : Z
}.

(** The default-constructed table. *)
Definition init : t := {| m_table := []; current_entry := 0 |}.

Definition empty (s : list byte) : bool :=
  match s with [] => true | _ :: _ => false end.

(** [m_table.resize(n)] on an empty string: [n] zero bytes. *)
Definition resize (n : Z) : list byte := replicate (Z.to_nat n) x00.

(** [std::copy_n(src, n, &dst[off])]. *)
Definition copy_n (src : list byte) (n : nat) (dst : list byte) (off : nat)
  : list byte :=
  list_inserts off (take n src) dst.

Definition clear (r : t) : t :=
  {| m_table := m_table r; current_entry := 0 |}.

(** [string] holds the bytes readable from the caller's pointer, which
    is never null; the first [size] of them are copied. *)
Definition add (r : t) (string : list byte) (size : Z) : t :=
  let table :=
    if empty (m_table r) then resize (uint64 (entry_size * number_of_entries))
    else m_table r in
  if size <=? max_length then
    let table' :=
      copy_n string (Z.to_nat size) table
             (Z.to_nat (uint64 (current_entry r * entry_size))) in
    let c := uint32 (current_entry r + 1) in
    {| m_table := table';
       current_entry := if c =? number_of_entries then 0 else c |}
  else
    {| m_table := table; current_entry := current_entry r |}.

(** The result is the pointer [&m_table[entry * entry_size]]: the bytes
    of the table from that position on. *)
Definition get (r : t) (index : Z) : result (list byte) :=
  if empty (m_table r) || (index =? 0) || (index >? number_of_entries) then
    Throw (o5m_error "reference to non-existing string in table")
  else
    let entry :=
      uint64 (current_entry r + number_of_entries - index)
        mod number_of_entries in
    Ok (drop (Z.to_nat (uint64 (entry * entry_size))) (m_table r)).

(** The string as [add] sees it once the lazy allocation is done. *)
Definition allocated (r : t) : list byte :=
  if empty (m_table r) then resize (uint64 (entry_size * number_of_entries))
  else m_table r.

(** The bytes of slot [entry]. *)
Definition slot (r : t) (entry : Z) : list byte :=
  take (Z.to_nat entry_size) (drop (Z.to_nat (entry * entry_size)) (m_table r)).

(** The states the class can be in: the string is still empty or has
    its full size, and the cursor is inside the table. *)
Definition table_ok (r : t) : Prop :=
  (m_table r = [] \/
   Z.of_nat (length (m_table r)) = entry_size * number_of_entries) /\
  0 <= current_entry r < number_of_entries.

(** A string that [add] accepts. *)
Definition short (s : list byte) : Prop := Z.of_nat (length s) <= max_length.

(** Insertion of a sequence of strings, each with its own length. *)
Definition add_all (r : t) (l : list (list byte)) : t :=
  foldl (fun r s => add r s (Z.of_nat (length s))) r l.

#[global] Instance short_dec (s : list byte) : Decision (short s).
Proof. unfold short. apply _. Defined.

End ReferenceTable.


(** ** DeltaDecode *)

Module DeltaDecode.

(** Modelled from the spec: [osmium::DeltaDecode] (osmium/util/delta.hpp)
    is not among the sources.  It holds a single signed integer, initially
    0; [update delta] stores and returns [prev + delta]; [clear] zeroes
    it.  The sum is taken in 64 bits. *)
Record t : Type := mk { m_value : Z }.

Definition init : t := {| m_value := 0 |}.

Definition clear (d : t) : t := {| m_value := 0 |}.

Definition update (d : t) (delta : Z) : Z * t :=
  let v := int64 (m_value d + delta) in (v, {| m_value := v |}).

End DeltaDecode.

(** ** OSM entities and the header *)

Inductive item_type : Type := node | way | relation.

(** [osmium::nwr_index_to_item_type] and [osmium::item_type_to_nwr_index]. *)
Definition nwr_index_to_item_type (i : Z) : item_type :=
  if i =? 0 then node else if i =? 1 then way else relation.

Definition item_type_to_nwr_index (ty : item_type) : nat :=
  match ty with node => 0 | way => 1 | relation => 2 end%nat.

(** Modelled from the spec: [osmium::Location] (osmium/osm/location.hpp) is
    not among the sources.  A location is a pair of 32-bit coordinates in
    units of 1e-7 degrees; the default-constructed location holds the
    "undefined" sentinel in both and is invalid; a location is valid when
    the longitude lies in -1800000000 .. 1800000000 and the latitude in
    half that range. *)
Record Location : Type := { loc_x : Z; loc_y : Z }.

Definition undefined_coordinate : Z := 2147483647.

Definition Location_default : Location :=
  {| loc_x := undefined_coordinate; loc_y := undefined_coordinate |}.

Definition Location_of (lon lat : Z) : Location :=
  {| loc_x := int32 lon; loc_y := int32 lat |}.

Definition Location_valid (l : Location) : bool :=
  (-1800000000 <=? loc_x l) && (loc_x l <=? 1800000000) &&
  (-900000000 <=? loc_y l) && (loc_y l <=? 900000000).

Record Box : Type := { bottom_left : Location; top_right : Location }.

(** A tag is a pair of C strings (without their terminators). *)
Definition Tag : Type := list byte * list byte.

(** Modelled from the spec: [osmium::OSMObject] and the builders
    (osmium/osm/object.hpp, osmium/builder/osm_object_builder.hpp) are not
    among the sources.  An object carries the attributes of the spec's
    OsmCommon; a builder starts from an object that is visible, has no
    tags and has every number zero, and each setter replaces one
    attribute. *)
Record OSMObject : Type := {
  obj_id : Z;
  obj_version : Z;
  obj_timestamp : Z;
  obj_changeset : Z;
  obj_uid : Z;
  obj_user : list byte;
  obj_visible : bool;
  obj_tags : list Tag
}.

Definition new_object : OSMObject :=
  {| obj_id := 0; obj_version := 0; obj_timestamp := 0; obj_changeset := 0;
     obj_uid := 0; obj_user := []; obj_visible := true; obj_tags := [] |}.

Definition set_id (o : OSMObject) (v : Z) : OSMObject :=
  {| obj_id := v; obj_version := obj_version o;
     obj_timestamp := obj_timestamp o; obj_changeset := obj_changeset o;
     obj_uid := obj_uid o; obj_user := obj_user o;
     obj_visible := obj_visible o; obj_tags := obj_tags o |}.

Definition set_version (o : OSMObject) (v : Z) : OSMObject :=
  {| obj_id := obj_id o; obj_version := v;
     obj_timestamp := obj_timestamp o; obj_changeset := obj_changeset o;
     obj_uid := obj_uid o; obj_user := obj_user o;
     obj_visible := obj_visible o; obj_tags := obj_tags o |}.

Definition set_timestamp (o : OSMObject) (v : Z) : OSMObject :=
  {| obj_id := obj_id o; obj_version := obj_version o;
     obj_timestamp := v; obj_changeset := obj_changeset o;
     obj_uid := obj_uid o; obj_user := obj_user o;
     obj_visible := obj_visible o; obj_tags := obj_tags o |}.

Definition set_changeset (o : OSMObject) (v : Z) : OSMObject :=
  {| obj_id := obj_id o; obj_version := obj_version o;
     obj_timestamp := obj_timestamp o; obj_changeset := v;
     obj_uid := obj_uid o; obj_user := obj_user o;
     obj_visible := obj_visible o; obj_tags := obj_tags o |}.

Definition set_uid (o : OSMObject) (v : Z) : OSMObject :=
  {| obj_id := obj_id o; obj_version := obj_version o;
     obj_timestamp := obj_timestamp o; obj_changeset := obj_changeset o;
     obj_uid := v; obj_user := obj_user o;
     obj_visible := obj_visible o; obj_tags := obj_tags o |}.

Definition set_user (o : OSMObject) (v : list byte) : OSMObject :=
  {| obj_id := obj_id o; obj_version := obj_version o;
     obj_timestamp := obj_timestamp o; obj_changeset := obj_changeset o;
     obj_uid := obj_uid o; obj_user := v;
     obj_visible := obj_visible o; obj_tags := obj_tags o |}.

Definition set_visible (o : OSMObject) (v : bool) : OSMObject :=
  {| obj_id := obj_id o; obj_version := obj_version o;
     obj_timestamp := obj_timestamp o; obj_changeset := obj_changeset o;
     obj_uid := obj_uid o; obj_user := obj_user o;
     obj_visible := v; obj_tags := obj_tags o |}.

Definition set_tags (o : OSMObject) (v : list Tag) : OSMObject :=
  {| obj_id := obj_id o; obj_version := obj_version o;
     obj_timestamp := obj_timestamp o; obj_changeset := obj_changeset o;
     obj_uid := obj_uid o; obj_user := obj_user o;
     obj_visible := obj_visible o; obj_tags := v |}.

Record Node : Type := { node_object : OSMObject; node_location : Location }.

Record Way : Type := { way_object : OSMObject; way_nodes : list Z }.

Definition Member : Type := item_type * Z * list byte.

Record Relation : Type := {
  relation_object : OSMObject;
  relation_members : list Member
}.

Inductive Entity : Type :=
  | a_node (n : Node)
  | a_way (w : Way)
  | a_relation (r : Relation).

(** Modelled from the spec: [osmium::io::Header] (osmium/io/header.hpp) is
    not among the sources.  It holds the bounding boxes, the flag
    [has_multiple_object_versions] and a map of options; the timestamp
    options hold the decoded seconds, their formatting by
    [Timestamp::to_iso] is left out. *)
Record Header : Type := {
  boxes : list Box;
  has_multiple_object_versions : bool;
  options : gmap string Z
}.

Definition Header_default : Header :=
  {| boxes := []; has_multiple_object_versions := false; options := ∅ |}.

Definition set_has_multiple_object_versions (h : Header) (v : bool) : Header :=
  {| boxes := boxes h; has_multiple_object_versions := v;
     options := options h |}.

Definition add_box (h : Header) (b : Box) : Header :=
  {| boxes := boxes h ++ [b];
     has_multiple_object_versions := has_multiple_object_versions h;
     options := options h |}.

Definition Header_set (h : Header) (key : string) (v : Z) : Header :=
  {| boxes := boxes h;
     has_multiple_object_versions := has_multiple_object_versions h;
     options := <[key := v]> (options h) |}.

(** Modelled from the spec: [osmium::osm_entity_bits] (entity_bits.hpp) is
    not among the sources; the consumer's entity-kind mask is a bit set
    with one bit per kind. *)
Module osm_entity_bits.
Definition nothing : Z := 0.
Definition node : Z := 1.
Definition way : Z := 2.
Definition relation : Z := 4.
End osm_entity_bits.

(** ** O5mParser *)

Module O5mParser.

(** Modelled from the spec: [get_input], [input_done], [read_types],
    [header_is_done], [set_header_value] and the output buffer belong to
    the base classes [Parser] and [ParserWithBuffer]
    (osmium/io/detail/input_format.hpp), which are not among the sources.
    The parser object holds the byte cursor [m_data] as the bytes of the
    stream that have not been consumed yet; the refilling of [m_input]
    from the input queue is left out.  [read_types] is the consumer's
    entity mask, [header_value] the header that was published (once),
    [output] the entities that were committed, in order. *)
Record t : Type := mk {
  m_header : Header;
  m_data : list byte;
  m_reference_table : ReferenceTable.t;
  m_delta_id : DeltaDecode.t;
  m_delta_timestamp : DeltaDecode.t;
  m_delta_changeset : DeltaDecode.t;
  m_delta_lon : DeltaDecode.t;
  m_delta_lat : DeltaDecode.t;
  m_delta_way_node_id : DeltaDecode.t;
  m_delta_member_ids : list DeltaDecode.t;
  read_types : Z;
  header_is_done : bool;
  header_value : option Header;
  output : list Entity
}.

(** The parser as constructed, reading [input] for a consumer that asked
    for [types]. *)
Definition init (input : list byte) (types : Z) : t :=
  {| m_header := Header_default; m_data := input;
     m_reference_table := ReferenceTable.init;
     m_delta_id := DeltaDecode.init; m_delta_timestamp := DeltaDecode.init;
     m_delta_changeset := DeltaDecode.init; m_delta_lon := DeltaDecode.init;
     m_delta_lat := DeltaDecode.init;
     m_delta_way_node_id := DeltaDecode.init;
     m_delta_member_ids := replicate 3 DeltaDecode.init;
     read_types := types; header_is_done := false; header_value := None;
     output := [] |}.

Definition with_header (st : t) (h : Header) : t :=
  mk h (m_data st) (m_reference_table st) (m_delta_id st)
     (m_delta_timestamp st) (m_delta_changeset st) (m_delta_lon st)
     (m_delta_lat st) (m_delta_way_node_id st) (m_delta_member_ids st)
     (read_types st) (header_is_done st) (header_value st) (output st).

Definition with_data (st : t) (d : list byte) : t :=
  mk (m_header st) d (m_reference_table st) (m_delta_id st)
     (m_delta_timestamp st) (m_delta_changeset st) (m_delta_lon st)
     (m_delta_lat st) (m_delta_way_node_id st) (m_delta_member_ids st)
     (read_types st) (header_is_done st) (header_value st) (output st).

Definition with_reference_table (st : t) (r : ReferenceTable.t) : t :=
  mk (m_header st) (m_data st) r (m_delta_id st)
     (m_delta_timestamp st) (m_delta_changeset st) (m_delta_lon st)
     (m_delta_lat st) (m_delta_way_node_id st) (m_delta_member_ids st)
     (read_types st) (header_is_done st) (header_value st) (output st).

Definition with_delta_id (st : t) (d : DeltaDecode.t) : t :=
  mk (m_header st) (m_data st) (m_reference_table st) d
     (m_delta_timestamp st) (m_delta_changeset st) (m_delta_lon st)
     (m_delta_lat st) (m_delta_way_node_id st) (m_delta_member_ids st)
     (read_types st) (header_is_done st) (header_value st) (output st).

Definition with_delta_timestamp (st : t) (d : DeltaDecode.t) : t :=
  mk (m_header st) (m_data st) (m_reference_table st) (m_delta_id st)
     d (m_delta_changeset st) (m_delta_lon st)
     (m_delta_lat st) (m_delta_way_node_id st) (m_delta_member_ids st)
     (read_types st) (header_is_done st) (header_value st) (output st).

Definition with_delta_changeset (st : t) (d : DeltaDecode.t) : t :=
  mk (m_header st) (m_data st) (m_reference_table st) (m_delta_id st)
     (m_delta_timestamp st) d (m_delta_lon st)
     (m_delta_lat st) (m_delta_way_node_id st) (m_delta_member_ids st)
     (read_types st) (header_is_done st) (header_value st) (output st).

Definition with_delta_lon (st : t) (d : DeltaDecode.t) : t :=
  mk (m_header st) (m_data st) (m_reference_table st) (m_delta_id st)
     (m_delta_timestamp st) (m_delta_changeset st) d
     (m_delta_lat st) (m_delta_way_node_id st) (m_delta_member_ids st)
     (read_types st) (header_is_done st) (header_value st) (output st).

Definition with_delta_lat (st : t) (d : DeltaDecode.t) : t :=
  mk (m_header st) (m_data st) (m_reference_table st) (m_delta_id st)
     (m_delta_timestamp st) (m_delta_changeset st) (m_delta_lon st)
     d (m_delta_way_node_id st) (m_delta_member_ids st)
     (read_types st) (header_is_done st) (header_value st) (output st).

Definition with_delta_way_node_id (st : t) (d : DeltaDecode.t) : t :=
  mk (m_header st) (m_data st) (m_reference_table st) (m_delta_id st)
     (m_delta_timestamp st) (m_delta_changeset st) (m_delta_lon st)
     (m_delta_lat st) d (m_delta_member_ids st)
     (read_types st) (header_is_done st) (header_value st) (output st).

Definition with_delta_member_ids (st : t) (d : list DeltaDecode.t) : t :=
  mk (m_header st) (m_data st) (m_reference_table st) (m_delta_id st)
     (m_delta_timestamp st) (m_delta_changeset st) (m_delta_lon st)
     (m_delta_lat st) (m_delta_way_node_id st) d
     (read_types st) (header_is_done st) (header_value st) (output st).

Definition with_output (st : t) (o : list Entity) : t :=
  mk (m_header st) (m_data st) (m_reference_table st) (m_delta_id st)
     (m_delta_timestamp st) (m_delta_changeset st) (m_delta_lon st)
     (m_delta_lat st) (m_delta_way_node_id st) (m_delta_member_ids st)
     (read_types st) (header_is_done st) (header_value st) o.

(** [set_header_value]: the header is published once. *)
Definition mark_header_as_done (st : t) : t :=
  if header_is_done st then st
  else
    mk (m_header st) (m_data st) (m_reference_table st) (m_delta_id st)
       (m_delta_timestamp st) (m_delta_changeset st) (m_delta_lon st)
       (m_delta_lat st) (m_delta_way_node_id st) (m_delta_member_ids st)
       (read_types st) true (Some (m_header st)) (output st).

(** [buffer().commit()] after a builder has written [e]. *)
Definition commit (st : t) (e : Entity) : t := with_output st (output st ++ [e]).

Definition zvarint (data : list byte) : result (Z * list byte) :=
  '(n, data') ← decode_varint data;
  Ok (decode_zigzag64 n, data').

(** Modelled from the spec: the input queue is not among the sources;
    [need_bytes] bytes are available when that many remain in the
    stream. *)
Definition ensure_bytes_available (st : t) (need_bytes : Z) : bool :=
  Z.of_nat (length (m_data st)) >=? need_bytes.

(** *** The header *)

Definition header_magic : list byte := [xff; xe0; x04; x6f; x35].

(** [std::strncmp]: the sign of the first difference within [n]
    characters, comparison ending at a NUL; reading past either array is
    undefined. *)
Fixpoint strncmp (s1 s2 : list byte) (n : nat) {struct n} : result Z :=
  match n with
  | O => Ok 0
  | S n' =>
    match s1, s2 with
    | c1 :: s1', c2 :: s2' =>
      if byte_val c1 =? byte_val c2 then
        if byte_val c1 =? 0 then Ok 0 else strncmp s1' s2' n'
      else Ok (byte_val c1 - byte_val c2)
    | _, _ => Undefined
    end
  end.

Definition check_header_magic (st : t) : result t :=
  c ← strncmp header_magic (m_data st) (length header_magic);
  if negb (c =? 0) then Throw (o5m_error "wrong header magic")
  else Ok (with_data st (drop (length header_magic) (m_data st))).

Definition check_file_type (st : t) : result t :=
  match m_data st with
  | [] => Undefined
  | c :: rest =>
    if Byte.eqb c x6d then
      Ok (with_data
            (with_header st (set_has_multiple_object_versions (m_header st) false))
            rest)
    else if Byte.eqb c x63 then
      Ok (with_data
            (with_header st (set_has_multiple_object_versions (m_header st) true))
            rest)
    else Throw (o5m_error "wrong header magic")
  end.

Definition check_file_format_version (st : t) : result t :=
  match m_data st with
  | [] => Undefined
  | c :: rest =>
    if negb (Byte.eqb c x32) then Throw (o5m_error "wrong header magic")
    else Ok (with_data st rest)
  end.

Definition decode_header (st : t) : result t :=
  if negb (ensure_bytes_available st 7) then
    Throw (o5m_error "file too short (incomplete header info)")
  else
    st ← check_header_magic st;
    st ← check_file_type st;
    check_file_format_version st.

(** The seven bytes of a well-formed header with variant byte [v]. *)
Definition o5m_header (v : byte) : list byte := header_magic ++ [v; x32].

(** The parser after a header with variant byte [v], followed by [rest]. *)
Definition after_header (st : t) (v : byte) (rest : list byte) : t :=
  with_data
    (with_header st
       (set_has_multiple_object_versions (m_header st) (Byte.eqb v x63)))
    rest.

(** A stream with one node carrying the tag a=b inline, then a reset. *)
Definition tagged_node_then_reset : list byte :=
  o5m_header x6d ++
  [x10; x09; x02; x00; x02; x02; x00; x61; x00; x62; x00; xff].

(** *** reset *)

Definition reset (st : t) : t :=
  mk (m_header st) (m_data st)
     (ReferenceTable.clear (m_reference_table st))
     (DeltaDecode.clear (m_delta_id st))
     (DeltaDecode.clear (m_delta_timestamp st))
     (DeltaDecode.clear (m_delta_changeset st))
     (DeltaDecode.clear (m_delta_lon st))
     (DeltaDecode.clear (m_delta_lat st))
     (DeltaDecode.clear (m_delta_way_node_id st))
     (alter DeltaDecode.clear 2%nat
        (alter DeltaDecode.clear 1%nat
           (alter DeltaDecode.clear 0%nat (m_delta_member_ids st))))
     (read_types st) (header_is_done st) (header_value st) (output st).

(** *** Strings

    A [const char*] returned by [decode_string] points either into the
    payload or into the reference table.  [bytes] are the bytes readable
    from it: up to [end] in the payload, up to the end of the string
    [m_table] in the table.  Only a pointer into the payload can be equal
    to [end]. *)
Record ptr : Type := { in_table : bool; bytes : list byte }.

Definition at_end (p : ptr) : bool :=
  negb (in_table p) && ReferenceTable.empty (bytes p).

(** The C string at a pointer, without its terminator. *)
Fixpoint cstr (s : list byte) : list byte :=
  match s with
  | [] => []
  | c :: s' => if Byte.eqb c x00 then [] else c :: cstr s'
  end.

(** [decode_varint(&data, end)] for [data] of either kind; running off
    the table's storage is undefined. *)
Definition decode_varint_at (p : ptr) : result (Z * ptr) :=
  match decode_varint (bytes p) with
  | Ok (v, rest) => Ok (v, {| in_table := in_table p; bytes := rest |})
  | Throw end_of_buffer_exception =>
    if in_table p then Undefined else Throw end_of_buffer_exception
  | Throw e => Throw e
  | Undefined => Undefined
  | OutOfFuel => OutOfFuel
  end.

(** The loop [while ( *data++ ) { if (data == end) throw o5m_error{what}; }]
    on the bytes from [data]; the result is [data] after the loop. *)
Fixpoint scan_while (tbl : bool) (what : string) (data : list byte)
  : result (list byte) :=
  match data with
  | [] => Undefined
  | c :: data' =>
    if Byte.eqb c x00 then Ok data'
    else if negb tbl && ReferenceTable.empty data' then
      Throw (o5m_error what)
    else scan_while tbl what data'
  end.

(** The loop [do { if (data == end) throw o5m_error{what}; } while ( *data++ );]. *)
Fixpoint scan_do_while (tbl : bool) (what : string) (data : list byte)
  : result (list byte) :=
  match data with
  | [] => if tbl then Undefined else Throw (o5m_error what)
  | c :: data' =>
    if Byte.eqb c x00 then Ok data' else scan_do_while tbl what data'
  end.

(** The result is the string and the new value of [*dataptr]. *)
Definition decode_string (data : list byte) (table : ReferenceTable.t)
  : result (ptr * list byte) :=
  match data with
  | [] => Undefined
  | c :: data' =>
    if Byte.eqb c x00 then
      if ReferenceTable.empty data' then
        Throw (o5m_error "string format error")
      else Ok ({| in_table := false; bytes := data' |}, data')
    else
      '(index, data') ← decode_varint data;
      s ← ReferenceTable.get table index;
      Ok ({| in_table := true; bytes := s |}, data')
  end.

(** Modelled from the spec: osmium/osm/types.hpp is not among the
    sources; [user_id_type] is an unsigned 32-bit integer, and this is
    [std::numeric_limits<user_id_type>::max()]. *)
Definition user_id_type_max : Z := 2 ^ 32 - 1.

(** Modelled from the spec: the version is a 32-bit number, and this is
    [std::numeric_limits<object_version_type>::max()]. *)
Definition object_version_type_max : Z := 2 ^ 32 - 1.

(** [data - start] for two pointers into the same array. *)
Definition distance (start data : list byte) : Z :=
  Z.of_nat (length start) - Z.of_nat (length data).

(** The result is the uid, the user name, the new [*dataptr] and the
    table. *)
Definition decode_user (data : list byte) (table : ReferenceTable.t)
  : result (Z * list byte * list byte * ReferenceTable.t) :=
  match data with
  | [] => Undefined
  | c :: _ =>
    let update_pointer := Byte.eqb c x00 in
    '(start, dataptr) ← decode_string data table;
    '(uid, p) ← decode_varint_at start;
    if uid >? user_id_type_max then Throw (o5m_error "uid out of range")
    else if at_end p then Throw (o5m_error "missing user name")
    else
      match bytes p with
      | [] => Undefined
      | _ :: user =>
        if (uid =? 0) && update_pointer then
          Ok (0, [], user, ReferenceTable.add table [x00; x00] 2)
        else
          data ← scan_do_while (in_table p) "no null byte in user name" user;
          if update_pointer then
            Ok (uid, cstr user, data,
                ReferenceTable.add table (bytes start)
                                   (distance (bytes start) data))
          else Ok (uid, cstr user, dataptr, table)
      end
  end.

(** The loop of [decode_tags]; [n] bounds the number of rounds. *)
Fixpoint decode_tags_loop (n : nat) (data : list byte)
    (table : ReferenceTable.t) (tags : list Tag)
  : result (list Tag * ReferenceTable.t) :=
  match data with
  | [] => Ok (tags, table)
  | c :: _ =>
    match n with
    | O => OutOfFuel
    | S n' =>
      let update_pointer := Byte.eqb c x00 in
      '(start, dataptr) ← decode_string data table;
      value ← scan_while (in_table start) "no null byte in tag key"
                         (bytes start);
      if negb (in_table start) && ReferenceTable.empty value then
        Throw (o5m_error "no null byte in tag value")
      else
        data' ← scan_while (in_table start) "no null byte in tag value" value;
        let tag := (cstr (bytes start), cstr value) in
        if update_pointer then
          decode_tags_loop n' data'
            (ReferenceTable.add table (bytes start)
                                (distance (bytes start) data'))
            (tags ++ [tag])
        else decode_tags_loop n' dataptr table (tags ++ [tag])
    end
  end.

Definition decode_tags (data : list byte) (table : ReferenceTable.t)
  : result (list Tag * ReferenceTable.t) :=
  decode_tags_loop (length data) data table [].

(** The result is the user name, the object, the new [*dataptr] and the
    parser. *)
Definition decode_info (object : OSMObject) (data : list byte) (st : t)
  : result (list byte * OSMObject * list byte * t) :=
  match data with
  | [] =>
    Throw (o5m_error "premature end of file while parsing object metadata")
  | c :: data' =>
    if Byte.eqb c x00 then Ok ([], object, data', st)
    else
      '(version, data) ← decode_varint data;
      if version >? object_version_type_max then
        Throw (o5m_error "object version too large")
      else
        let object := set_version object (uint32 version) in
        '(z, data) ← zvarint data;
        let '(timestamp, d) := DeltaDecode.update (m_delta_timestamp st) z in
        let st := with_delta_timestamp st d in
        if negb (timestamp =? 0) then
          let object := set_timestamp object timestamp in
          '(z, data) ← zvarint data;
          let '(changeset, d) :=
            DeltaDecode.update (m_delta_changeset st) z in
          let st := with_delta_changeset st d in
          let object := set_changeset object changeset in
          match data with
          | _ :: _ =>
            '(uid, user, data, table) ←
              decode_user data (m_reference_table st);
            Ok (user, set_uid object uid, data,
                with_reference_table st table)
          | [] => Ok ([], set_uid object 0, data, st)
          end
        else Ok ([], object, data, st)
  end.

(** *** Nodes, ways and relations

    A decoder gets the payload [data, end) as the list [data]; it returns
    what its builder has written and the parser. *)

Definition decode_node (data : list byte) (st : t) : result (Node * t) :=
  '(z, data) ← zvarint data;
  let '(id, d) := DeltaDecode.update (m_delta_id st) z in
  let st := with_delta_id st d in
  let object := set_id new_object id in
  '(user, object, data, st) ← decode_info object data st;
  let object := set_user object user in
  match data with
  | [] =>
    Ok ({| node_object := set_visible object false;
           node_location := Location_default |}, st)
  | _ :: _ =>
    '(z, data) ← zvarint data;
    let '(lon, d) := DeltaDecode.update (m_delta_lon st) z in
    let st := with_delta_lon st d in
    '(z, data) ← zvarint data;
    let '(lat, d) := DeltaDecode.update (m_delta_lat st) z in
    let st := with_delta_lat st d in
    let location := Location_of lon lat in
    match data with
    | _ :: _ =>
      '(tags, table) ← decode_tags data (m_reference_table st);
      Ok ({| node_object := set_tags object tags; node_location := location |},
          with_reference_table st table)
    | [] => Ok ({| node_object := object; node_location := location |}, st)
    end
  end.

(** The loop over the node references of a way.  [after_refs] is the
    number of bytes between [end_refs] and [end], so that
    [data < end_refs] reads [after_refs < length data]. *)
Fixpoint decode_way_nodes (n : nat) (after_refs : nat) (data : list byte)
    (d : DeltaDecode.t) (refs : list Z)
  : result (list Z * list byte * DeltaDecode.t) :=
  if (after_refs <? length data)%nat then
    match n with
    | O => OutOfFuel
    | S n' =>
      '(z, data) ← zvarint data;
      let '(ref, d) := DeltaDecode.update d z in
      decode_way_nodes n' after_refs data d (refs ++ [ref])
    end
  else Ok (refs, data, d).

Definition decode_way (data : list byte) (st : t) : result (Way * t) :=
  '(z, data) ← zvarint data;
  let '(id, d) := DeltaDecode.update (m_delta_id st) z in
  let st := with_delta_id st d in
  let object := set_id new_object id in
  '(user, object, data, st) ← decode_info object data st;
  let object := set_user object user in
  match data with
  | [] => Ok ({| way_object := set_visible object false; way_nodes := [] |}, st)
  | _ :: _ =>
    '(reference_section_length, data) ← decode_varint data;
    '(refs, data, st) ←
      (if reference_section_length >? 0 then
         if reference_section_length >? Z.of_nat (length data) then
           Throw (o5m_error "way nodes ref section too long")
         else
           '(refs, data, d) ←
             decode_way_nodes (length data)
               (length data - Z.to_nat reference_section_length)
               data (m_delta_way_node_id st) [];
           Ok (refs, data, with_delta_way_node_id st d)
       else Ok ([], data, st));
    match data with
    | _ :: _ =>
      '(tags, table) ← decode_tags data (m_reference_table st);
      Ok ({| way_object := set_tags object tags; way_nodes := refs |},
          with_reference_table st table)
    | [] => Ok ({| way_object := object; way_nodes := refs |}, st)
    end
  end.

Definition decode_member_type (c : byte) : result item_type :=
  if (byte_val c <? byte_val x30) || (byte_val c >? byte_val x32) then
    Throw (o5m_error "unknown member type")
  else Ok (nwr_index_to_item_type (byte_val c - byte_val x30)).

(** The result is the member type, the role, the new [*dataptr] and the
    table. *)
Definition decode_role (data : list byte) (table : ReferenceTable.t)
  : result (item_type * list byte * list byte * ReferenceTable.t) :=
  match data with
  | [] => Undefined
  | c :: _ =>
    let update_pointer := Byte.eqb c x00 in
    '(start, dataptr) ← decode_string data table;
    match bytes start with
    | [] => Undefined
    | c :: role =>
      member_type ← decode_member_type c;
      if negb (in_table start) && ReferenceTable.empty role then
        Throw (o5m_error "missing role")
      else
        data ← scan_while (in_table start) "no null byte in role" role;
        if update_pointer then
          Ok (member_type, cstr role, data,
              ReferenceTable.add table (bytes start)
                                 (distance (bytes start) data))
        else Ok (member_type, cstr role, dataptr, table)
    end
  end.

(** The loop over the members of a relation. *)
Fixpoint decode_members (n : nat) (after_refs : nat) (data : list byte)
    (st : t) (members : list Member)
  : result (list Member * list byte * t) :=
  if (after_refs <? length data)%nat then
    match n with
    | O => OutOfFuel
    | S n' =>
      '(delta_id, data) ← zvarint data;
      match data with
      | [] => Throw (o5m_error "relation member format error")
      | _ :: _ =>
        '(member_type, role, data, table) ←
          decode_role data (m_reference_table st);
        let st := with_reference_table st table in
        let i := item_type_to_nwr_index member_type in
        match m_delta_member_ids st !! i with
        | None => Undefined
        | Some d =>
          let '(ref, d) := DeltaDecode.update d delta_id in
          let st := with_delta_member_ids st (<[i := d]> (m_delta_member_ids st)) in
          decode_members n' after_refs data st
                         (members ++ [(member_type, ref, role)])
        end
      end
    end
  else Ok (members, data, st).

Definition decode_relation (data : list byte) (st : t)
  : result (Relation * t) :=
  '(z, data) ← zvarint data;
  let '(id, d) := DeltaDecode.update (m_delta_id st) z in
  let st := with_delta_id st d in
  let object := set_id new_object id in
  '(user, object, data, st) ← decode_info object data st;
  let object := set_user object user in
  match data with
  | [] =>
    Ok ({| relation_object := set_visible object false;
           relation_members := [] |}, st)
  | _ :: _ =>
    '(reference_section_length, data) ← decode_varint data;
    '(members, data, st) ←
      (if reference_section_length >? 0 then
         if reference_section_length >? Z.of_nat (length data) then
           Throw (o5m_error "relation format error")
         else
           decode_members (length data)
             (length data - Z.to_nat reference_section_length) data st []
       else Ok ([], data, st));
    match data with
    | _ :: _ =>
      '(tags, table) ← decode_tags data (m_reference_table st);
      Ok ({| relation_object := set_tags object tags;
             relation_members := members |},
          with_reference_table st table)
    | [] =>
      Ok ({| relation_object := object; relation_members := members |}, st)
    end
  end.

Definition decode_bbox (data : list byte) (st : t) : result t :=
  '(sw_lon, data) ← zvarint data;
  '(sw_lat, data) ← zvarint data;
  '(ne_lon, data) ← zvarint data;
  '(ne_lat, data) ← zvarint data;
  Ok (with_header st
        (add_box (m_header st)
           {| bottom_left := Location_of sw_lon sw_lat;
              top_right := Location_of ne_lon ne_lat |})).

Definition decode_timestamp (data : list byte) (st : t) : result t :=
  '(timestamp, data) ← zvarint data;
  Ok (with_header st
        (Header_set (Header_set (m_header st) "o5m_timestamp" timestamp)
                    "timestamp" timestamp)).

(** *** The datasets *)

Module dataset_type.
Definition node : Z := 0x10.
Definition way : Z := 0x11.
Definition relation : Z := 0x12.
Definition bounding_box : Z := 0xdb.
Definition timestamp : Z := 0xdc.
Definition header : Z := 0xe0.
Definition sync : Z := 0xee.
Definition jump : Z := 0xef.
Definition reset : Z := 0xff.
End dataset_type.

(** The [switch (ds_type)] of [decode_data], on the payload
    [m_data, m_data + length).  [maybe_new_buffer] only chooses the buffer
    that is written to. *)
Definition decode_payload (ds_type : Z) (payload : list byte) (st : t)
  : result t :=
  if ds_type =? dataset_type.node then
    let st := mark_header_as_done st in
    if negb (Z.land (read_types st) osm_entity_bits.node =? 0) then
      '(n, st) ← decode_node payload st;
      Ok (commit st (a_node n))
    else Ok st
  else if ds_type =? dataset_type.way then
    let st := mark_header_as_done st in
    if negb (Z.land (read_types st) osm_entity_bits.way =? 0) then
      '(w, st) ← decode_way payload st;
      Ok (commit st (a_way w))
    else Ok st
  else if ds_type =? dataset_type.relation then
    let st := mark_header_as_done st in
    if negb (Z.land (read_types st) osm_entity_bits.relation =? 0) then
      '(r, st) ← decode_relation payload st;
      Ok (commit st (a_relation r))
    else Ok st
  else if ds_type =? dataset_type.bounding_box then decode_bbox payload st
  else if ds_type =? dataset_type.timestamp then decode_timestamp payload st
  else Ok st.

(** How a round of the loop of [decode_data] ends: with the next round,
    or with [break]. *)
Inductive control : Type := next_dataset | break.

(** One round of the loop of [decode_data], entered with at least one
    byte available. *)
Definition decode_dataset (st : t) : result (control * t) :=
  match m_data st with
  | [] => Undefined
  | c :: rest =>
    let ds_type := byte_val c in
    let st := with_data st rest in
    if ds_type >? dataset_type.jump then
      if ds_type =? dataset_type.reset then Ok (next_dataset, reset st)
      else Ok (next_dataset, st)
    else
      '(length, rest) ←
        match decode_varint (m_data st) with
        | Throw end_of_buffer_exception =>
          Throw (o5m_error "premature end of file")
        | r => r
        end;
      let st := with_data st rest in
      if negb (ensure_bytes_available st length) then
        Throw (o5m_error "premature end of file")
      else
        st ← decode_payload ds_type (take (Z.to_nat length) (m_data st)) st;
        if (read_types st =? osm_entity_bits.nothing) && header_is_done st
        then Ok (break, st)
        else Ok (next_dataset,
                 with_data st (drop (Z.to_nat length) (m_data st)))
  end.

(** The loop of [decode_data]; [n] bounds the number of rounds. *)
Fixpoint decode_data_loop (n : nat) (st : t) : result t :=
  if ensure_bytes_available st 1 then
    match n with
    | O => OutOfFuel
    | S n' =>
      '(c, st) ← decode_dataset st;
      match c with
      | next_dataset => decode_data_loop n' st
      | break => Ok st
      end
    end
  else Ok st.

Definition decode_data (st : t) : result t :=
  st ← decode_data_loop (length (m_data st)) st;
  Ok (mark_header_as_done st).

Definition run (st : t) : result t :=
  st ← decode_header st;
  decode_data st.

(** The types whose payload [decode_data] decodes. *)
Definition decoded_type (ds_type : Z) : bool :=
  (ds_type =? dataset_type.node) || (ds_type =? dataset_type.way) ||
  (ds_type =? dataset_type.relation) ||
  (ds_type =? dataset_type.bounding_box) ||
  (ds_type =? dataset_type.timestamp).

(** What a payload decoder never changes. *)
Definition same_frame (st st' : t) : Prop :=
  m_data st' = m_data st /\ read_types st' = read_types st /\
  header_is_done st' = header_is_done st /\
  header_value st' = header_value st /\ output st' = output st.

(** *** Inputs for the decoders *)

(** A string without NUL bytes. *)
Definition no_nul (s : list byte) : Prop := Forall (fun c => c <> x00) s.

(** The bytes of a tag as [decode_tags] stores them in the reference
    table: the key and the value, each with its terminator. *)
Definition tag_pair (t : Tag) : list byte := t.1 ++ x00 :: t.2 ++ [x00].

(** A tag given inline: the byte 0x00, then the pair. *)
Definition inline_tag (t : Tag) : list byte := x00 :: tag_pair t.

(** The bytes [chunk] are a varint with the value [v], whatever
    follows them. *)
Definition holds_varint (chunk : list byte) (v : Z) : Prop :=
  forall tail, decode_varint (chunk ++ tail) = Ok (v, tail).

(** The bytes [chunk] are a zigzag varint with the value [z]. *)
Definition holds_zvarint (chunk : list byte) (z : Z) : Prop :=
  forall tail, zvarint (chunk ++ tail) = Ok (z, tail).

(** What a DeltaDecode returns for the deltas [zs], one after the
    other, and what it is left as. *)
Fixpoint updates (d : DeltaDecode.t) (zs : list Z)
  : list Z * DeltaDecode.t :=
  match zs with
  | [] => ([], d)
  | z :: zs =>
    let '(v, d) := DeltaDecode.update d z in
    let '(vs, d) := updates d zs in
    (v :: vs, d)
  end.

(** The character that stands for a member type. *)
Definition member_type_char (ty : item_type) : byte :=
  match ty with node => x30 | way => x31 | relation => x32 end.

(** The bytes of a role as [decode_role] stores them in the reference
    table: the character of the member type, the role and its
    terminator. *)
Definition role_string (m : Z * item_type * list byte) : list byte :=
  member_type_char m.1.2 :: m.2 ++ [x00].

(** A member given inline: the delta of its id in the bytes [chunk],
    the byte 0x00, then the role string. *)
Definition inline_member (chunk : list byte) (m : Z * item_type * list byte)
  : list byte :=
  chunk ++ x00 :: role_string m.

(** What the three DeltaDecoders of the member ids return for the
    members [ms], each given as the delta of its id, its type and its
    role, and what they are left as. *)
Fixpoint member_updates (ds : list DeltaDecode.t)
    (ms : list (Z * item_type * list byte))
  : list Member * list DeltaDecode.t :=
  match ms with
  | [] => ([], ds)
  | (delta, ty, role) :: ms =>
    let i := item_type_to_nwr_index ty in
    let '(ref, d) :=
      DeltaDecode.update (default DeltaDecode.init (ds !! i)) delta in
    let '(members, ds) := member_updates (<[i := d]> ds) ms in
    ((ty, ref, role) :: members, ds)
  end.

(** The bit of [osm_entity_bits] that stands for the kind of an
    entity. *)
Definition entity_bit (e : Entity) : Z :=
  match e with
  | a_node _ => osm_entity_bits.node
  | a_way _ => osm_entity_bits.way
  | a_relation _ => osm_entity_bits.relation
  end.

(** The consumer that asked for [types] asked for the kind of [e]. *)
Definition wanted (types : Z) (e : Entity) : Prop :=
  Z.land types (entity_bit e) <> 0.

(** Between [st] and [st'] the consumer's mask has stayed the same and
    the output has grown by entities that a consumer asking for [types]
    wants. *)
Definition grows_by (types : Z) (st st' : t) : Prop :=
  read_types st' = read_types st /\
  exists es, output st' = output st ++ es /\ Forall (wanted types) es.

(** A dataset that the parser passes over: a type byte above 0xEF
    other than 0xFF, or a type byte of at most 0xEF that stands for none
    of the types that are decoded, followed by the length of its
    payload in one byte and by the payload. *)
Inductive skipped : list byte -> Prop :=
  | skipped_marker (c : byte) :
      byte_val c > dataset_type.jump -> byte_val c <> dataset_type.reset ->
      skipped [c]
  | skipped_payload (c len : byte) (payload : list byte) :
      byte_val c <= dataset_type.jump -> decoded_type (byte_val c) = false ->
      byte_val len < 128 -> Z.of_nat (length payload) = byte_val len ->
      skipped (c :: len :: payload).

End O5mParser.

(** ** Buffer *)

Module Buffer.

(** Modelled from the spec: [align_bytes] and [padded_length] come from
    osmium/memory/item.hpp, which is not among the sources.  Records are
    aligned to 8 bytes ([align_bytes]; the spec allows 4 or 8), and
    [padded_length] rounds a length up to the next multiple of the
    alignment, as [(length + align_bytes - 1) & ~(align_bytes - 1)] on
    [std::size_t]. *)
Definition align_bytes : Z := 8.

Definition padded_length (length : Z) : Z :=
  Z.land (uint64 (length + align_bytes - 1))
         (uint64 (Z.lnot (align_bytes - 1))).

Inductive auto_grow : Type := no | yes | internal.

#[global] Instance auto_grow_eq_dec : EqDecision auto_grow.
Proof. solve_decision. Defined.

(** The buffer object.

    [m_data] is [None] for the null pointer and otherwise holds the bytes
    of the storage it points to; [m_memory] tells whether the buffer owns
    that storage (the [unique_ptr] is not null).  [m_builder_count]
    exists in debug builds only.  The deprecated [m_full] callback is
    left out: the model covers the buffers on which [set_full_callback]
    was never called, where [m_full] is empty and [reserve_space] skips
    the call. *)
#[warnings="-register-all"]
Inductive t : Type := mk {
  m_next_buffer : option t;
  m_memory : bool;
  m_data : option (list byte);
  m_capacity : Z;
  m_written : Z;
  m_committed : Z;
  m_builder_count : Z;
  m_auto_grow : auto_grow
}.

(** How a member function ends: it returns [a] and leaves the buffer
    [b]; it throws [e] and leaves the buffer [b]; an [assert] fails or
    the behaviour is undefined; or it loops forever. *)
Inductive outcome (A : Type) : Type :=
  | returns (a : A) (b : t)
  | throws (e : exn) (b : t)
  | undefined
  | diverges.

Arguments returns {A} a b.
Arguments throws {A} e b.
Arguments undefined {A}.
Arguments diverges {A}.

Definition with_written (b : t) (v : Z) : t :=
  mk (m_next_buffer b) (m_memory b) (m_data b) (m_capacity b) v
     (m_committed b) (m_builder_count b) (m_auto_grow b).

Definition with_committed (b : t) (v : Z) : t :=
  mk (m_next_buffer b) (m_memory b) (m_data b) (m_capacity b) (m_written b)
     v (m_builder_count b) (m_auto_grow b).

Definition with_storage (b : t) (owned : bool) (d : option (list byte))
    (capacity : Z) : t :=
  mk (m_next_buffer b) owned d capacity (m_written b)
     (m_committed b) (m_builder_count b) (m_auto_grow b).

Definition with_next_buffer (b : t) (n : option t) : t :=
  mk n (m_memory b) (m_data b) (m_capacity b) (m_written b)
     (m_committed b) (m_builder_count b) (m_auto_grow b).

(** [new unsigned char[n]]: the contents of fresh storage are
    indeterminate; the model fills it with zero bytes, and no property
    below depends on them. *)
Definition new_array (n : Z) : list byte := replicate (Z.to_nat n) x00.

Definition min_capacity : Z := 64.

Definition calculate_capacity (capacity : Z) : Z :=
  if capacity <? min_capacity then min_capacity else padded_length capacity.

(** *** Constructors *)

(** [Buffer()]: the invalid buffer. *)
Definition default : t :=
  {| m_next_buffer := None; m_memory := false; m_data := None;
     m_capacity := 0; m_written := 0; m_committed := 0;
     m_builder_count := 0; m_auto_grow := no |}.

(** [Buffer(unsigned char* data, std::size_t size)]; [data] holds the
    bytes at the pointer. *)
Definition external (data : list byte) (size : Z) : result t :=
  if negb (size mod align_bytes =? 0) then
    Throw (invalid_argument "buffer size needs to be multiple of alignment")
  else
    Ok {| m_next_buffer := None; m_memory := false; m_data := Some data;
          m_capacity := size; m_written := size; m_committed := size;
          m_builder_count := 0; m_auto_grow := no |}.

(** The checks shared by the two constructors that take a capacity and
    the number of committed bytes. *)
Definition check_capacity_committed (capacity committed : Z) : result unit :=
  if negb (capacity mod align_bytes =? 0) then
    Throw (invalid_argument
             "buffer capacity needs to be multiple of alignment")
  else if negb (committed mod align_bytes =? 0) then
    Throw (invalid_argument
             "buffer parameter 'committed' needs to be multiple of alignment")
  else if committed >? capacity then
    Throw (invalid_argument
             "buffer parameter 'committed' can not be larger than capacity")
  else Ok tt.

(** [Buffer(unsigned char* data, std::size_t capacity, std::size_t committed)]. *)
Definition external_committed (data : list byte) (capacity committed : Z)
  : result t :=
  _ ← check_capacity_committed capacity committed;
  Ok {| m_next_buffer := None; m_memory := false; m_data := Some data;
        m_capacity := capacity; m_written := committed;
        m_committed := committed; m_builder_count := 0; m_auto_grow := no |}.

(** [Buffer(std::unique_ptr<unsigned char[]> data, std::size_t capacity,
    std::size_t committed)]. *)
Definition owning (data : list byte) (capacity committed : Z) : result t :=
  _ ← check_capacity_committed capacity committed;
  Ok {| m_next_buffer := None; m_memory := true; m_data := Some data;
        m_capacity := capacity; m_written := committed;
        m_committed := committed; m_builder_count := 0; m_auto_grow := no |}.

(** [Buffer(std::size_t capacity, auto_grow auto_grow = auto_grow::yes)]. *)
Definition allocating (capacity : Z) (grow : auto_grow) : t :=
  {| m_next_buffer := None; m_memory := true;
     m_data := Some (new_array (calculate_capacity capacity));
     m_capacity := calculate_capacity capacity;
     m_written := 0; m_committed := 0;
     m_builder_count := 0; m_auto_grow := grow |}.

(** [Buffer(Buffer&& other)]: the new buffer and what is left of [other]. *)
Definition move (other : t) : t * t :=
  (other,
   {| m_next_buffer := None; m_memory := false; m_data := None;
      m_capacity := 0; m_written := 0; m_committed := 0;
      m_builder_count := 0; m_auto_grow := m_auto_grow other |}).

(** *** Accessors *)

Definition capacity (b : t) : Z := m_capacity b.
Definition committed (b : t) : Z := m_committed b.
Definition written (b : t) : Z := m_written b.

(** [explicit operator bool()]. *)
Definition to_bool (b : t) : bool :=
  match m_data b with Some _ => true | None => false end.

Definition has_nested_buffers (b : t) : bool :=
  match m_next_buffer b with Some _ => true | None => false end.

(** *** Items *)

(** Modelled from the spec: [Item] and [ItemIterator]
    (osmium/memory/item.hpp, osmium/memory/item_iterator.hpp) are not
    among the sources.  A record starts with a header of [header_size]
    bytes that holds its type tag, its length and its tombstone bit;
    [decode_item] reads the length and the tombstone from the bytes of a
    header; the padded size of a record is its length rounded up to the
    alignment; the iterator of a buffer visits every committed record, in
    order, and advances by the padded size of the record it is at. *)
Record Item : Type := { byte_size : Z; removed : bool }.

Definition padded_size (i : Item) : Z := padded_length (byte_size i).

Section Operations.

(** [NDEBUG] tells whether the [assert]s are compiled out. *)
Variable NDEBUG : bool.
Variable header_size : nat.
Variable decode_item : list byte -> Item.

(** The item at offset [off] of the storage [mem]; reading a header that
    does not lie inside the storage is undefined. *)
Definition item_at (mem : list byte) (off : Z) : result Item :=
  if (0 <=? off) && (off + Z.of_nat header_size <=? Z.of_nat (length mem))
  then Ok (decode_item (take header_size (drop (Z.to_nat off) mem)))
  else Undefined.

(** [assert(c)], then [k]. *)
Definition assert {A} (c : bool) (k : outcome A) : outcome A :=
  if NDEBUG || c then k else undefined.

Definition is_aligned (b : t) : outcome bool :=
  assert (to_bool b)
    (returns ((m_written b mod align_bytes =? 0) &&
              (m_committed b mod align_bytes =? 0)) b).

Definition increment_builder_count (b : t) : t :=
  mk (m_next_buffer b) (m_memory b) (m_data b) (m_capacity b) (m_written b)
     (m_committed b) ((m_builder_count b + 1) mod 2 ^ 8) (m_auto_grow b).

Definition decrement_builder_count (b : t) : outcome unit :=
  assert (m_builder_count b >? 0)
    (returns tt
       (mk (m_next_buffer b) (m_memory b) (m_data b) (m_capacity b)
           (m_written b) (m_committed b)
           ((m_builder_count b - 1) mod 2 ^ 8) (m_auto_grow b))).

(** [std::copy_n(src, n, dst + off)]. *)
Definition copy_n (src : list byte) (n : Z) (dst : list byte) (off : Z)
  : list byte :=
  list_inserts (Z.to_nat off) (take (Z.to_nat n) src) dst.

Definition grow (size : Z) (b : t) : outcome unit :=
  assert (to_bool b)
    (if negb (m_memory b) then
       throws (logic_error
                 "Can't grow Buffer if it doesn't use internal memory management.")
              b
     else
       let size := calculate_capacity size in
       if m_capacity b <? size then
         match m_data b with
         | None => undefined
         | Some mem =>
           let memory := copy_n mem (m_capacity b) (new_array size) 0 in
           returns tt (with_storage b true (Some memory) size)
         end
       else returns tt b).

(** [grow_internal].  When the constructor of the predecessor throws, the
    storage, already moved into its argument, is freed: the buffer is
    left without storage it owns and with a pointer from which nothing
    can be read. *)
Definition grow_internal (b : t) : outcome unit :=
  assert (to_bool b)
    (if negb (m_memory b) then
       throws (logic_error
                 "Can't grow Buffer if it doesn't use internal memory management.")
              b
     else
       match m_data b with
       | None => undefined
       | Some mem =>
         match owning mem (m_capacity b) (m_committed b) with
         | Ok old =>
           let memory := new_array (m_capacity b) in
           let written := uint64 (m_written b - m_committed b) in
           let memory :=
             copy_n (drop (Z.to_nat (m_committed b)) mem) written memory 0 in
           let old := with_next_buffer old (m_next_buffer b) in
           returns tt
             {| m_next_buffer := Some old; m_memory := true;
                m_data := Some memory; m_capacity := m_capacity b;
                m_written := written; m_committed := 0;
                m_builder_count := m_builder_count b;
                m_auto_grow := m_auto_grow b |}
         | Throw e => throws e (with_storage b false (Some []) (m_capacity b))
         | Undefined => undefined
         | OutOfFuel => diverges
         end
       end).

Definition commit (b : t) : outcome Z :=
  assert (to_bool b)
    (assert (m_builder_count b =? 0)
       (match is_aligned b with
        | returns aligned _ =>
          assert aligned
            (returns (m_committed b) (with_committed b (m_written b)))
        | throws e b' => throws e b'
        | undefined => undefined
        | diverges => diverges
        end)).

Definition rollback (b : t) : outcome unit :=
  assert (to_bool b)
    (assert (m_builder_count b =? 0)
       (returns tt (with_written b (m_committed b)))).

Definition clear (b : t) : outcome Z :=
  assert (m_builder_count b =? 0)
    (returns (m_committed b) (with_committed (with_written b 0) 0)).

(** The loop [while (m_written + size > new_capacity) new_capacity *= 2]
    with [need = m_written + size].  After 64 doublings the capacity has
    wrapped around to 0 and stays there, so 64 rounds decide whether the
    loop ends ([double_capacity_never]). *)
Fixpoint double_capacity (n : nat) (need new_capacity : Z) : option Z :=
  if need >? new_capacity then
    match n with
    | O => None
    | S n' => double_capacity n' need (uint64 (new_capacity * 2))
    end
  else Some new_capacity.

(** The result is the offset of the reserved space in the storage. *)
Definition reserve_space (size : Z) (b : t) : outcome Z :=
  assert (to_bool b)
    (let reserve (b : t) : outcome Z :=
       returns (m_written b) (with_written b (uint64 (m_written b + size))) in
     if uint64 (m_written b + size) >? m_capacity b then
       if negb (m_memory b) || bool_decide (m_auto_grow b = no) then
         throws buffer_is_full b
       else
         let grown :=
           if bool_decide (m_auto_grow b = internal) &&
              negb (m_committed b =? 0)
           then grow_internal b else returns tt b in
         match grown with
         | returns _ b =>
           if uint64 (m_written b + size) >? m_capacity b then
             match double_capacity 64 (uint64 (m_written b + size))
                                   (uint64 (m_capacity b * 2)) with
             | None => diverges
             | Some new_capacity =>
               match grow new_capacity b with
               | returns _ b => reserve b
               | throws e b => throws e b
               | undefined => undefined
               | diverges => diverges
               end
             end
           else reserve b
         | throws e b => throws e b
         | undefined => undefined
         | diverges => diverges
         end
     else reserve b).

(** [add_item]: [item] holds the bytes of the object that is copied. *)
Definition add_item (item : list byte) (b : t) : outcome Z :=
  assert (to_bool b)
    (match item_at item 0 with
     | Ok i =>
       match reserve_space (padded_size i) b with
       | returns target b =>
         match m_data b with
         | None => undefined
         | Some mem =>
           returns target
             (with_storage b (m_memory b)
                (Some (copy_n item (padded_size i) mem target))
                (m_capacity b))
         end
       | o => o
       end
     | _ => undefined
     end).

(** [std::memmove(mem + dst, mem + src, n)]. *)
Definition memmove (mem : list byte) (dst src n : Z) : result (list byte) :=
  if (0 <=? n) && (src + n <=? Z.of_nat (length mem)) &&
     (dst + n <=? Z.of_nat (length mem))
  then Ok (copy_n (drop (Z.to_nat src) mem) n mem dst)
  else Undefined.

(** The loop of [purge_removed] over the storage [mem], with [end_] the
    offset of [end()]; [n] bounds the number of rounds.  [calls] collects
    the arguments of the calls of [moving_in_buffer].  The result is the
    storage, the offset of [it_write] and the calls. *)
Fixpoint purge_loop (n : nat) (mem : list byte) (end_ it_read it_write : Z)
    (calls : list (Z * Z)) : result (list byte * Z * list (Z * Z)) :=
  if it_read =? end_ then Ok (mem, it_write, calls)
  else
    match n with
    | O => OutOfFuel
    | S n' =>
      i ← item_at mem it_read;
      let next := it_read + padded_size i in
      if negb (removed i) then
        '(mem, calls) ←
          (if negb (it_read =? it_write) then
             mem ← memmove mem it_write it_read (padded_size i);
             Ok (mem, calls ++ [(it_read, it_write)])
           else Ok (mem, calls));
        w ← item_at mem it_write;
        purge_loop n' mem end_ next (it_write + padded_size w) calls
      else purge_loop n' mem end_ next it_write calls
    end.

(** [purge_removed(callback)]; the result is the list of the calls
    [callback->moving_in_buffer(old_offset, new_offset)], in order.  The
    overload without a callback is the same function without the
    calls.  The loop is given one round for every byte of the storage,
    and one more: on a committed part made of records it ends within
    them. *)
Definition purge_removed (b : t) : outcome (list (Z * Z)) :=
  assert (to_bool b)
    (if m_committed b =? 0 then returns [] b
     else
       match m_data b with
       | None => undefined
       | Some mem =>
         match purge_loop (S (length mem)) mem (m_committed b) 0 0 [] with
         | Ok (mem, it_write, calls) =>
           returns calls
             (with_committed
                (with_written
                   (with_storage b (m_memory b) (Some mem) (m_capacity b))
                   it_write)
                it_write)
         | Throw e => throws e b
         | Undefined => undefined
         | OutOfFuel => diverges
         end
       end).

(** *** The contents of a buffer

    A record is the list of its bytes.  It is well formed when it holds
    its header and its padded size is its number of bytes. *)
Definition record_item (r : list byte) : Item :=
  decode_item (take header_size r).

Definition record_ok (r : list byte) : Prop :=
  (header_size <= length r)%nat /\ (0 < length r)%nat /\
  padded_size (record_item r) = Z.of_nat (length r).

Definition alive (r : list byte) : bool := negb (removed (record_item r)).

(** The committed part of the storage of [b] is made of the records
    [rs]. *)
Definition holds (b : t) (rs : list (list byte)) : Prop :=
  Forall record_ok rs /\
  m_committed b = Z.of_nat (length (concat rs)) /\
  exists mem rest, m_data b = Some mem /\ mem = concat rs ++ rest.

(** Where the records that are not removed lie before and after the
    compaction: each with its old and its new offset, for records
    [rs] that start at offset [old] and are moved down to [new]. *)
Fixpoint placements (old new : Z) (rs : list (list byte))
  : list (list byte * Z * Z) :=
  match rs with
  | [] => []
  | r :: rs =>
    if alive r then
      (r, old, new)
        :: placements (old + Z.of_nat (length r)) (new + Z.of_nat (length r)) rs
    else placements (old + Z.of_nat (length r)) new rs
  end.

(** The records that change their place, as the callback is told. *)
Definition moved (ps : list (list byte * Z * Z)) : list (Z * Z) :=
  omap (fun p : list byte * Z * Z =>
          let '(_, old, new) := p in
          if old =? new then None else Some (old, new)) ps.

(** The sum of the padded sizes of records. *)
Definition total_padded_size (rs : list (list byte)) : Z :=
  foldr (fun r n => padded_size (record_item r) + n) 0 rs.

(** *** Sequences of operations *)

Inductive operation : Type :=
  | op_reserve_space (size : Z)
  | op_commit
  | op_rollback
  | op_clear
  | op_grow (size : Z)
  | op_grow_internal
  | op_purge_removed
  | op_add_item (item : list byte).

(** The buffer that a call leaves behind, if the program goes on. *)
Definition left_behind {A} (o : outcome A) : option t :=
  match o with
  | returns _ b => Some b
  | throws _ b => Some b
  | undefined => None
  | diverges => None
  end.

Definition exec (op : operation) (b : t) : option t :=
  match op with
  | op_reserve_space size => left_behind (reserve_space size b)
  | op_commit => left_behind (commit b)
  | op_rollback => left_behind (rollback b)
  | op_clear => left_behind (clear b)
  | op_grow size => left_behind (grow size b)
  | op_grow_internal => left_behind (grow_internal b)
  | op_purge_removed => left_behind (purge_removed b)
  | op_add_item item => left_behind (add_item item b)
  end.

(** What a call needs for the arithmetic on [std::size_t] not to wrap
    around, and, for [purge_removed], for the iteration to be defined. *)
Definition in_range (op : operation) (b : t) : Prop :=
  match op with
  | op_reserve_space size => 0 <= size /\ m_written b + size < 2 ^ 64
  | op_add_item item =>
    forall i, item_at item 0 = Ok i ->
              0 <= padded_size i /\ m_written b + padded_size i < 2 ^ 64
  | op_purge_removed => exists rs, holds b rs
  | _ => True
  end.

(** The buffers that a program can have: made by a constructor, left
    behind by a member function or a move, or found in the chain of
    another buffer.  In [reachable true] every call is [in_range]. *)
Inductive reachable (checked : bool) : t -> Prop :=
  | reach_default : reachable checked default
  | reach_external data size b :
      0 <= size < 2 ^ 64 -> external data size = Ok b -> reachable checked b
  | reach_external_committed data capacity committed b :
      0 <= capacity < 2 ^ 64 -> 0 <= committed < 2 ^ 64 ->
      external_committed data capacity committed = Ok b -> reachable checked b
  | reach_owning data capacity committed b :
      0 <= capacity < 2 ^ 64 -> 0 <= committed < 2 ^ 64 ->
      owning data capacity committed = Ok b -> reachable checked b
  | reach_allocating capacity grow :
      0 <= capacity < 2 ^ 64 -> reachable checked (allocating capacity grow)
  | reach_move_to b : reachable checked b -> reachable checked (move b).1
  | reach_move_from b : reachable checked b -> reachable checked (move b).2
  | reach_nested b b' :
      reachable checked b -> m_next_buffer b = Some b' -> reachable checked b'
  | reach_exec op b b' :
      reachable checked b -> (checked = true -> in_range op b) ->
      exec op b = Some b' -> reachable checked b'.

End Operations.

(** The invariant of the spec. *)
Definition invariant (b : t) : Prop :=
  m_written b >= m_committed b /\ m_committed b <= m_capacity b.

(** The invariant that the operations maintain along the chain of
    predecessors. *)
Definition sound (b : t) : Prop :=
  0 <= m_committed b <= m_written b /\ m_written b <= m_capacity b < 2 ^ 64 /\
  (m_memory b = true -> m_capacity b mod 8 = 0).

Fixpoint chain_sound (b : t) : Prop :=
  sound b /\
  match m_next_buffer b with
  | None => True
  | Some b' => chain_sound b'
  end.

Arguments chain_sound : simpl never.

(** A call keeps the invariant when every buffer it can leave behind is
    sound along its chain. *)
Definition keeps {A} (o : outcome A) : Prop :=
  forall b', left_behind o = Some b' -> chain_sound b'.

(** A header layout for examples: the first byte of a record is its
    length, the lowest bit of the second byte its tombstone. *)
Definition example_decode_item (header : list byte) : Item :=
  match header with
  | size :: flags :: _ =>
    {| byte_size := byte_val size; removed := Z.odd (byte_val flags) |}
  | _ => {| byte_size := 0; removed := false |}
  end.

(** Two records in that layout, the first of them removed, and an
    external buffer that holds them. *)
Definition example_removed : list byte :=
  [x08; x01; x00; x00; x00; x00; x00; x00].

Definition example_kept : list byte :=
  [x08; x00; x2a; x00; x00; x00; x00; x00].

Definition example_buffer : t :=
  {| m_next_buffer := None; m_memory := false;
     m_data := Some (concat [example_removed; example_kept] ++ []);
     m_capacity := 16; m_written := 16; m_committed := 16;
     m_builder_count := 0; m_auto_grow := no |}.

(** *** More member functions *)

Section MoreOperations.

Variable NDEBUG : bool.
Variable header_size : nat.
Variable decode_item : list byte -> Item.

(** [get_last_nested]: the walk down the chain from the buffer
    [buffer->m_next_buffer], here [next], to the last one.  The result
    is the buffer that is returned and what [buffer->m_next_buffer] is
    left as. *)
Fixpoint detach_last (next : t) : t * option t :=
  match m_next_buffer next with
  | Some next' =>
    let '(last, rest) := detach_last next' in
    (last, Some (with_next_buffer next rest))
  | None => (next, None)
  end.

(** Without nested buffers the loop condition reads through a null
    pointer. *)
Definition get_last_nested (b : t) : outcome t :=
  assert NDEBUG (has_nested_buffers b)
    (match m_next_buffer b with
     | None => undefined
     | Some next =>
       let '(last, rest) := detach_last next in
       returns last (with_next_buffer b rest)
     end).

(** [add_buffer(buffer)], for a [buffer] that is another object than
    [*this].  [std::copy_n] reads [committed] bytes at [buffer.data()]
    and writes them at [target]; reading or writing outside the two
    storages is undefined. *)
Definition add_buffer (buffer : t) (b : t) : outcome unit :=
  assert NDEBUG (to_bool b)
    (assert NDEBUG (to_bool buffer)
       (assert NDEBUG (m_builder_count b =? 0)
          (match reserve_space NDEBUG (committed buffer) b with
           | returns target b =>
             assert NDEBUG (to_bool buffer)
               (match m_data buffer, m_data b with
                | Some src, Some mem =>
                  if (0 <=? committed buffer) &&
                     (committed buffer <=? Z.of_nat (length src)) &&
                     (target + committed buffer <=? Z.of_nat (length mem))
                  then
                    returns tt
                      (with_storage b (m_memory b)
                         (Some (copy_n src (committed buffer) mem target))
                         (m_capacity b))
                  else undefined
                | None, _ =>
                  if committed buffer =? 0 then returns tt b else undefined
                | _, None => undefined
                end)
           | throws e b => throws e b
           | undefined => undefined
           | diverges => diverges
           end))).

(** [push_back(item)]: [add_item], then [commit]. *)
Definition push_back (item : list byte) (b : t) : outcome unit :=
  assert NDEBUG (to_bool b)
    (assert NDEBUG (m_builder_count b =? 0)
       (match add_item NDEBUG header_size decode_item item b with
        | returns _ b =>
          match commit NDEBUG b with
          | returns _ b => returns tt b
          | throws e b => throws e b
          | undefined => undefined
          | diverges => diverges
          end
        | throws e b => throws e b
        | undefined => undefined
        | diverges => diverges
        end)).

End MoreOperations.

(** *** Statements about the storage *)

(** The storage of [b] is [mem], and it has the size of the capacity. *)
Definition backed (b : t) (mem : list byte) : Prop :=
  m_data b = Some mem /\ Z.of_nat (length mem) = m_capacity b.

(** The buffers nested in [b], the one made last first. *)
Fixpoint nested (b : t) : list t :=
  match m_next_buffer b with
  | Some next => with_next_buffer next None :: nested next
  | None => []
  end.

End Buffer.
(** * Properties *)

(** ** Machine integers *)

Lemma byte_val_range b : 0 <= byte_val b < 256.
Proof.
  unfold byte_val. pose proof (Byte.to_N_bounded b). lia.
Qed.

Lemma uint64_small z : 0 <= z < 2 ^ 64 -> uint64 z = z.
Proof. intros H. unfold uint64. apply Z.mod_small. exact H. Qed.

Lemma uint32_small z : 0 <= z < 2 ^ 32 -> uint32 z = z.
Proof. intros H. unfold uint32. apply Z.mod_small. exact H. Qed.

Lemma int64_small z : - 2 ^ 63 <= z < 2 ^ 63 -> int64 z = z.
Proof. intros H. unfold int64. rewrite Z.mod_small; lia. Qed.


(** ** ReferenceTable *)

Import ReferenceTable.

Lemma table_size_eq : uint64 (entry_size * number_of_entries) = 3840000.
Proof. reflexivity. Qed.

Lemma empty_nil (s : list byte) : empty s = true <-> s = [].
Proof. destruct s; simpl; split; congruence. Qed.

Lemma empty_length (s : list byte) :
  (0 < length s)%nat -> empty s = false.
Proof. destruct s; simpl; [lia | reflexivity]. Qed.

Lemma length_resize n : 0 <= n -> Z.of_nat (length (resize n)) = n.
Proof. intros H. unfold resize. rewrite length_replicate. lia. Qed.

Lemma length_allocated r :
  table_ok r -> Z.of_nat (length (allocated r)) = 3840000.
Proof.
  intros [[Hnil | Hlen] _]; unfold allocated.
  - rewrite Hnil. cbn [empty]. rewrite table_size_eq. apply length_resize. lia.
  - destruct (empty (m_table r)) eqn:E.
    + apply empty_nil in E. rewrite E in Hlen. cbn [length] in Hlen.
      unfold entry_size, number_of_entries in Hlen. lia.
    + rewrite Hlen. reflexivity.
Qed.

Lemma allocated_nonempty r : m_table r <> [] -> allocated r = m_table r.
Proof.
  intros H. unfold allocated. destruct (empty (m_table r)) eqn:E; [|reflexivity].
  apply empty_nil in E. contradiction.
Qed.

Lemma add_table r s n :
  m_table (add r s n) =
  if n <=? max_length
  then copy_n s (Z.to_nat n) (allocated r)
              (Z.to_nat (uint64 (current_entry r * entry_size)))
  else allocated r.
Proof. unfold add, allocated. destruct (n <=? max_length); reflexivity. Qed.

Lemma add_length r s n :
  table_ok r -> Z.of_nat (length (m_table (add r s n))) = 3840000.
Proof.
  intros H. rewrite add_table. destruct (n <=? max_length).
  - unfold copy_n. rewrite length_inserts. apply length_allocated, H.
  - apply length_allocated, H.
Qed.

Lemma add_not_empty r s n : table_ok r -> empty (m_table (add r s n)) = false.
Proof.
  intros H. apply empty_length. pose proof (add_length r s n H). lia.
Qed.

Lemma add_current r s n :
  table_ok r -> n <= max_length ->
  current_entry (add r s n) = (current_entry r + 1) mod number_of_entries.
Proof.
  intros [_ Hc] Hn. unfold add.
  destruct (Z.leb_spec n max_length); [|lia]. cbn [current_entry].
  unfold number_of_entries in *.
  rewrite uint32_small by lia.
  destruct (Z.eqb_spec (current_entry r + 1) 15000) as [E|E].
  - rewrite E. reflexivity.
  - rewrite Z.mod_small; lia.
Qed.

Lemma add_current_long r s n :
  max_length < n -> current_entry (add r s n) = current_entry r.
Proof.
  intros Hn. unfold add. destruct (Z.leb_spec n max_length); [lia|]. reflexivity.
Qed.

Lemma add_table_ok r s n : table_ok r -> table_ok (add r s n).
Proof.
  intros H. split.
  - right. rewrite (add_length r s n H). reflexivity.
  - destruct (Z.le_gt_cases n max_length) as [Hn|Hn].
    + rewrite add_current by assumption.
      apply Z.mod_pos_bound. reflexivity.
    + rewrite add_current_long by assumption. apply H.
Qed.

(** What [add] writes: the slot under the cursor starts with the string. *)
Lemma add_written r s n :
  table_ok r -> 0 <= n <= max_length -> n <= Z.of_nat (length s) ->
  take (Z.to_nat n)
       (drop (Z.to_nat (current_entry r * entry_size)) (m_table (add r s n)))
  = take (Z.to_nat n) s.
Proof.
  intros Hok Hn Hs. pose proof (length_allocated r Hok) as Hlen.
  destruct Hok as [_ Hc]. rewrite add_table.
  destruct (Z.leb_spec n max_length); [|lia].
  unfold max_length, number_of_entries in *.
  unfold copy_n, entry_size. rewrite uint64_small by lia.
  apply list_eq. intros i.
  destruct (decide (i < Z.to_nat n)%nat) as [Hi|Hi].
  - rewrite !lookup_take_lt by assumption. rewrite lookup_drop.
    rewrite list_lookup_inserts.
    + rewrite lookup_take_lt by lia. f_equal. lia.
    + rewrite length_take. lia.
    + lia.
  - rewrite !lookup_take_ge by lia. reflexivity.
Qed.

(** The other slots keep their bytes. *)
Lemma add_other r s n e :
  table_ok r -> 0 <= n -> 0 <= e < number_of_entries -> e <> current_entry r ->
  take (Z.to_nat entry_size)
       (drop (Z.to_nat (e * entry_size)) (m_table (add r s n)))
  = take (Z.to_nat entry_size) (drop (Z.to_nat (e * entry_size)) (allocated r)).
Proof.
  intros Hok Hn He Hne. pose proof (length_allocated r Hok) as Hlen.
  destruct Hok as [_ Hc]. unfold number_of_entries in *.
  rewrite add_table. destruct (Z.leb_spec n max_length); [|reflexivity].
  unfold copy_n, entry_size, max_length in *. rewrite uint64_small by lia.
  apply list_eq. intros i.
  destruct (decide (i < Z.to_nat 256)%nat) as [Hi|Hi].
  - rewrite !lookup_take_lt by assumption. rewrite !lookup_drop.
    destruct (Z.lt_ge_cases e (current_entry r)).
    + apply list_lookup_inserts_lt. lia.
    + apply list_lookup_inserts_ge. rewrite length_take. lia.
  - rewrite !lookup_take_ge by lia. reflexivity.
Qed.

Lemma get_throw r index :
  m_table r = [] \/ index = 0 \/ number_of_entries < index ->
  get r index = Throw (o5m_error "reference to non-existing string in table").
Proof.
  intros H. unfold get.
  destruct (empty (m_table r)) eqn:E; [reflexivity|].
  destruct (Z.eqb_spec index 0); [reflexivity|].
  destruct (Z.gtb_spec index number_of_entries); [reflexivity|].
  destruct H as [H | [H | H]]; [|lia|lia].
  rewrite H in E. discriminate.
Qed.

Lemma get_ok r index :
  0 <= current_entry r < number_of_entries ->
  empty (m_table r) = false -> 1 <= index <= number_of_entries ->
  get r index =
  Ok (drop (Z.to_nat
              ((current_entry r + number_of_entries - index) mod number_of_entries
               * entry_size))
           (m_table r)).
Proof.
  intros Hc E H. unfold get. rewrite E.
  destruct (Z.eqb_spec index 0); [lia|].
  destruct (Z.gtb_spec index number_of_entries); [lia|].
  cbn [orb]. unfold number_of_entries, entry_size in *.
  rewrite (uint64_small (current_entry r + 15000 - index)) by lia.
  rewrite uint64_small; [reflexivity|].
  pose proof (Z.mod_pos_bound (current_entry r + 15000 - index) 15000). lia.
Qed.


Lemma table_ok_init : table_ok init.
Proof. split; [left; reflexivity | unfold number_of_entries; simpl; lia]. Qed.

Lemma table_ok_clear r : table_ok r -> table_ok (clear r).
Proof.
  intros [H _]. split; [exact H | unfold number_of_entries; simpl; lia].
Qed.


Lemma add_all_snoc r l x :
  add_all r (l ++ [x]) = add (add_all r l) x (Z.of_nat (length x)).
Proof. unfold add_all. rewrite foldl_app. reflexivity. Qed.

Lemma add_all_ok r l : table_ok r -> table_ok (add_all r l).
Proof.
  intros H. induction l as [|x l IH] using rev_ind; [exact H|].
  rewrite add_all_snoc. apply add_table_ok, IH.
Qed.

Lemma add_all_current r l :
  table_ok r -> Forall short l ->
  current_entry (add_all r l) =
  (current_entry r + Z.of_nat (length l)) mod number_of_entries.
Proof.
  intros H. induction l as [|x l IH] using rev_ind; intros Hl.
  - destruct H as [_ H]. cbn [add_all foldl length]. rewrite Z.mod_small; lia.
  - apply Forall_app in Hl as [Hl Hx]. apply Forall_inv in Hx.
    rewrite add_all_snoc, add_current; [|apply add_all_ok, H|exact Hx].
    rewrite IH by assumption. rewrite length_app. cbn [length].
    rewrite Zplus_mod_idemp_l. f_equal. lia.
Qed.

Lemma add_all_not_empty r l :
  table_ok r -> l <> [] -> empty (m_table (add_all r l)) = false.
Proof.
  intros H Hl. destruct l as [|x l _] using rev_ind; [contradiction|].
  rewrite add_all_snoc. apply add_not_empty, add_all_ok, H.
Qed.

(** The string of insertion [j] (counted from 0) stays at the start of
    slot [(current + j) mod 15000] until 15000 more have been inserted. *)
Lemma add_all_slots r l j s :
  table_ok r -> Forall short l ->
  l !! j = Some s -> Z.of_nat (length l) - Z.of_nat j <= number_of_entries ->
  take (length s)
       (drop (Z.to_nat ((current_entry r + Z.of_nat j) mod number_of_entries
                        * entry_size))
             (m_table (add_all r l)))
  = s.
Proof.
  intros H. revert j s. induction l as [|x l IH] using rev_ind;
    intros j s Hl Hj Hlen; [discriminate|].
  apply Forall_app in Hl as [Hl Hx]. apply Forall_inv in Hx.
  rewrite length_app in Hlen. cbn [length] in Hlen.
  pose proof (add_all_ok r l H) as Hok.
  pose proof (add_all_current r l H Hl) as Hcur.
  rewrite add_all_snoc.
  destruct (decide (j = length l)) as [->|Hne].
  - rewrite list_lookup_middle in Hj by reflexivity. injection Hj as ->.
    rewrite <- Hcur.
    rewrite <- (Nat2Z.id (length s)) at 1.
    rewrite add_written; [|assumption|unfold short in Hx; lia|lia].
    rewrite Nat2Z.id. apply take_ge. lia.
  - assert (j < length l)%nat as Hlt.
    { apply lookup_lt_Some in Hj. rewrite length_app in Hj. cbn in Hj. lia. }
    rewrite lookup_app_l in Hj by assumption.
    assert (short s) as Hs by (eapply Forall_lookup_1; eassumption).
    unfold short, max_length in Hs.
    set (e := (current_entry r + Z.of_nat j) mod number_of_entries).
    assert (0 <= e < number_of_entries) as He
      by (apply Z.mod_pos_bound; reflexivity).
    assert (e <> current_entry (add_all r l)) as Hdiff.
    { rewrite Hcur. unfold e, number_of_entries in *. intros Heq.
      assert ((Z.of_nat (length l) - Z.of_nat j) mod 15000 = 0) as H0.
      { replace (Z.of_nat (length l) - Z.of_nat j)
          with ((current_entry r + Z.of_nat (length l))
                - (current_entry r + Z.of_nat j)) by lia.
        rewrite Zminus_mod, Heq, Z.sub_diag. reflexivity. }
      rewrite Z.mod_small in H0 by lia. lia. }
    transitivity
      (take (length s)
         (take (Z.to_nat entry_size)
            (drop (Z.to_nat (e * entry_size))
               (m_table (add (add_all r l) x (Z.of_nat (length x))))))).
    { rewrite take_take. f_equal. unfold entry_size. lia. }
    rewrite add_other; [|assumption|lia|assumption|assumption].
    rewrite allocated_nonempty.
    2:{ intros Hnil. assert (l <> []) as Hl0 by (intros ->; cbn in Hlt; lia).
        pose proof (add_all_not_empty r l H Hl0) as E.
        rewrite Hnil in E. discriminate. }
    rewrite take_take.
    replace (length s `min` Z.to_nat entry_size)%nat with (length s)
      by (unfold entry_size; lia).
    apply IH; [assumption|assumption|lia].
Qed.

Lemma add_all_cleared r0 l :
  table_ok r0 -> Forall short l ->
  table_ok (add_all (clear r0) l) /\
  current_entry (add_all (clear r0) l) =
    Z.of_nat (length l) mod number_of_entries /\
  (l <> [] -> empty (m_table (add_all (clear r0) l)) = false).
Proof.
  intros H0 Hl. pose proof (table_ok_clear r0 H0) as Hc.
  split; [apply add_all_ok, Hc | split].
  - rewrite add_all_current by assumption. reflexivity.
  - apply add_all_not_empty, Hc.
Qed.

(** The [k] most recent strings can be fetched. *)
Lemma add_all_get_recent r0 l k :
  table_ok r0 -> Forall short l ->
  1 <= k <= Z.min (Z.of_nat (length l)) number_of_entries ->
  exists s p,
    l !! Z.to_nat (Z.of_nat (length l) - k) = Some s /\
    get (add_all (clear r0) l) k = Ok p /\ take (length s) p = s.
Proof.
  intros H0 Hl Hk.
  destruct (add_all_cleared r0 l H0 Hl) as (Hok & Hcur & Hne).
  pose proof (table_ok_clear r0 H0) as Hc.
  set (N := Z.of_nat (length l)) in *.
  destruct (lookup_lt_is_Some_2 l (Z.to_nat (N - k))) as [s Hs]; [lia|].
  exists s. eexists. split; [exact Hs|]. split.
  - apply get_ok; [apply Hok | apply Hne | lia].
    intros ->. cbn in N. lia.
  - pose proof (add_all_slots _ l _ s Hc Hl Hs) as Hslot.
    change (current_entry (clear r0)) with 0 in Hslot.
    rewrite Z.add_0_l in Hslot. fold N in Hslot.
    rewrite Hcur.
    replace ((N mod number_of_entries + number_of_entries - k)
               mod number_of_entries)
      with (Z.of_nat (Z.to_nat (N - k)) mod number_of_entries).
    { apply Hslot. lia. }
    unfold number_of_entries in *. rewrite Z2Nat.id by lia.
    rewrite <- Z.add_sub_assoc, Zplus_mod_idemp_l.
    replace (N + (15000 - k)) with (N - k + 1 * 15000) by lia.
    symmetry. apply Z_mod_plus_full.
Qed.

(** An index beyond the number of insertions, but inside the table, is
    not rejected. *)
Lemma add_all_get_stale r0 l k :
  table_ok r0 -> Forall short l ->
  1 <= Z.of_nat (length l) -> Z.of_nat (length l) < k <= number_of_entries ->
  exists p, get (add_all (clear r0) l) k = Ok p.
Proof.
  intros H0 Hl HN Hk.
  destruct (add_all_cleared r0 l H0 Hl) as (Hok & Hcur & Hne).
  eexists. apply get_ok; [apply Hok | apply Hne | lia].
  intros ->. cbn in HN. lia.
Qed.




(** ** The header *)

Import O5mParser.

Lemma byte_val_inj a b : byte_val a = byte_val b -> a = b.
Proof.
  unfold byte_val. intros H. apply N2Z.inj in H.
  pose proof (Byte.of_to_N a) as Ha. pose proof (Byte.of_to_N b) as Hb.
  rewrite H in Ha. congruence.
Qed.

Lemma byte_eqb_reflect a b : reflect (a = b) (Byte.eqb a b).
Proof.
  destruct (Byte.eqb a b) eqn:E; constructor.
  - apply Byte.byte_dec_bl, E.
  - apply Byte.eqb_false, E.
Qed.

Lemma ensure_bytes_available_spec st n :
  ensure_bytes_available st n = true <-> n <= Z.of_nat (length (m_data st)).
Proof.
  unfold ensure_bytes_available. rewrite Z.geb_leb. apply Z.leb_le.
Qed.

(** [strncmp] against a string without NUL, inside the second array. *)
Lemma strncmp_prefix s d :
  Forall (fun c => byte_val c <> 0) s -> (length s <= length d)%nat ->
  exists c, strncmp s d (length s) = Ok c /\ (c = 0 <-> take (length s) d = s).
Proof.
  revert d. induction s as [|a s IH]; intros d Hs Hd.
  - exists 0. cbn. split; [reflexivity | split; reflexivity].
  - destruct d as [|b d]; [cbn in Hd; lia|].
    apply Forall_cons in Hs as [Ha Hs]. cbn [length strncmp].
    destruct (Z.eqb_spec (byte_val a) (byte_val b)) as [E|E].
    + apply byte_val_inj in E. subst b.
      destruct (Z.eqb_spec (byte_val a) 0); [contradiction|].
      destruct (IH d Hs) as (c & Hc & Hiff); [cbn in Hd; lia|].
      exists c. split; [exact Hc|]. rewrite Hiff. cbn [take]. split.
      * intros ->. reflexivity.
      * intros H. injection H. auto.
    + eexists. split; [reflexivity|]. split; [lia|].
      cbn [take]. intros H. injection H as H _. subst. contradiction.
Qed.

Lemma header_magic_no_nul : Forall (fun c => byte_val c <> 0) header_magic.
Proof. repeat constructor; discriminate. Qed.

Lemma check_header_magic_ok st rest :
  m_data st = header_magic ++ rest ->
  check_header_magic st = Ok (with_data st rest).
Proof.
  intros H. unfold check_header_magic.
  destruct (strncmp_prefix header_magic (m_data st) header_magic_no_nul)
    as (c & Hc & Hiff).
  { rewrite H, length_app. lia. }
  rewrite Hc. cbn [mbind result_mbind result_bind].
  assert (c = 0) as ->.
  { apply Hiff. rewrite H. apply take_app_length. }
  cbn [Z.eqb negb]. rewrite H, drop_app_length. reflexivity.
Qed.

Lemma check_header_magic_fail st :
  (7 <= length (m_data st))%nat ->
  take 5 (m_data st) <> header_magic ->
  check_header_magic st = Throw (o5m_error "wrong header magic").
Proof.
  intros Hlen H. unfold check_header_magic.
  destruct (strncmp_prefix header_magic (m_data st) header_magic_no_nul)
    as (c & Hc & Hiff).
  { cbn [header_magic length]. lia. }
  rewrite Hc. cbn [mbind result_mbind result_bind].
  destruct (Z.eqb_spec c 0) as [E|E]; [|reflexivity].
  apply Hiff in E. contradiction.
Qed.

Lemma decode_header_ok st v rest :
  m_data st = o5m_header v ++ rest -> v = x6d \/ v = x63 ->
  decode_header st = Ok (after_header st v rest).
Proof.
  intros H Hv. unfold decode_header.
  replace (ensure_bytes_available st 7) with true.
  2:{ symmetry. apply ensure_bytes_available_spec. rewrite H, length_app.
      cbn. lia. }
  cbn [negb]. unfold o5m_header in H. rewrite <- app_assoc in H.
  rewrite (check_header_magic_ok st _ H).
  cbn [mbind result_mbind result_bind].
  destruct Hv as [-> | ->]; reflexivity.
Qed.

Lemma decode_header_fail st :
  (forall v rest, m_data st = o5m_header v ++ rest -> v <> x6d /\ v <> x63) ->
  raises_o5m_error (decode_header st).
Proof.
  intros H. unfold decode_header.
  destruct (ensure_bytes_available st 7) eqn:E; [|eexists; reflexivity].
  cbn [negb]. apply ensure_bytes_available_spec in E.
  destruct (decide (take 5 (m_data st) = header_magic)) as [Hm|Hm].
  2:{ rewrite check_header_magic_fail by (assumption || lia).
      eexists; reflexivity. }
  rewrite <- (take_drop 5 (m_data st)) in H, E. rewrite Hm in H, E.
  rewrite (check_header_magic_ok st (drop 5 (m_data st)))
    by (rewrite <- Hm at 1; symmetry; apply take_drop).
  cbn [mbind result_mbind result_bind].
  rewrite length_app in E.
  destruct (drop 5 (m_data st)) as [|v [|w rest]];
    [cbn in E; lia | cbn in E; lia |].
  specialize (H v).
  unfold check_file_type. cbn [m_data with_data].
  destruct (byte_eqb_reflect v x6d) as [->|Hv1].
  { cbn [mbind result_mbind result_bind].
    unfold check_file_format_version. cbn [m_data with_data with_header].
    destruct (byte_eqb_reflect w x32) as [->|Hw]; [|eexists; reflexivity].
    destruct (H rest eq_refl) as [H1 _]. contradiction. }
  destruct (byte_eqb_reflect v x63) as [->|Hv2]; [|eexists; reflexivity].
  cbn [mbind result_mbind result_bind].
  unfold check_file_format_version. cbn [m_data with_data with_header].
  destruct (byte_eqb_reflect w x32) as [->|Hw]; [|eexists; reflexivity].
  destruct (H rest eq_refl) as [_ H2]. contradiction.
Qed.

Lemma header_dec st :
  (exists v rest, m_data st = o5m_header v ++ rest /\ (v = x6d \/ v = x63)) \/
  (forall v rest, m_data st = o5m_header v ++ rest -> v <> x6d /\ v <> x63).
Proof.
  destruct (decide (take 7 (m_data st) = o5m_header x6d)) as [H1|H1].
  { left. exists x6d, (drop 7 (m_data st)). split; [|left; reflexivity].
    rewrite <- H1. symmetry. apply take_drop. }
  destruct (decide (take 7 (m_data st) = o5m_header x63)) as [H2|H2].
  { left. exists x63, (drop 7 (m_data st)). split; [|right; reflexivity].
    rewrite <- H2. symmetry. apply take_drop. }
  right. intros v rest Hd.
  assert (take 7 (m_data st) = o5m_header v) as Ht.
  { rewrite Hd. apply take_app_length'. reflexivity. }
  split; intros ->; contradiction.
Qed.

(** C2: [decode_header] succeeds exactly when the input starts with
    FF E0 04 'o' '5', then 'm' or 'c', then '2'; every other input, also
    one of fewer than seven bytes, makes it throw an [o5m_error]; after a
    success the seven bytes are consumed and
    [has_multiple_object_versions] is true for 'c' and false for 'm'. *)
Theorem decode_header_spec (st : t) :
  ((exists st', decode_header st = Ok st') <->
   (exists v rest, m_data st = o5m_header v ++ rest /\ (v = x6d \/ v = x63)))
  /\
  (~ (exists v rest, m_data st = o5m_header v ++ rest /\ (v = x6d \/ v = x63))
   -> raises_o5m_error (decode_header st))
  /\
  (forall v rest st',
     m_data st = o5m_header v ++ rest -> decode_header st = Ok st' ->
     m_data st' = rest /\
     (v = x63 -> has_multiple_object_versions (m_header st') = true) /\
     (v = x6d -> has_multiple_object_versions (m_header st') = false)).
Proof.
  assert (~ (exists v rest,
               m_data st = o5m_header v ++ rest /\ (v = x6d \/ v = x63))
          -> raises_o5m_error (decode_header st)) as Hfail.
  { intros Hno. apply decode_header_fail. intros v rest Hd.
    split; intros ->; apply Hno; eexists; eexists;
      (split; [exact Hd | auto]). }
  split; [split|split].
  - intros [st' Hst'].
    destruct (header_dec st) as [Hy|Hn]; [exact Hy|].
    destruct (decode_header_fail st Hn) as [what Hw].
    rewrite Hw in Hst'. discriminate.
  - intros (v & rest & Hd & Hv). eexists. apply decode_header_ok; eassumption.
  - exact Hfail.
  - intros v rest st' Hd Hok.
    destruct (header_dec st) as [(v' & rest' & Hd' & Hv')|Hn].
    + assert (v' = v /\ rest' = rest) as [-> ->].
      { rewrite Hd in Hd'. unfold o5m_header in Hd'.
        rewrite <- !app_assoc in Hd'. apply app_inv_head in Hd'.
        injection Hd' as -> ->. split; reflexivity. }
      rewrite (decode_header_ok st v rest Hd Hv') in Hok. injection Hok as <-.
      split; [reflexivity|]. split; intros ->; reflexivity.
    + destruct (decode_header_fail st Hn) as [what Hw].
      rewrite Hw in Hok. discriminate.
Qed.

(** ** The decoders leave the cursor, the mask and the header alone *)

(** Case analysis on the calls that a successful decoder has made. *)
Ltac break_ok H :=
  repeat (unfold mbind, result_mbind, result_bind in H;
          match type of H with
          | Throw _ = Ok _ => discriminate H
          | Undefined = Ok _ => discriminate H
          | OutOfFuel = Ok _ => discriminate H
          | context [match ?x with _ => _ end] =>
            first [ is_var x; destruct x | destruct x eqn:? ]
          end).

Lemma same_frame_refl st : same_frame st st.
Proof. repeat split. Qed.

Lemma same_frame_trans st1 st2 st3 :
  same_frame st1 st2 -> same_frame st2 st3 -> same_frame st1 st3.
Proof.
  unfold same_frame. intros (?&?&?&?&?) (?&?&?&?&?).
  repeat split; congruence.
Qed.

Lemma decode_info_frame object data st user object' data' st' :
  decode_info object data st = Ok (user, object', data', st') ->
  same_frame st st'.
Proof.
  intros H. unfold decode_info in H. break_ok H;
    injection H as <- <- <- <-; repeat split.
Qed.

Lemma decode_members_frame n after data st members r data' st' :
  decode_members n after data st members = Ok (r, data', st') ->
  same_frame st st'.
Proof.
  revert data st members. induction n as [|n IH]; intros data st members H.
  - cbn [decode_members] in H. break_ok H.
    injection H as <- <- <-. apply same_frame_refl.
  - cbn [decode_members] in H.
    destruct (after <? length data)%nat.
    2:{ injection H as <- <- <-. apply same_frame_refl. }
    break_ok H. apply IH in H.
    eapply same_frame_trans; [|exact H]. repeat split.
Qed.

Lemma decode_node_frame data st n st' :
  decode_node data st = Ok (n, st') -> same_frame st st'.
Proof.
  intros H. unfold decode_node in H. break_ok H;
    match goal with
    | E : decode_info _ _ _ = Ok _ |- _ => apply decode_info_frame in E
    end;
    injection H as <- <-;
    (eapply same_frame_trans; [|eapply same_frame_trans; [eassumption|]]);
    repeat split.
Qed.

Ltac break_all_ok :=
  repeat match goal with
         | H : _ = Ok _ |- _ => progress break_ok H
         end.

Ltac frame_facts :=
  repeat match goal with
         | E : decode_info _ _ _ = Ok _ |- _ => apply decode_info_frame in E
         | E : decode_members _ _ _ _ _ = Ok _ |- _ =>
           apply decode_members_frame in E
         end;
  simplify_eq.

Ltac frame_chain :=
  unfold same_frame in *;
  repeat match goal with
         | E : _ /\ _ |- _ => destruct E
         end;
  cbn in *; repeat split; congruence.

Lemma decode_way_frame data st w st' :
  decode_way data st = Ok (w, st') -> same_frame st st'.
Proof.
  intros H. unfold decode_way in H. break_ok H; break_all_ok;
    frame_facts; frame_chain.
Qed.

Lemma decode_relation_frame data st r st' :
  decode_relation data st = Ok (r, st') -> same_frame st st'.
Proof.
  intros H. unfold decode_relation in H. break_ok H; break_all_ok;
    frame_facts; frame_chain.
Qed.

Lemma mark_header_as_done_frame st :
  m_data (mark_header_as_done st) = m_data st /\
  read_types (mark_header_as_done st) = read_types st /\
  output (mark_header_as_done st) = output st /\
  header_is_done (mark_header_as_done st) = true.
Proof.
  unfold mark_header_as_done. destruct (header_is_done st) eqn:E;
    repeat split; assumption.
Qed.

Lemma decode_payload_frame ds_type payload st st' :
  decode_payload ds_type payload st = Ok st' ->
  m_data st' = m_data st /\ read_types st' = read_types st.
Proof.
  intros H. unfold decode_payload in H.
  destruct (mark_header_as_done_frame st) as (Hd & Hr & _).
  unfold decode_bbox, decode_timestamp in H.
  break_ok H; simplify_eq; try (split; assumption); try (split; reflexivity);
    match goal with
    | E : decode_node _ _ = Ok _ |- _ => apply decode_node_frame in E
    | E : decode_way _ _ = Ok _ |- _ => apply decode_way_frame in E
    | E : decode_relation _ _ = Ok _ |- _ => apply decode_relation_frame in E
    end;
    match goal with
    | E : same_frame _ _ |- _ => destruct E as (E1 & E2 & _)
    end; cbn; split; congruence.
Qed.

(** ** The datasets *)

Lemma decode_payload_other ds_type payload st :
  decoded_type ds_type = false -> decode_payload ds_type payload st = Ok st.
Proof.
  unfold decoded_type, decode_payload. intros H.
  repeat (apply orb_false_elim in H as [H ?]).
  repeat match goal with E : (_ =? _) = false |- _ => rewrite E; clear E end.
  reflexivity.
Qed.

Lemma decode_dataset_marker st c rest :
  m_data st = c :: rest -> byte_val c > dataset_type.jump ->
  decode_dataset st =
  Ok (next_dataset,
      if byte_val c =? dataset_type.reset then reset (with_data st rest)
      else with_data st rest).
Proof.
  intros Hd Hc. unfold decode_dataset. rewrite Hd.
  destruct (Z.gtb_spec (byte_val c) dataset_type.jump); [|lia].
  destruct (byte_val c =? dataset_type.reset); reflexivity.
Qed.

Lemma decode_dataset_length st c rest len payload rest' st1 :
  m_data st = c :: rest -> byte_val c <= dataset_type.jump ->
  decode_varint rest = Ok (len, payload ++ rest') ->
  Z.of_nat (length payload) = len ->
  decode_payload (byte_val c) payload (with_data st (payload ++ rest'))
    = Ok st1 ->
  decode_dataset st =
  if (read_types st =? osm_entity_bits.nothing) && header_is_done st1
  then Ok (break, st1)
  else Ok (next_dataset, with_data st1 rest').
Proof.
  intros Hd Hc Hv Hlen Hp. unfold decode_dataset. rewrite Hd.
  destruct (Z.gtb_spec (byte_val c) dataset_type.jump); [lia|].
  cbn [m_data with_data]. rewrite Hv.
  cbn [mbind result_mbind result_bind].
  replace (ensure_bytes_available _ len) with true.
  2:{ symmetry. apply ensure_bytes_available_spec. cbn [m_data with_data].
      rewrite length_app. lia. }
  cbn [negb m_data with_data].
  replace (Z.to_nat len) with (length payload) by lia.
  rewrite take_app_length.
  replace (with_data (with_data st rest) (payload ++ rest'))
    with (with_data st (payload ++ rest')) by reflexivity.
  rewrite Hp. cbn [mbind result_mbind result_bind].
  destruct (decode_payload_frame _ _ _ _ Hp) as [Hd1 Hr1].
  rewrite Hr1, Hd1. cbn [m_data with_data read_types].
  rewrite drop_app_length. reflexivity.
Qed.

Lemma decode_payload_entity payload st :
  decode_payload dataset_type.node payload st =
    (let st := mark_header_as_done st in
     if Z.land (read_types st) osm_entity_bits.node =? 0 then Ok st
     else '(n, st) ← decode_node payload st; Ok (commit st (a_node n)))
  /\
  decode_payload dataset_type.way payload st =
    (let st := mark_header_as_done st in
     if Z.land (read_types st) osm_entity_bits.way =? 0 then Ok st
     else '(w, st) ← decode_way payload st; Ok (commit st (a_way w)))
  /\
  decode_payload dataset_type.relation payload st =
    (let st := mark_header_as_done st in
     if Z.land (read_types st) osm_entity_bits.relation =? 0 then Ok st
     else '(r, st) ← decode_relation payload st; Ok (commit st (a_relation r))).
Proof.
  unfold decode_payload. cbn [Z.eqb dataset_type.node dataset_type.way
    dataset_type.relation Pos.eqb].
  repeat split;
    match goal with
    | |- context [Z.land ?a ?b =? 0] => destruct (Z.land a b =? 0)
    end; reflexivity.
Qed.




(** ** reset *)

Lemma get_raises_iff r index :
  0 <= current_entry r < number_of_entries ->
  raises (get r index) <->
  m_table r = [] \/ index = 0 \/ number_of_entries < index.
Proof.
  intros Hc. split.
  - intros [e He]. unfold get in He.
    destruct (empty (m_table r)) eqn:E.
    { left. apply empty_nil, E. }
    destruct (Z.eqb_spec index 0); [right; left; assumption|].
    destruct (Z.gtb_spec index number_of_entries); [right; right; assumption|].
    discriminate He.
  - intros H. eexists. apply get_throw, H.
Qed.

Lemma reset_member_ids (l : list DeltaDecode.t) i d :
  (i < 3)%nat ->
  alter DeltaDecode.clear 2%nat
    (alter DeltaDecode.clear 1%nat (alter DeltaDecode.clear 0%nat l)) !! i
  = Some d ->
  DeltaDecode.m_value d = 0.
Proof.
  intros Hi H.
  destruct l as [|a [|b [|c l]]]; destruct i as [|[|[|i]]];
    cbn in H; simplify_eq; reflexivity || lia.
Qed.

(** C5 (amended): the round on a reset dataset (type byte 0xFF) leaves
    every DeltaDecoder at 0 and the cursor of the reference table at 0;
    the string of the table is kept, so the next [get index] throws
    exactly when nothing has been inserted since the parser was created,
    or [index] is 0 or above 15000. *)
Theorem reset_dataset_spec (st : t) (rest : list byte) :
  exists st',
    decode_dataset (with_data st (xff :: rest)) = Ok (next_dataset, st') /\
    m_data st' = rest /\
    DeltaDecode.m_value (m_delta_id st') = 0 /\
    DeltaDecode.m_value (m_delta_timestamp st') = 0 /\
    DeltaDecode.m_value (m_delta_changeset st') = 0 /\
    DeltaDecode.m_value (m_delta_lon st') = 0 /\
    DeltaDecode.m_value (m_delta_lat st') = 0 /\
    DeltaDecode.m_value (m_delta_way_node_id st') = 0 /\
    (forall i d, (i < 3)%nat -> m_delta_member_ids st' !! i = Some d ->
                 DeltaDecode.m_value d = 0) /\
    current_entry (m_reference_table st') = 0 /\
    m_table (m_reference_table st') = m_table (m_reference_table st) /\
    (forall index,
       raises (get (m_reference_table st') index) <->
       m_table (m_reference_table st) = [] \/ index = 0 \/
       number_of_entries < index).
Proof.
  eexists. split.
  { rewrite (decode_dataset_marker (with_data st (xff :: rest)) xff rest)
      by (reflexivity || (vm_compute; reflexivity)).
    reflexivity. }
  cbn -[alter]. repeat split; try reflexivity.
  - intros i d. apply reset_member_ids.
  - apply (get_raises_iff (clear (m_reference_table st)) index).
    cbn. unfold number_of_entries. lia.
  - apply (get_raises_iff (clear (m_reference_table st)) index).
    cbn. unfold number_of_entries. lia.
Qed.

(** Decoding [tagged_node_then_reset], whatever the table holds at the
    start. *)
Lemma run_tagged_node_then_reset table :
  exists st,
    run (with_reference_table
           (init tagged_node_then_reset osm_entity_bits.node) table) = Ok st /\
    m_data st = [] /\
    m_reference_table st = clear (add table [x61; x00; x62; x00] 4).
Proof.
  eexists. split; [|split].
  - lazy -[add]. reflexivity.
  - reflexivity.
  - reflexivity.
Qed.

(** C5 as stated fails: after a node with an inline tag and a reset, the
    next [get 1] throws nothing. *)
Lemma reset_counterexample :
  exists st,
    run (init tagged_node_then_reset osm_entity_bits.node) = Ok st /\
    m_data st = [] /\
    ~ raises (get (m_reference_table st) 1).
Proof.
  destruct (run_tagged_node_then_reset ReferenceTable.init)
    as (st & Hrun & Hd & Ht).
  exists st. split; [exact Hrun|]. split; [exact Hd|].
  rewrite Ht. rewrite get_raises_iff by (cbn; unfold number_of_entries; lia).
  intros [H | [H | H]].
  - pose proof (add_not_empty ReferenceTable.init [x61; x00; x62; x00] 4
                  table_ok_init) as E.
    change (m_table (clear ?r)) with (m_table r) in H.
    rewrite H in E. discriminate E.
  - discriminate H.
  - unfold number_of_entries in H. lia.
Qed.

(** ** Nodes *)

Lemma decode_info_object object data st user object' data' st' :
  decode_info object data st = Ok (user, object', data', st') ->
  obj_id object' = obj_id object /\ obj_visible object' = obj_visible object /\
  obj_tags object' = obj_tags object.
Proof.
  intros H. unfold decode_info in H. break_ok H; simplify_eq;
    repeat split.
Qed.

Lemma decode_node_deleted data st z data1 user object st2 :
  zvarint data = Ok (z, data1) ->
  decode_info (set_id new_object (DeltaDecode.update (m_delta_id st) z).1)
              data1 (with_delta_id st (DeltaDecode.update (m_delta_id st) z).2)
    = Ok (user, object, [], st2) ->
  decode_node data st =
  Ok ({| node_object := set_visible (set_user object user) false;
         node_location := Location_default |}, st2).
Proof.
  intros Hz Hi. unfold decode_node. rewrite Hz.
  cbn [mbind result_mbind result_bind].
  destruct (DeltaDecode.update (m_delta_id st) z) as [id d].
  cbn [fst snd] in Hi. rewrite Hi. reflexivity.
Qed.

Lemma decode_node_located data st z data1 user object c data2 st2
      zlon data3 zlat data4 :
  zvarint data = Ok (z, data1) ->
  decode_info (set_id new_object (DeltaDecode.update (m_delta_id st) z).1)
              data1 (with_delta_id st (DeltaDecode.update (m_delta_id st) z).2)
    = Ok (user, object, c :: data2, st2) ->
  zvarint (c :: data2) = Ok (zlon, data3) ->
  zvarint data3 = Ok (zlat, data4) ->
  let lon := DeltaDecode.update (m_delta_lon st2) zlon in
  let lat := DeltaDecode.update (m_delta_lat st2) zlat in
  let st4 := with_delta_lat (with_delta_lon st2 lon.2) lat.2 in
  decode_node data st =
  match data4 with
  | [] =>
    Ok ({| node_object := set_user object user;
           node_location := Location_of lon.1 lat.1 |}, st4)
  | _ :: _ =>
    '(tags, table) ← decode_tags data4 (m_reference_table st2);
    Ok ({| node_object := set_tags (set_user object user) tags;
           node_location := Location_of lon.1 lat.1 |},
        with_reference_table st4 table)
  end.
Proof.
  intros Hz Hi Hlon Hlat. unfold decode_node. rewrite Hz.
  cbn [mbind result_mbind result_bind].
  destruct (DeltaDecode.update (m_delta_id st) z) as [id d].
  cbn [fst snd] in Hi. rewrite Hi.
  cbn [mbind result_mbind result_bind]. rewrite Hlon.
  cbn [mbind result_mbind result_bind]. cbn [m_delta_lat with_delta_lon].
  rewrite Hlat. reflexivity.
Qed.



(** ** The loops of the parser end *)

Lemma terminates_bind {A B} (m : result A) (k : A -> result B) :
  terminates m -> (forall a, m = Ok a -> terminates (k a)) ->
  terminates (m ≫= k).
Proof.
  unfold terminates. intros Hm Hk.
  destruct m; cbn; [apply Hk; reflexivity | discriminate | discriminate |].
  contradiction.
Qed.

Lemma decode_varint_impl_terminates n shift val data :
  terminates (decode_varint_impl n shift val data).
Proof.
  revert shift val data. induction n as [|n IH]; intros shift val data;
    cbn [decode_varint_impl]; [discriminate|].
  destruct data as [|b data]; [discriminate|].
  destruct (byte_val b <? 128); [discriminate | apply IH].
Qed.

Lemma decode_varint_impl_shorter n shift val data v data' :
  decode_varint_impl n shift val data = Ok (v, data') ->
  (length data' < length data)%nat.
Proof.
  revert shift val data. induction n as [|n IH]; intros shift val data H;
    cbn [decode_varint_impl] in H; [discriminate|].
  destruct data as [|b data]; [discriminate|].
  destruct (byte_val b <? 128).
  - injection H as <- <-. cbn. lia.
  - apply IH in H. cbn. lia.
Qed.

Lemma decode_varint_terminates data : terminates (decode_varint data).
Proof. apply decode_varint_impl_terminates. Qed.

Lemma decode_varint_shorter data v data' :
  decode_varint data = Ok (v, data') -> (length data' < length data)%nat.
Proof. apply decode_varint_impl_shorter. Qed.

Lemma zvarint_terminates data : terminates (zvarint data).
Proof.
  unfold zvarint. apply terminates_bind; [apply decode_varint_terminates|].
  intros [n d] _. discriminate.
Qed.

Lemma zvarint_shorter data v data' :
  zvarint data = Ok (v, data') -> (length data' < length data)%nat.
Proof.
  unfold zvarint. intros H.
  destruct (decode_varint data) as [[n d]| | |] eqn:E; try discriminate H.
  cbn in H. injection H as <- <-. apply (decode_varint_shorter _ _ _ E).
Qed.

Lemma get_terminates r index : terminates (get r index).
Proof.
  unfold get.
  destruct (empty (m_table r) || (index =? 0) || (index >? number_of_entries));
    discriminate.
Qed.

Lemma scan_while_terminates tbl what data :
  terminates (scan_while tbl what data).
Proof.
  induction data as [|c data IH]; cbn [scan_while]; [discriminate|].
  destruct (Byte.eqb c x00); [discriminate|].
  destruct (negb tbl && empty data); [discriminate | exact IH].
Qed.

Lemma scan_while_shorter tbl what data data' :
  scan_while tbl what data = Ok data' -> (length data' < length data)%nat.
Proof.
  induction data as [|c data IH]; cbn [scan_while]; [discriminate|].
  destruct (Byte.eqb c x00).
  - intros H. injection H as <-. cbn. lia.
  - destruct (negb tbl && empty data); [discriminate|].
    intros H. apply IH in H. cbn. lia.
Qed.

Lemma scan_do_while_terminates tbl what data :
  terminates (scan_do_while tbl what data).
Proof.
  induction data as [|c data IH]; cbn [scan_do_while].
  - destruct tbl; discriminate.
  - destruct (Byte.eqb c x00); [discriminate | exact IH].
Qed.

Lemma scan_do_while_shorter tbl what data data' :
  scan_do_while tbl what data = Ok data' -> (length data' < length data)%nat.
Proof.
  induction data as [|c data IH]; cbn [scan_do_while].
  - destruct tbl; discriminate.
  - destruct (Byte.eqb c x00).
    + intros H. injection H as <-. cbn. lia.
    + intros H. apply IH in H. cbn. lia.
Qed.

Lemma decode_string_terminates data table :
  terminates (decode_string data table).
Proof.
  unfold decode_string. destruct data as [|c data]; [discriminate|].
  destruct (Byte.eqb c x00).
  - destruct (empty data); discriminate.
  - apply terminates_bind; [apply decode_varint_terminates|].
    intros [index d] _. apply terminates_bind; [apply get_terminates|].
    intros s _. discriminate.
Qed.

(** An inline string starts right after the zero byte; a reference
    leaves the cursor after its index. *)
Lemma decode_string_ok c data table start dataptr :
  decode_string (c :: data) table = Ok (start, dataptr) ->
  (length dataptr < length (c :: data))%nat /\
  in_table start = negb (Byte.eqb c x00) /\
  (Byte.eqb c x00 = true -> bytes start = data /\ dataptr = data).
Proof.
  unfold decode_string. destruct (Byte.eqb c x00).
  - destruct (empty data); [discriminate|].
    intros H. injection H as <- <-. cbn. repeat split. lia.
  - intros H.
    destruct (decode_varint (c :: data)) as [[index d]| | |] eqn:E;
      try discriminate H.
    cbn in H. destruct (get table index); try discriminate H.
    cbn in H. injection H as <- <-.
    apply decode_varint_shorter in E.
    split; [exact E|]. split; [reflexivity|discriminate].
Qed.

Lemma decode_varint_at_terminates p : terminates (decode_varint_at p).
Proof.
  unfold decode_varint_at.
  pose proof (decode_varint_terminates (bytes p)) as H.
  destruct (decode_varint (bytes p)) as [[v d]|e| |];
    [discriminate| |discriminate|contradiction].
  destruct e; try discriminate. destruct (in_table p); discriminate.
Qed.

Lemma decode_varint_at_ok p v p' :
  decode_varint_at p = Ok (v, p') ->
  in_table p' = in_table p /\ (length (bytes p') < length (bytes p))%nat.
Proof.
  unfold decode_varint_at. intros H.
  destruct (decode_varint (bytes p)) as [[v0 d]|e| |] eqn:E;
    try discriminate H.
  - injection H as <- <-. split; [reflexivity|].
    apply (decode_varint_shorter _ _ _ E).
  - destruct e; try discriminate H. destruct (in_table p); discriminate H.
Qed.

Lemma decode_user_terminates data table : terminates (decode_user data table).
Proof.
  unfold decode_user. destruct data as [|c data]; [discriminate|].
  apply terminates_bind; [apply decode_string_terminates|].
  intros [start dataptr] _.
  apply terminates_bind; [apply decode_varint_at_terminates|].
  intros [uid p] _.
  destruct (uid >? user_id_type_max); [discriminate|].
  destruct (at_end p); [discriminate|].
  destruct (bytes p) as [|b user]; [discriminate|].
  destruct ((uid =? 0) && Byte.eqb c x00); [discriminate|].
  apply terminates_bind; [apply scan_do_while_terminates|].
  intros d _. destruct (Byte.eqb c x00); discriminate.
Qed.

Lemma decode_tags_loop_terminates n data table tags :
  (length data <= n)%nat -> terminates (decode_tags_loop n data table tags).
Proof.
  revert data table tags. induction n as [|n IH]; intros data table tags Hn;
    destruct data as [|c data]; cbn [decode_tags_loop]; try discriminate.
  { cbn in Hn. lia. }
  apply terminates_bind; [apply decode_string_terminates|].
  intros [start dataptr] Hs. apply decode_string_ok in Hs as (Hlt & _ & Hin).
  apply terminates_bind; [apply scan_while_terminates|].
  intros value Hv. apply scan_while_shorter in Hv.
  destruct (negb (in_table start) && empty value); [discriminate|].
  apply terminates_bind; [apply scan_while_terminates|].
  intros data' Hd. apply scan_while_shorter in Hd.
  destruct (Byte.eqb c x00).
  - destruct (Hin eq_refl) as [Hb _]. rewrite Hb in Hv.
    apply IH. cbn in Hn. lia.
  - apply IH. cbn in Hn, Hlt. lia.
Qed.

Lemma decode_tags_terminates data table : terminates (decode_tags data table).
Proof. apply decode_tags_loop_terminates. reflexivity. Qed.

Lemma decode_info_terminates object data st :
  terminates (decode_info object data st).
Proof.
  unfold decode_info. destruct data as [|c data]; [discriminate|].
  destruct (Byte.eqb c x00); [discriminate|].
  apply terminates_bind; [apply decode_varint_terminates|].
  intros [version d1] _.
  destruct (version >? object_version_type_max); [discriminate|].
  apply terminates_bind; [apply zvarint_terminates|].
  intros [z d2] _.
  destruct (DeltaDecode.update (m_delta_timestamp st) z) as [timestamp d].
  destruct (negb (timestamp =? 0)); [|discriminate].
  apply terminates_bind; [apply zvarint_terminates|].
  intros [z' d3] _.
  destruct (DeltaDecode.update _ z') as [changeset d'].
  destruct d3; [discriminate|].
  apply terminates_bind; [apply decode_user_terminates|].
  intros [[[uid user] d4] table] _. discriminate.
Qed.

Lemma decode_node_terminates data st : terminates (decode_node data st).
Proof.
  unfold decode_node.
  apply terminates_bind; [apply zvarint_terminates|]. intros [z d1] _.
  destruct (DeltaDecode.update (m_delta_id st) z) as [id d].
  apply terminates_bind; [apply decode_info_terminates|].
  intros [[[user object] d2] st2] _.
  destruct d2; [discriminate|].
  apply terminates_bind; [apply zvarint_terminates|]. intros [zlon d3] _.
  destruct (DeltaDecode.update (m_delta_lon st2) zlon) as [lon dlon].
  apply terminates_bind; [apply zvarint_terminates|]. intros [zlat d4] _.
  destruct (DeltaDecode.update _ zlat) as [lat dlat].
  destruct d4; [discriminate|].
  apply terminates_bind; [apply decode_tags_terminates|].
  intros [tags table] _. discriminate.
Qed.

Lemma decode_way_nodes_terminates n after data d refs :
  (length data <= n)%nat ->
  terminates (decode_way_nodes n after data d refs).
Proof.
  revert data d refs. induction n as [|n IH]; intros data d refs Hn;
    cbn [decode_way_nodes].
  - destruct (Nat.ltb_spec after (length data)); [lia | discriminate].
  - destruct (after <? length data)%nat; [|discriminate].
    apply terminates_bind; [apply zvarint_terminates|].
    intros [z data'] Hz. apply zvarint_shorter in Hz.
    destruct (DeltaDecode.update d z) as [ref d'].
    apply IH. lia.
Qed.

Lemma decode_way_terminates data st : terminates (decode_way data st).
Proof.
  unfold decode_way.
  apply terminates_bind; [apply zvarint_terminates|]. intros [z d1] _.
  destruct (DeltaDecode.update (m_delta_id st) z) as [id d].
  apply terminates_bind; [apply decode_info_terminates|].
  intros [[[user object] d2] st2] _.
  destruct d2 as [|b d2]; [discriminate|].
  apply terminates_bind; [apply decode_varint_terminates|]. intros [len d3] _.
  apply terminates_bind.
  - destruct (len >? 0); [|discriminate].
    destruct (len >? Z.of_nat (length d3)); [discriminate|].
    apply terminates_bind; [apply decode_way_nodes_terminates; lia|].
    intros [[refs d4] dd] _. discriminate.
  - intros [[refs d4] st3] _. destruct d4; [discriminate|].
    apply terminates_bind; [apply decode_tags_terminates|].
    intros [tags table] _. discriminate.
Qed.

Lemma decode_role_terminates data table : terminates (decode_role data table).
Proof.
  unfold decode_role. destruct data as [|c data]; [discriminate|].
  apply terminates_bind; [apply decode_string_terminates|].
  intros [start dataptr] _.
  destruct (bytes start) as [|b role]; [discriminate|].
  apply terminates_bind.
  { unfold decode_member_type.
    destruct ((byte_val b <? byte_val x30) || (byte_val b >? byte_val x32));
      discriminate. }
  intros member_type _.
  destruct (negb (in_table start) && empty role); [discriminate|].
  apply terminates_bind; [apply scan_while_terminates|].
  intros d _. destruct (Byte.eqb c x00); discriminate.
Qed.

Lemma decode_role_shorter data table ty role data' table' :
  decode_role data table = Ok (ty, role, data', table') ->
  (length data' < length data)%nat.
Proof.
  unfold decode_role. destruct data as [|c data]; [discriminate|].
  intros H.
  destruct (decode_string (c :: data) table) as [[start dataptr]| | |] eqn:Hs;
    try discriminate H.
  apply decode_string_ok in Hs as (Hlt & _ & Hin).
  cbn [mbind result_mbind result_bind] in H.
  destruct (bytes start) as [|b r] eqn:Hb; [discriminate|].
  destruct (decode_member_type b); try discriminate H.
  cbn [mbind result_mbind result_bind] in H.
  destruct (negb (in_table start) && empty r); [discriminate|].
  destruct (scan_while (in_table start) "no null byte in role" r)
    as [d| | |] eqn:Hscan; try discriminate H.
  cbn [mbind result_mbind result_bind] in H.
  apply scan_while_shorter in Hscan.
  destruct (Byte.eqb c x00).
  - injection H as _ _ <- _. destruct (Hin eq_refl) as [Hd _].
    rewrite <- Hd. cbn in *. lia.
  - injection H as _ _ <- _. exact Hlt.
Qed.

Lemma decode_members_terminates n after data st members :
  (length data <= n)%nat ->
  terminates (decode_members n after data st members).
Proof.
  revert data st members. induction n as [|n IH]; intros data st members Hn;
    cbn [decode_members].
  - destruct (Nat.ltb_spec after (length data)); [lia | discriminate].
  - destruct (after <? length data)%nat; [|discriminate].
    apply terminates_bind; [apply zvarint_terminates|].
    intros [z data'] Hz. apply zvarint_shorter in Hz.
    destruct data' as [|b data']; [discriminate|].
    apply terminates_bind; [apply decode_role_terminates|].
    intros [[[ty role] data''] table] Hr. apply decode_role_shorter in Hr.
    destruct (_ !! _); [|discriminate].
    destruct (DeltaDecode.update _ z) as [ref d'].
    apply IH. lia.
Qed.

Lemma decode_relation_terminates data st : terminates (decode_relation data st).
Proof.
  unfold decode_relation.
  apply terminates_bind; [apply zvarint_terminates|]. intros [z d1] _.
  destruct (DeltaDecode.update (m_delta_id st) z) as [id d].
  apply terminates_bind; [apply decode_info_terminates|].
  intros [[[user object] d2] st2] _.
  destruct d2 as [|b d2]; [discriminate|].
  apply terminates_bind; [apply decode_varint_terminates|]. intros [len d3] _.
  apply terminates_bind.
  - destruct (len >? 0); [|discriminate].
    destruct (len >? Z.of_nat (length d3)); [discriminate|].
    apply decode_members_terminates. lia.
  - intros [[members d4] st3] _. destruct d4; [discriminate|].
    apply terminates_bind; [apply decode_tags_terminates|].
    intros [tags table] _. discriminate.
Qed.

Lemma decode_payload_terminates ds_type payload st :
  terminates (decode_payload ds_type payload st).
Proof.
  unfold decode_payload.
  repeat match goal with
         | |- terminates (if ?b then _ else _) => destruct b
         | |- terminates (Ok _) => discriminate
         | |- terminates (_ ≫= _) => apply terminates_bind
         | |- terminates (decode_node _ _) => apply decode_node_terminates
         | |- terminates (decode_way _ _) => apply decode_way_terminates
         | |- terminates (decode_relation _ _) =>
           apply decode_relation_terminates
         | |- forall _, _ => intros [? ?] _
         end.
  - unfold decode_bbox.
    repeat (apply terminates_bind; [apply zvarint_terminates|]; intros [? ?] _).
    discriminate.
  - unfold decode_timestamp.
    apply terminates_bind; [apply zvarint_terminates|]; intros [? ?] _.
    discriminate.
Qed.

Lemma decode_dataset_terminates st : terminates (decode_dataset st).
Proof.
  unfold decode_dataset. destruct (m_data st) as [|c rest]; [discriminate|].
  destruct (byte_val c >? dataset_type.jump).
  { destruct (byte_val c =? dataset_type.reset); discriminate. }
  apply terminates_bind.
  { pose proof (decode_varint_terminates (m_data (with_data st rest))) as H.
    destruct (decode_varint _) as [?|e| |];
      [discriminate| |discriminate|contradiction].
    destruct e; discriminate. }
  intros [len rest'] _.
  destruct (negb _); [discriminate|].
  apply terminates_bind; [apply decode_payload_terminates|].
  intros st1 _. destruct (_ && _); discriminate.
Qed.

(** A round that goes on has consumed at least the type byte. *)
Lemma decode_dataset_shorter st st' :
  decode_dataset st = Ok (next_dataset, st') ->
  (length (m_data st') < length (m_data st))%nat.
Proof.
  unfold decode_dataset. destruct (m_data st) as [|c rest] eqn:Hd;
    [discriminate|].
  destruct (byte_val c >? dataset_type.jump).
  { destruct (byte_val c =? dataset_type.reset); intros H;
      injection H as <-; cbn; lia. }
  cbn [m_data with_data]. intros H.
  destruct (decode_varint rest) as [[len rest']|e| |] eqn:Hv;
    try discriminate H.
  2:{ destruct e; discriminate H. }
  cbn [mbind result_mbind result_bind] in H.
  destruct (negb _); [discriminate|].
  cbn [m_data with_data] in H.
  destruct (decode_payload _ _ _) as [st1| | |] eqn:Hp; try discriminate H.
  cbn [mbind result_mbind result_bind] in H.
  apply decode_payload_frame in Hp as [Hd1 _]. cbn [m_data with_data] in Hd1.
  apply decode_varint_shorter in Hv.
  destruct (_ && _); [discriminate|]. injection H as <-.
  cbn [m_data with_data]. rewrite Hd1, length_drop. cbn. lia.
Qed.

Lemma decode_data_loop_terminates n st :
  (length (m_data st) <= n)%nat -> terminates (decode_data_loop n st).
Proof.
  revert st. induction n as [|n IH]; intros st Hn; cbn [decode_data_loop].
  - destruct (ensure_bytes_available st 1) eqn:E; [|discriminate].
    apply ensure_bytes_available_spec in E. lia.
  - destruct (ensure_bytes_available st 1); [|discriminate].
    apply terminates_bind; [apply decode_dataset_terminates|].
    intros [[|] st'] H; [|discriminate].
    apply decode_dataset_shorter in H. apply IH. lia.
Qed.

Lemma strncmp_terminates s1 s2 n : terminates (strncmp s1 s2 n).
Proof.
  revert s1 s2. induction n as [|n IH]; intros s1 s2; cbn [strncmp];
    [discriminate|].
  destruct s1 as [|c1 s1]; [cbn; discriminate|].
  destruct s2 as [|c2 s2]; [cbn; discriminate|].
  destruct (byte_val c1 =? byte_val c2); [|discriminate].
  destruct (byte_val c1 =? 0); [discriminate | apply IH].
Qed.

(** Decoding a stream ends: with the parser after the last dataset, with
    an exception, or in undefined behaviour. *)
Lemma run_terminates st : terminates (run st).
Proof.
  unfold run. apply terminates_bind.
  - unfold decode_header. destruct (negb _); [discriminate|].
    apply terminates_bind.
    { unfold check_header_magic.
      apply terminates_bind; [apply strncmp_terminates|].
      intros c _. destruct (negb _); discriminate. }
    intros st1 _. apply terminates_bind.
    { unfold check_file_type. destruct (m_data st1); [discriminate|].
      repeat (destruct (Byte.eqb _ _); [discriminate|]). discriminate. }
    intros st2 _. unfold check_file_format_version.
    destruct (m_data st2); [discriminate|]. destruct (negb _); discriminate.
  - intros st1 _. unfold decode_data. apply terminates_bind.
    + apply decode_data_loop_terminates. reflexivity.
    + intros st2 _. discriminate.
Qed.

(** ** Buffer: capacities *)

Import Buffer.

Lemma padded_length_div n : padded_length n = 8 * (uint64 (n + 7) / 8).
Proof.
  unfold padded_length, align_bytes.
  replace (n + 8 - 1) with (n + 7) by lia.
  set (x := uint64 (n + 7)).
  assert (0 <= x < 2 ^ 64) as Hx by (apply Z.mod_pos_bound; reflexivity).
  assert (uint64 (Z.lnot (8 - 1)) = Z.land (Z.lnot 7) (Z.ones 64)) as ->.
  { unfold uint64. rewrite Z.land_ones by lia. reflexivity. }
  rewrite (Z.land_comm (Z.lnot 7)), Z.land_assoc.
  rewrite (Z.land_ones x) by lia.
  rewrite Z.mod_small by lia.
  rewrite <- Z.ldiff_land.
  change (Z.ldiff x 7) with (Z.ldiff x (Z.ones 3)).
  rewrite Z.ldiff_ones_r by lia.
  rewrite Z.shiftr_div_pow2, Z.shiftl_mul_pow2 by lia.
  change (2 ^ 3) with 8. lia.
Qed.

Lemma padded_length_eq n :
  0 <= n -> n + 7 < 2 ^ 64 -> padded_length n = 8 * ((n + 7) / 8).
Proof.
  intros H0 H1. rewrite padded_length_div, uint64_small by lia. reflexivity.
Qed.

Lemma padded_length_aligned n :
  0 <= n -> n + 7 < 2 ^ 64 -> n mod 8 = 0 -> padded_length n = n.
Proof.
  intros H0 H1 H8. rewrite padded_length_eq by assumption.
  pose proof (Z.div_mod n 8). pose proof (Z.div_mod (n + 7) 8).
  pose proof (Z.mod_pos_bound (n + 7) 8). lia.
Qed.

Lemma padded_length_bounds n :
  0 <= n -> n + 7 < 2 ^ 64 ->
  n <= padded_length n < n + 8 /\ padded_length n mod 8 = 0.
Proof.
  intros H0 H1. rewrite padded_length_eq by assumption.
  pose proof (Z.div_mod (n + 7) 8). pose proof (Z.mod_pos_bound (n + 7) 8).
  split; [lia|]. rewrite Z.mul_comm. apply Z_mod_mult.
Qed.

Lemma calculate_capacity_aligned n :
  0 <= n -> n + 7 < 2 ^ 64 -> n mod 8 = 0 ->
  calculate_capacity n = Z.max 64 n.
Proof.
  intros H0 H1 H8. unfold calculate_capacity, min_capacity.
  destruct (Z.ltb_spec n 64); [lia|].
  rewrite padded_length_aligned by assumption. lia.
Qed.

Lemma calculate_capacity_bounds n :
  0 <= n -> n + 7 < 2 ^ 64 ->
  n <= calculate_capacity n /\ 64 <= calculate_capacity n < 2 ^ 64 /\
  calculate_capacity n mod 8 = 0.
Proof.
  intros H0 H1. unfold calculate_capacity, min_capacity.
  destruct (Z.ltb_spec n 64).
  - split; [lia|]. split; [lia|reflexivity].
  - pose proof (padded_length_bounds n H0 H1). lia.
Qed.

(** Without wrap-around the doubling loop ends at the first capacity
    [c * 2 ^ j] that is large enough. *)
Lemma double_capacity_spec n need c :
  0 < c -> need <= 2 ^ 63 -> need <= c * 2 ^ Z.of_nat n ->
  exists j,
    0 <= j <= Z.of_nat n /\
    double_capacity n need c = Some (c * 2 ^ j) /\
    need <= c * 2 ^ j /\ (0 < j -> c * 2 ^ (j - 1) < need).
Proof.
  revert c. induction n as [|n IH]; intros c Hc Hneed Hn.
  - exists 0. cbn [double_capacity]. cbn in Hn.
    destruct (Z.gtb_spec need c); [lia|].
    rewrite Z.mul_1_r. repeat split; lia.
  - cbn [double_capacity]. destruct (Z.gtb_spec need c) as [Hgt|Hle].
    + assert (uint64 (c * 2) = c * 2) as -> by (apply uint64_small; lia).
      destruct (IH (c * 2)) as (j & Hj & Hd & Hup & Hlow); [lia|lia| |].
      { rewrite Nat2Z.inj_succ, Z.pow_succ_r in Hn by lia. lia. }
      exists (j + 1). rewrite Z.pow_add_r by lia.
      replace (c * (2 ^ j * 2 ^ 1)) with (c * 2 * 2 ^ j) by lia.
      split; [lia|]. split; [exact Hd|]. split; [exact Hup|].
      intros _. replace (j + 1 - 1) with j by lia.
      destruct (Z.eq_dec j 0) as [->|Hj0]; [lia|].
      specialize (Hlow ltac:(lia)).
      replace j with (j - 1 + 1) at 1 by lia.
      rewrite Z.pow_add_r by lia. lia.
    + exists 0. rewrite Z.mul_1_r. repeat split; lia.
Qed.

(** ** Buffer: the storage *)

Lemma list_inserts_splice {A} (i : nat) (k l : list A) :
  (i + length k <= length l)%nat ->
  list_inserts i k l = take i l ++ k ++ drop (i + length k) l.
Proof.
  intros H. apply list_eq. intros j.
  destruct (decide (j < i)%nat) as [Hlt|Hge].
  - rewrite list_lookup_inserts_lt by assumption.
    rewrite lookup_app_l by (rewrite length_take; lia).
    rewrite lookup_take_lt by assumption. reflexivity.
  - rewrite lookup_app_r by (rewrite length_take; lia).
    rewrite length_take. replace (i `min` length l)%nat with i by lia.
    destruct (decide (j < i + length k)%nat) as [Hin|Hout].
    + rewrite list_lookup_inserts by lia.
      rewrite lookup_app_l by lia. reflexivity.
    + rewrite list_lookup_inserts_ge by lia.
      rewrite lookup_app_r by lia. rewrite lookup_drop. f_equal. lia.
Qed.

Lemma copy_n_splice src n dst off :
  0 <= n -> 0 <= off -> n <= Z.of_nat (length src) ->
  off + n <= Z.of_nat (length dst) ->
  copy_n src n dst off =
  take (Z.to_nat off) dst ++ take (Z.to_nat n) src
       ++ drop (Z.to_nat (off + n)) dst.
Proof.
  intros Hn Hoff Hsrc Hdst. unfold copy_n.
  rewrite list_inserts_splice by (rewrite length_take; lia).
  rewrite length_take. do 3 f_equal. lia.
Qed.

Lemma length_copy_n src n dst off :
  length (copy_n src n dst off) = length dst.
Proof. unfold copy_n. apply length_inserts. Qed.

Lemma length_new_array n : 0 <= n -> Z.of_nat (length (new_array n)) = n.
Proof. intros H. unfold new_array. rewrite length_replicate. lia. Qed.

Lemma assert_true {A} NDEBUG (k : outcome A) : assert NDEBUG true k = k.
Proof. unfold assert. rewrite orb_true_r. reflexivity. Qed.

(** ** Buffer: growing in place *)

Lemma grow_larger NDEBUG b mem size :
  m_data b = Some mem -> m_memory b = true ->
  0 <= m_capacity b -> Z.of_nat (length mem) = m_capacity b ->
  m_capacity b < calculate_capacity size ->
  exists mem',
    grow NDEBUG size b =
      returns tt (with_storage b true (Some mem') (calculate_capacity size)) /\
    take (length mem) mem' = mem /\
    Z.of_nat (length mem') = calculate_capacity size.
Proof.
  intros Hd Hm Hc Hlen Hlt. unfold grow, to_bool. rewrite Hd, assert_true, Hm.
  cbn [negb]. destruct (Z.ltb_spec (m_capacity b) (calculate_capacity size));
    [|lia].
  eexists. split; [reflexivity|].
  rewrite length_copy_n, length_new_array by lia. split; [|reflexivity].
  rewrite copy_n_splice;
    [|lia|lia|lia|rewrite length_new_array by lia; lia].
  change (Z.to_nat 0) with 0%nat. rewrite take_0. cbn [app].
  rewrite <- Hlen, Nat2Z.id. rewrite (take_ge mem) by lia.
  apply take_app_length.
Qed.

(** What [reserve_space] does when the request does not fit, the buffer
    owns its storage and grows in place. *)
Lemma reserve_space_grows NDEBUG b mem n :
  m_data b = Some mem -> m_memory b = true -> m_auto_grow b = yes ->
  0 < m_capacity b -> m_capacity b mod 8 = 0 ->
  Z.of_nat (length mem) = m_capacity b ->
  0 <= m_written b -> 0 <= n ->
  m_capacity b < m_written b + n <= 2 ^ 63 ->
  exists k mem',
    1 <= k /\
    m_written b + n <= m_capacity b * 2 ^ k /\
    m_capacity b * 2 ^ (k - 1) < m_written b + n /\
    reserve_space NDEBUG n b =
      returns (m_written b)
        (with_written
           (with_storage b true (Some mem')
              (Z.max 64 (m_capacity b * 2 ^ k)))
           (m_written b + n)) /\
    take (length mem) mem' = mem /\
    Z.of_nat (length mem') = Z.max 64 (m_capacity b * 2 ^ k).
Proof.
  intros Hd Hm Hg Hc H8 Hlen Hw Hn Hneed.
  destruct (double_capacity_spec 64 (m_written b + n) (m_capacity b * 2))
    as (j & Hj & Hdc & Hup & Hlow); [lia|lia| |].
  { change (2 ^ Z.of_nat 64) with (2 ^ 64). lia. }
  assert (0 < 2 ^ j) as Hpos by (apply Z.pow_pos_nonneg; lia).
  assert (2 ^ (j + 1) = 2 * 2 ^ j) as Hp1
    by (rewrite Z.pow_add_r by lia; lia).
  assert (0 < j -> 2 ^ j = 2 * 2 ^ (j - 1)) as Hp2.
  { intros H. replace j with (j - 1 + 1) at 1 by lia.
    rewrite Z.pow_add_r by lia. lia. }
  replace (j + 1 - 1) with j in * by lia.
  set (nc := m_capacity b * 2 * 2 ^ j) in *.
  assert (nc = m_capacity b * 2 ^ (j + 1)) as Hnc_eq by (unfold nc; lia).
  assert (m_capacity b * 2 ^ j < m_written b + n) as Hlow'.
  { destruct (Z.eq_dec j 0) as [->|Hj0]; [cbn; lia|].
    specialize (Hlow ltac:(lia)). rewrite (Hp2 ltac:(lia)). lia. }
  assert (0 <= nc < 2 ^ 64) as Hnc by (unfold nc; lia).
  assert (nc mod 8 = 0) as Hnc8.
  { unfold nc. rewrite <- Z.mul_assoc, Z.mul_mod, H8 by lia. reflexivity. }
  assert (calculate_capacity nc = Z.max 64 nc) as Hcc.
  { apply calculate_capacity_aligned; [lia| |assumption].
    pose proof (Z.div_mod nc 8 ltac:(lia)).
    change (2 ^ 64) with (8 * 2305843009213693952) in *. lia. }
  destruct (grow_larger NDEBUG b mem nc Hd Hm ltac:(lia) Hlen)
    as (mem' & Hgrow & Htake & Hlen'); [lia|].
  exists (j + 1), mem'. replace (j + 1 - 1) with j by lia.
  rewrite <- Hnc_eq, <- Hcc.
  split; [lia|]. split; [exact Hup|]. split; [exact Hlow'|].
  split; [|split; assumption].
  unfold reserve_space, to_bool. rewrite Hd, assert_true.
  rewrite (uint64_small (m_written b + n)) by lia.
  destruct (Z.gtb_spec (m_written b + n) (m_capacity b)); [|lia].
  rewrite Hm, Hg. cbn [negb orb andb].
  rewrite (bool_decide_eq_false_2 (yes = no)) by discriminate.
  rewrite (bool_decide_eq_false_2 (yes = internal)) by discriminate.
  cbn [andb].
  rewrite ?(uint64_small (m_written b + n)) by lia.
  destruct (Z.gtb_spec (m_written b + n) (m_capacity b)); [|lia].
  rewrite (uint64_small (m_capacity b * 2)) by lia.
  rewrite Hdc, Hgrow. cbn [m_written with_storage].
  rewrite ?(uint64_small (m_written b + n)) by lia. reflexivity.
Qed.

Lemma least_power_of_two c e k need i :
  c = 2 ^ e -> 0 <= e -> 1 <= k -> 0 <= i ->
  c * 2 ^ (k - 1) < need -> need <= 2 ^ i ->
  c * 2 ^ k = 2 ^ (e + k) /\ 2 ^ (e + k) <= 2 ^ i.
Proof.
  intros -> He Hk Hi Hlow Hup. rewrite <- !Z.pow_add_r in * by lia.
  split; [reflexivity|].
  apply Z.pow_le_mono_r; [lia|].
  assert (2 ^ (e + (k - 1)) < 2 ^ i) as H by lia.
  apply Z.pow_lt_mono_r_iff in H; lia.
Qed.




(** C10: the default-constructed buffer is invalid: its capacity, its
    committed and its written size are 0, it converts to [false], and
    [clear] on it returns 0 and changes nothing, whether the asserts are
    compiled in or not. *)
Theorem default_buffer_spec (NDEBUG : bool) :
  capacity default = 0 /\ committed default = 0 /\ written default = 0 /\
  to_bool default = false /\
  clear NDEBUG default = returns 0 default.
Proof.
  repeat split. unfold clear. cbn [m_builder_count default Z.eqb].
  rewrite assert_true. reflexivity.
Qed.

(** ** Buffer: purge_removed *)

Lemma moved_cons r o n ps :
  moved ((r, o, n) :: ps) = (if o =? n then [] else [(o, n)]) ++ moved ps.
Proof. unfold moved. cbn. destruct (o =? n); reflexivity. Qed.

Section Purge.

Variable NDEBUG : bool.
Variable header_size : nat.
Variable decode_item : list byte -> Item.

Local Abbreviation record_ok := (record_ok header_size decode_item).
Local Abbreviation record_item := (record_item header_size decode_item).
Local Abbreviation alive := (alive header_size decode_item).
Local Abbreviation item_at := (item_at header_size decode_item).
Local Abbreviation purge_loop := (purge_loop header_size decode_item).
Local Abbreviation placements := (placements header_size decode_item).
Local Abbreviation len l := (Z.of_nat (length l)).

Lemma item_at_record pre r post :
  record_ok r -> item_at (pre ++ r ++ post) (len pre) = Ok (record_item r).
Proof.
  intros (Hh & _ & _). unfold Buffer.item_at.
  rewrite !length_app.
  destruct (Z.leb_spec 0 (len pre)); [|lia].
  destruct (Z.leb_spec (len pre + Z.of_nat header_size)
              (Z.of_nat (length pre + (length r + length post)))); [|lia].
  cbn [andb]. rewrite Nat2Z.id, drop_app_length.
  rewrite take_app_le by assumption. reflexivity.
Qed.

Lemma memmove_down done gap r post :
  memmove (done ++ gap ++ r ++ post) (len done) (len done + len gap) (len r)
  = Ok ((done ++ r) ++ drop (length r) (gap ++ r) ++ post).
Proof.
  unfold memmove. rewrite !length_app.
  destruct (Z.leb_spec 0 (len r)); [|lia].
  destruct (Z.leb_spec (len done + len gap + len r)
              (Z.of_nat (length done + (length gap + (length r + length post)))));
    [|lia].
  destruct (Z.leb_spec (len done + len r)
              (Z.of_nat (length done + (length gap + (length r + length post)))));
    [|lia].
  cbn [andb]. f_equal.
  assert (drop (Z.to_nat (len done + len gap)) (done ++ gap ++ r ++ post)
          = r ++ post) as Hsrc.
  { rewrite (app_assoc done gap). apply drop_app_length'.
    rewrite length_app. lia. }
  rewrite Hsrc.
  rewrite copy_n_splice; [|lia|lia|rewrite length_app; lia|rewrite !length_app; lia].
  rewrite !Nat2Z.id. rewrite take_app_length, take_app_length.
  rewrite <- app_assoc. do 2 f_equal.
  replace (Z.to_nat (len done + len r)) with (length done + length r)%nat by lia.
  rewrite <- drop_drop, drop_app_length.
  rewrite (app_assoc gap r post). apply drop_app_le.
  rewrite length_app. lia.
Qed.

Lemma length_drop_gap (gap r : list byte) :
  length (drop (length r) (gap ++ r)) = length gap.
Proof. rewrite length_drop, length_app. lia. Qed.

Lemma item_at_record_after done gap r post :
  record_ok r ->
  item_at (done ++ gap ++ r ++ post) (len done + len gap)
  = Ok (record_item r).
Proof.
  intros Hr. rewrite (app_assoc done gap), <- Nat2Z.inj_add, <- length_app.
  apply item_at_record, Hr.
Qed.

(** The loop on well-formed records: [done] is what has been written,
    [gap] the bytes between [it_write] and [it_read]. *)
Lemma purge_loop_records rs :
  Forall record_ok rs ->
  forall n done gap post calls mem end_ it_read it_write,
    (length rs <= n)%nat ->
    mem = done ++ gap ++ concat rs ++ post ->
    it_write = len done -> it_read = len done + len gap ->
    end_ = it_read + len (concat rs) ->
    exists gap',
      purge_loop n mem end_ it_read it_write calls
      = Ok (done ++ concat (filter (fun r => alive r = true) rs)
                 ++ gap' ++ post,
            len done + len (concat (filter (fun r => alive r = true) rs)),
            calls ++ moved (placements it_read it_write rs))
      /\
      len gap' + len (concat (filter (fun r => alive r = true) rs))
      = len gap + len (concat rs).
Proof.
  induction 1 as [|r rs Hr Hrs IH];
    intros n done gap post calls mem end_ it_read it_write Hn -> -> -> ->.
  - exists gap. rewrite filter_nil.
    cbn [concat Buffer.placements moved omap app length].
    rewrite !Z.add_0_r, !app_nil_r.
    destruct n; cbn [Buffer.purge_loop]; rewrite Z.eqb_refl; split;
      reflexivity.
  - destruct n as [|n]; [cbn in Hn; lia|].
    pose proof Hr as (Hh & Hpos & Hsize).
    cbn [Buffer.purge_loop concat Buffer.placements].
    rewrite length_app, <- app_assoc.
    destruct (Z.eqb_spec (len done + len gap)
                (len done + len gap + Z.of_nat (length r + length (concat rs))));
      [lia|].
    rewrite item_at_record_after by assumption.
    cbn [mbind result_mbind result_bind]. rewrite Hsize.
    assert (removed (record_item r) = negb (alive r)) as ->
      by (unfold Buffer.alive; rewrite negb_involutive; reflexivity).
    destruct (alive r) eqn:Ha; cbn [negb].
    2:{ (* a removed record is skipped *)
      rewrite !filter_cons_False by (rewrite Ha; discriminate).
      destruct (IH n done (gap ++ r) post calls
                  (done ++ gap ++ r ++ concat rs ++ post)
                  (len done + len gap
                   + Z.of_nat (length r + length (concat rs)))
                  (len done + len gap + len r) (len done))
        as (gap' & Hloop & Hlen);
        [cbn in Hn; lia | rewrite <- !app_assoc; reflexivity | reflexivity
        | rewrite length_app; lia | lia |].
      exists gap'. split; [exact Hloop|].
      rewrite length_app in Hlen. lia. }
    + (* a record that stays is moved down to it_write *)
      rewrite !filter_cons_True by exact Ha.
      cbn [concat]. rewrite !length_app.
      set (kept := concat (filter (fun r0 => alive r0 = true) rs)).
      assert (forall mem1 calls1,
                item_at mem1 (len done) = Ok (record_item r) ->
                mem1 = (done ++ r) ++ drop (length r) (gap ++ r)
                         ++ concat rs ++ post ->
                calls1 ++ moved (placements (len done + len gap + len r)
                                            (len done + len r) rs)
                = calls ++ moved ((r, len done + len gap, len done)
                                    :: placements (len done + len gap + len r)
                                         (len done + len r) rs) ->
                exists gap',
                  (w ← item_at mem1 (len done);
                   purge_loop n mem1
                     (len done + len gap
                      + Z.of_nat (length r + length (concat rs)))
                     (len done + len gap + len r)
                     (len done + padded_size w) calls1)
                  = Ok (done ++ (r ++ kept) ++ gap' ++ post,
                        len done + Z.of_nat (length r + length kept),
                        calls ++ moved ((r, len done + len gap, len done)
                                          :: placements
                                               (len done + len gap + len r)
                                               (len done + len r) rs))
                  /\ len gap' + Z.of_nat (length r + length kept)
                     = len gap + Z.of_nat (length r + length (concat rs)))
        as Hstep.
      { intros mem1 calls1 Hitem Hmem1 Hcalls. rewrite Hitem.
        cbn [mbind result_mbind result_bind]. rewrite Hsize.
        destruct (IH n (done ++ r) (drop (length r) (gap ++ r)) post calls1
                    mem1
                    (len done + len gap
                     + Z.of_nat (length r + length (concat rs)))
                    (len done + len gap + len r) (len done + len r))
          as (gap' & Hloop & Hlen);
          [cbn in Hn; lia | exact Hmem1 | rewrite length_app; lia
          | rewrite length_app, length_drop_gap; lia | lia |].
        rewrite length_drop_gap in Hlen. fold kept in Hloop, Hlen.
        exists gap'. split; [|lia].
        rewrite Hloop, Hcalls, length_app, <- !app_assoc.
        do 3 f_equal. lia. }
      destruct (Z.eqb_spec (len done + len gap) (len done)) as [E|E];
        cbn [negb mbind result_mbind result_bind].
      * assert (gap = []) as -> by (destruct gap; [reflexivity|cbn in E; lia]).
        apply Hstep.
        -- cbn [app]. apply item_at_record, Hr.
        -- cbn [app]. rewrite drop_all. cbn [app].
           rewrite <- !app_assoc. reflexivity.
        -- rewrite moved_cons, E, Z.eqb_refl. reflexivity.
      * rewrite memmove_down. cbn [mbind result_mbind result_bind].
        apply Hstep.
        -- rewrite <- (app_assoc done r). apply item_at_record, Hr.
        -- reflexivity.
        -- rewrite (moved_cons r).
           destruct (Z.eqb_spec (len done + len gap) (len done)); [lia|].
           rewrite <- app_assoc. reflexivity.
Qed.

End Purge.

Section Placements.

Variable header_size : nat.
Variable decode_item : list byte -> Item.

Local Abbreviation record_ok := (record_ok header_size decode_item).
Local Abbreviation record_item := (record_item header_size decode_item).
Local Abbreviation alive := (alive header_size decode_item).
Local Abbreviation placements := (placements header_size decode_item).
Local Abbreviation total_padded_size :=
  (total_padded_size header_size decode_item).
Local Abbreviation len l := (Z.of_nat (length l)).

(** The records that are placed are those that are not removed, in
    their order. *)
Lemma placements_records old new rs :
  map (fun p : list byte * Z * Z => p.1.1) (placements old new rs)
  = filter (fun r => alive r = true) rs.
Proof.
  revert old new. induction rs as [|r rs IH]; intros old new;
    [reflexivity|].
  cbn [Buffer.placements]. destruct (alive r) eqn:E.
  - rewrite filter_cons_True by assumption. cbn [map fst]. f_equal. apply IH.
  - rewrite filter_cons_False by (rewrite E; discriminate). apply IH.
Qed.

(** A record never moves up, and the distance it moves down is at least
    the distance at which the compaction started. *)
Lemma placements_bounds old new rs r o n :
  (r, o, n) ∈ placements old new rs ->
  old <= o /\ new <= n /\ old - new <= o - n.
Proof.
  revert old new. induction rs as [|r' rs IH]; intros old new H;
    cbn [Buffer.placements] in H.
  - apply elem_of_nil in H. contradiction.
  - destruct (alive r').
    + apply elem_of_cons in H as [H|H].
      * injection H as -> -> ->. lia.
      * apply IH in H. lia.
    + apply IH in H. lia.
Qed.

(** Old and new offsets both grow along the placements. *)
Lemma placements_monotone old new rs i j p q :
  Forall record_ok rs -> (i < j)%nat ->
  placements old new rs !! i = Some p ->
  placements old new rs !! j = Some q ->
  p.1.2 < q.1.2 /\ p.2 < q.2.
Proof.
  intros Hrs. revert old new i j.
  induction Hrs as [|r rs Hr Hrs IH]; intros old new i j Hij Hi Hj;
    cbn [Buffer.placements] in Hi, Hj; [discriminate|].
  destruct Hr as (_ & Hpos & _). destruct (alive r).
  - destruct j as [|j]; [lia|]. cbn in Hj. destruct i as [|i].
    + injection Hi as <-. destruct q as [[r' o] n].
      apply list_elem_of_lookup_2, placements_bounds in Hj. cbn. lia.
    + cbn in Hi. eapply (IH _ _ i j); [lia|eassumption|eassumption].
  - eapply (IH _ _ i j); eassumption.
Qed.

(** Where a placed record lay before the compaction. *)
Lemma placements_old rs :
  forall old new pre post r o n,
    len pre = old -> (r, o, n) ∈ placements old new rs ->
    take (length r) (drop (Z.to_nat o) (pre ++ concat rs ++ post)) = r.
Proof.
  induction rs as [|r' rs IH]; intros old new pre post r o n Hpre H;
    cbn [Buffer.placements] in H.
  - apply elem_of_nil in H. contradiction.
  - cbn [concat]. rewrite <- app_assoc.
    assert (forall new',
              (r, o, n) ∈ placements (old + len r') new' rs ->
              take (length r)
                   (drop (Z.to_nat o) (pre ++ r' ++ concat rs ++ post)) = r)
      as Hrest.
    { intros new' H'. rewrite (app_assoc pre r').
      apply (IH (old + len r') new' _ _ r o n);
        [rewrite length_app; lia | exact H']. }
    destruct (alive r'); [|apply (Hrest _ H)].
    apply elem_of_cons in H as [H|H]; [|apply (Hrest _ H)].
    injection H as -> -> ->. rewrite <- Hpre, Nat2Z.id, drop_app_length.
    apply take_app_length.
Qed.

(** Where a placed record lies after the compaction. *)
Lemma placements_new rs :
  forall old new pre post r o n,
    len pre = new -> (r, o, n) ∈ placements old new rs ->
    take (length r)
         (drop (Z.to_nat n)
               (pre ++ concat (filter (fun r => alive r = true) rs) ++ post))
    = r.
Proof.
  induction rs as [|r' rs IH]; intros old new pre post r o n Hpre H;
    cbn [Buffer.placements] in H.
  - apply elem_of_nil in H. contradiction.
  - destruct (alive r') eqn:E.
    + rewrite filter_cons_True by assumption. cbn [concat].
      rewrite <- app_assoc.
      apply elem_of_cons in H as [H|H].
      * injection H as -> -> ->. rewrite <- Hpre, Nat2Z.id, drop_app_length.
        apply take_app_length.
      * rewrite (app_assoc pre r').
        apply (IH (old + len r') (new + len r') _ _ r o n);
          [rewrite length_app; lia|].
        exact H.
    + rewrite filter_cons_False by (rewrite E; discriminate).
      apply (IH (old + len r') new _ _ r o n); assumption.
Qed.

(** The callback is told of a record exactly when its offset changes,
    and the new offset is then the smaller one. *)
Lemma moved_spec (ps : list (list byte * Z * Z)) o n :
  (o, n) ∈ moved ps <-> exists r, (r, o, n) ∈ ps /\ o <> n.
Proof.
  unfold moved. rewrite list_elem_of_omap. split.
  - intros ([[r o'] n'] & Hin & H). destruct (Z.eqb_spec o' n'); [discriminate|].
    injection H as -> ->. exists r. split; assumption.
  - intros (r & Hin & Hne). exists (r, o, n). split; [exact Hin|].
    destruct (Z.eqb_spec o n); [contradiction|reflexivity].
Qed.

Lemma total_padded_size_length rs :
  Forall record_ok rs -> total_padded_size rs = len (concat rs).
Proof.
  induction 1 as [|r rs Hr Hrs IH]; [reflexivity|].
  cbn [Buffer.total_padded_size foldr concat].
  fold (total_padded_size rs). rewrite IH, length_app.
  destruct Hr as (_ & _ & ->). lia.
Qed.

Lemma record_ok_filter (P : list byte -> Prop) `{!forall r, Decision (P r)} rs :
  Forall record_ok rs -> Forall record_ok (filter P rs).
Proof.
  intros Hall. apply Forall_forall. intros r Hr.
  apply list_elem_of_filter in Hr as [_ Hr].
  rewrite Forall_forall in Hall. apply Hall, Hr.
Qed.

End Placements.

Section PurgeRemoved.

Variable NDEBUG : bool.
Variable header_size : nat.
Variable decode_item : list byte -> Item.

Local Abbreviation record_ok := (record_ok header_size decode_item).
Local Abbreviation alive := (alive header_size decode_item).
Local Abbreviation placements := (placements header_size decode_item).
Local Abbreviation purge_removed :=
  (purge_removed NDEBUG header_size decode_item).
Local Abbreviation total_padded_size :=
  (total_padded_size header_size decode_item).
Local Abbreviation len l := (Z.of_nat (length l)).

Lemma records_count rs :
  Forall record_ok rs -> (length rs <= length (concat rs))%nat.
Proof.
  induction 1 as [|r rs (_ & Hpos & _) _ IH]; [reflexivity|].
  cbn [concat length]. rewrite length_app. lia.
Qed.

Lemma purge_removed_empty b :
  to_bool b = true -> m_committed b = 0 -> purge_removed b = returns [] b.
Proof.
  intros Hv Hc. unfold Buffer.purge_removed.
  rewrite Hv, assert_true, Hc. reflexivity.
Qed.

(** What [purge_removed] does to a buffer whose committed part is made
    of the records [rs]. *)
Lemma purge_removed_records b rs rest :
  Forall record_ok rs ->
  m_data b = Some (concat rs ++ rest) ->
  m_committed b = len (concat rs) -> m_committed b <> 0 ->
  exists gap,
    purge_removed b =
    returns (moved (placements 0 0 rs))
      (with_committed
         (with_written
            (with_storage b (m_memory b)
               (Some (concat (filter (fun r => alive r = true) rs)
                        ++ gap ++ rest))
               (m_capacity b))
            (len (concat (filter (fun r => alive r = true) rs))))
         (len (concat (filter (fun r => alive r = true) rs)))).
Proof.
  intros Hrs Hd Hc Hne. unfold Buffer.purge_removed, to_bool.
  rewrite Hd, assert_true.
  destruct (Z.eqb_spec (m_committed b) 0); [contradiction|].
  destruct (purge_loop_records header_size decode_item rs Hrs
              (S (length (concat rs ++ rest))) [] [] rest []
              (concat rs ++ rest) (m_committed b) 0 0)
    as (gap & Hloop & _).
  - pose proof (records_count rs Hrs). rewrite length_app. lia.
  - reflexivity.
  - reflexivity.
  - reflexivity.
  - rewrite Hc. lia.
  - exists gap. rewrite Hloop. reflexivity.
Qed.

End PurgeRemoved.

(** C9 (amended): on a buffer whose committed part is made of
    well-formed records, [purge_removed] keeps the records that are not
    removed in their order, at offsets that grow with their old offsets;
    the callback is called for the records that change place, each time
    with a new offset below the old one; afterwards [committed] is the
    sum of the padded sizes of the records that are kept, and [written]
    is equal to it unless the committed part was empty, in which case the
    buffer, with its pending bytes, is left as it was. *)
Theorem purge_removed_spec (NDEBUG : bool) (header_size : nat)
    (decode_item : list byte -> Item) (b : t) (rs : list (list byte))
    (rest : list byte) :
  Forall (record_ok header_size decode_item) rs ->
  m_data b = Some (concat rs ++ rest) ->
  m_committed b = Z.of_nat (length (concat rs)) ->
  let kept := filter (fun r => alive header_size decode_item r = true) rs in
  let ps := placements header_size decode_item 0 0 rs in
  exists b' mem',
    purge_removed NDEBUG header_size decode_item b = returns (moved ps) b' /\
    m_data b' = Some mem' /\
    map (fun p : list byte * Z * Z => p.1.1) ps = kept /\
    take (Z.to_nat (m_committed b')) mem' = concat kept /\
    (forall r o n, (r, o, n) ∈ ps ->
       take (length r) (drop (Z.to_nat o) (concat rs ++ rest)) = r /\
       take (length r) (drop (Z.to_nat n) mem') = r /\ n <= o) /\
    (forall i j p q, (i < j)%nat -> ps !! i = Some p -> ps !! j = Some q ->
       p.1.2 < q.1.2 /\ p.2 < q.2) /\
    (forall o n, (o, n) ∈ moved ps -> n < o) /\
    m_committed b' = total_padded_size header_size decode_item kept /\
    (m_committed b <> 0 -> m_written b' = m_committed b') /\
    (m_committed b = 0 -> b' = b).
Proof.
  intros Hrs Hd Hc kept ps.
  assert (forall r o n, (r, o, n) ∈ ps -> n <= o) as Hdown.
  { intros r o n H. apply placements_bounds in H. lia. }
  assert (forall o n, (o, n) ∈ moved ps -> n < o) as Hmoved.
  { intros o n H. apply moved_spec in H as (r & H & Hne).
    apply Hdown in H. lia. }
  pose proof (placements_records header_size decode_item 0 0 rs) as Hkept.
  pose proof (record_ok_filter header_size decode_item
                (fun r => alive header_size decode_item r = true) rs Hrs)
    as Hkept_ok.
  destruct (Z.eq_dec (m_committed b) 0) as [H0|Hne].
  - (* nothing is committed *)
    assert (rs = []) as Hnil.
    { pose proof (records_count header_size decode_item rs Hrs).
      destruct rs; [reflexivity|]. cbn [length] in *. lia. }
    subst rs. exists b, rest. subst kept ps. cbn [concat app] in *.
    split; [apply purge_removed_empty; [unfold to_bool; rewrite Hd|];
            easy|].
    split; [exact Hd|]. split; [reflexivity|].
    split; [rewrite H0; reflexivity|].
    split; [intros r o n H; apply elem_of_nil in H; contradiction|].
    split; [intros i j p q _ H; discriminate H|].
    split; [exact Hmoved|]. split; [exact H0|]. split; [contradiction|].
    reflexivity.
  - destruct (purge_removed_records NDEBUG header_size decode_item b rs rest
                Hrs Hd Hc Hne) as (gap & Hp).
    eexists. eexists. split; [exact Hp|]. cbn.
    split; [reflexivity|]. split; [exact Hkept|].
    split; [rewrite Nat2Z.id; apply take_app_length|].
    split.
    { intros r o n H. split; [|split; [|apply (Hdown r), H]].
      - apply (placements_old header_size decode_item rs 0 0 [] rest r o n);
          [reflexivity | exact H].
      - apply (placements_new header_size decode_item rs 0 0 []
                 (gap ++ rest) r o n); [reflexivity | exact H]. }
    split.
    { intros i j p q. apply placements_monotone, Hrs. }
    split; [exact Hmoved|].
    split; [symmetry; apply total_padded_size_length, Hkept_ok|].
    split; [reflexivity | contradiction].
Qed.

Lemma example_records_ok :
  Forall (record_ok 2 example_decode_item) [example_removed; example_kept].
Proof.
  repeat constructor; cbn; lia.
Qed.

Lemma purge_removed_spec_witness :
  Forall (record_ok 2 example_decode_item) [example_removed; example_kept] /\
  external (example_removed ++ example_kept) 16 = Ok example_buffer /\
  exists b' mem',
    purge_removed false 2 example_decode_item example_buffer
      = returns [(8, 0)] b' /\
    m_data b' = Some mem' /\
    take (Z.to_nat (m_committed b')) mem' = example_kept /\
    m_committed b' = 8 /\ m_written b' = 8.
Proof.
  split; [exact example_records_ok|]. split; [reflexivity|].
  destruct (purge_removed_spec false 2 example_decode_item example_buffer
              [example_removed; example_kept] [] example_records_ok
              eq_refl eq_refl)
    as (b' & mem' & Hp & Hd & _ & Htake & _ & _ & _ & Hc & Hw & _).
  exists b', mem'. split; [exact Hp|]. split; [exact Hd|].
  split; [rewrite Htake; reflexivity|].
  split; [rewrite Hc; reflexivity|].
  rewrite Hw by discriminate. rewrite Hc. reflexivity.
Defined.

(** C9 as stated fails: with 8 bytes reserved and nothing committed,
    [purge_removed] returns at once and [written] stays different from
    [committed]. *)
Lemma purge_removed_counterexample :
  exists b b',
    reserve_space false 8 (allocating 64 yes) = returns 0 b /\
    purge_removed false 2 example_decode_item b = returns [] b' /\
    m_committed b' = 0 /\ m_written b' = 8 /\
    m_written b' <> m_committed b'.
Proof.
  eexists. eexists. split; [vm_compute; reflexivity|].
  split; [vm_compute; reflexivity|].
  cbn. repeat split. discriminate.
Qed.

(** ** Buffer: the invariant *)

Lemma padded_length_range n :
  0 <= padded_length n < 2 ^ 64 /\ padded_length n mod 8 = 0.
Proof.
  rewrite padded_length_div.
  assert (0 <= uint64 (n + 7) < 2 ^ 64) as Hx
    by (apply Z.mod_pos_bound; reflexivity).
  pose proof (Z.div_mod (uint64 (n + 7)) 8 ltac:(lia)).
  pose proof (Z.mod_pos_bound (uint64 (n + 7)) 8 ltac:(lia)).
  split; [lia|]. rewrite Z.mul_comm. apply Z_mod_mult.
Qed.

Lemma calculate_capacity_range n :
  0 <= calculate_capacity n < 2 ^ 64 /\ calculate_capacity n mod 8 = 0.
Proof.
  unfold calculate_capacity, min_capacity. destruct (n <? 64).
  - split; [lia | reflexivity].
  - apply padded_length_range.
Qed.

Lemma calculate_capacity_ge n :
  0 <= n < 2 ^ 64 -> n mod 8 = 0 -> n <= calculate_capacity n.
Proof.
  intros Hn H8. apply calculate_capacity_bounds; [lia|].
  pose proof (Z.div_mod n 8 ltac:(lia)).
  change (2 ^ 64) with (8 * 2305843009213693952) in *. lia.
Qed.

(** When the doubling loop ends, the capacity it has found is large
    enough and still a multiple of 8. *)
Lemma double_capacity_ge n need c nc :
  0 <= c < 2 ^ 64 -> c mod 8 = 0 ->
  double_capacity n need c = Some nc ->
  need <= nc /\ 0 <= nc < 2 ^ 64 /\ nc mod 8 = 0.
Proof.
  revert c. induction n as [|n IH]; intros c Hc H8 H;
    cbn [double_capacity] in H;
    destruct (Z.gtb_spec need c); try discriminate H.
  - injection H as <-. lia.
  - apply IH in H; [exact H | apply Z.mod_pos_bound; reflexivity |].
    unfold uint64.
    rewrite Z.mod_mod_divide by (exists (2 ^ 61); reflexivity).
    rewrite Z.mul_mod, H8 by lia. reflexivity.
  - injection H as <-. lia.
Qed.

Lemma chain_sound_unfold b :
  chain_sound b <->
  sound b /\
  match m_next_buffer b with None => True | Some b' => chain_sound b' end.
Proof. destruct b. reflexivity. Qed.

Lemma chain_sound_top b : chain_sound b -> sound b.
Proof. rewrite chain_sound_unfold. intros [H _]. exact H. Qed.

Lemma chain_sound_next b b' :
  chain_sound b -> m_next_buffer b = Some b' -> chain_sound b'.
Proof. rewrite chain_sound_unfold. intros [_ H] E. rewrite E in H. exact H. Qed.

(** A buffer with the chain of a sound buffer is sound along its chain
    when it is sound itself. *)
Lemma chain_sound_same_next b b' :
  chain_sound b -> m_next_buffer b' = m_next_buffer b -> sound b' ->
  chain_sound b'.
Proof.
  rewrite !chain_sound_unfold. intros [_ H] -> Hs. split; assumption.
Qed.

Lemma keeps_returns {A} (a : A) b : chain_sound b -> keeps (returns a b).
Proof. intros H b' E. injection E as <-. exact H. Qed.

Lemma keeps_throws {A} e b : chain_sound b -> keeps (@throws A e b).
Proof. intros H b' E. injection E as <-. exact H. Qed.

Lemma keeps_undefined {A} : keeps (@undefined A).
Proof. intros b' E. discriminate E. Qed.

Lemma keeps_diverges {A} : keeps (@diverges A).
Proof. intros b' E. discriminate E. Qed.

Lemma keeps_assert {A} NDEBUG c (k : outcome A) :
  keeps k -> keeps (assert NDEBUG c k).
Proof.
  intros H. unfold assert. destruct (NDEBUG || c);
    [exact H | apply keeps_undefined].
Qed.

Section Keeps.

Variable NDEBUG : bool.
Variable header_size : nat.
Variable decode_item : list byte -> Item.

Lemma commit_keeps b : chain_sound b -> keeps (commit NDEBUG b).
Proof.
  intros H. unfold commit, is_aligned.
  repeat apply keeps_assert.
  unfold assert at 1. destruct (NDEBUG || to_bool b); [|apply keeps_undefined].
  apply keeps_assert, keeps_returns.
  apply (chain_sound_same_next b); [exact H | reflexivity|].
  apply chain_sound_top in H. unfold sound in *. cbn. intuition lia.
Qed.

Lemma rollback_keeps b : chain_sound b -> keeps (rollback NDEBUG b).
Proof.
  intros H. unfold rollback. repeat apply keeps_assert. apply keeps_returns.
  apply (chain_sound_same_next b); [exact H | reflexivity|].
  apply chain_sound_top in H. unfold sound in *. cbn. intuition lia.
Qed.

Lemma clear_keeps b : chain_sound b -> keeps (clear NDEBUG b).
Proof.
  intros H. unfold clear. apply keeps_assert, keeps_returns.
  apply (chain_sound_same_next b); [exact H | reflexivity|].
  apply chain_sound_top in H. unfold sound in *. cbn. intuition lia.
Qed.

(** [grow] leaves the buffer as it is or gives it a larger capacity. *)
Lemma grow_returns size b u b' :
  chain_sound b -> grow NDEBUG size b = returns u b' ->
  chain_sound b' /\ m_written b' = m_written b /\
  m_committed b' = m_committed b /\
  m_capacity b <= m_capacity b' /\ calculate_capacity size <= m_capacity b'.
Proof.
  intros H. unfold grow, assert.
  destruct (NDEBUG || to_bool b); [|discriminate].
  destruct (m_memory b) eqn:Hm; cbn [negb]; [|discriminate].
  destruct (Z.ltb_spec (m_capacity b) (calculate_capacity size)).
  - destruct (m_data b); [|discriminate].
    intros E. injection E as _ <-.
    pose proof (calculate_capacity_range size).
    split; [|cbn; repeat split; lia].
    apply (chain_sound_same_next b); [exact H | reflexivity|].
    apply chain_sound_top in H. unfold sound in *. cbn. intuition lia.
  - intros E. injection E as _ <-. repeat split; auto; lia.
Qed.

Lemma grow_throws size b e b' : grow NDEBUG size b = throws e b' -> b' = b.
Proof.
  unfold grow, assert.
  destruct (NDEBUG || to_bool b); [|discriminate].
  destruct (m_memory b); cbn [negb].
  - destruct (_ <? _); [|discriminate]. destruct (m_data b); discriminate.
  - intros E. injection E as _ <-. reflexivity.
Qed.

Lemma grow_keeps size b : chain_sound b -> keeps (grow NDEBUG size b).
Proof.
  intros H b' E. destruct (grow NDEBUG size b) as [u b1|e b1| |] eqn:G;
    try discriminate E; injection E as <-.
  - apply (grow_returns size b u b1 H G).
  - apply grow_throws in G. subst. exact H.
Qed.

(** [grow_internal] starts an empty committed part in fresh storage of
    the same capacity, with the pending bytes. *)
Lemma grow_internal_returns b u b' :
  chain_sound b -> grow_internal NDEBUG b = returns u b' ->
  chain_sound b' /\ m_capacity b' = m_capacity b /\
  m_written b' = m_written b - m_committed b /\ m_committed b' = 0.
Proof.
  intros H. pose proof (chain_sound_top b H) as Hs.
  unfold grow_internal, assert.
  destruct (NDEBUG || to_bool b); [|discriminate].
  destruct (m_memory b) eqn:Hm; cbn [negb]; [|discriminate].
  destruct (m_data b) as [mem|]; [|discriminate].
  unfold owning, check_capacity_committed.
  destruct (Z.eqb_spec (m_capacity b mod align_bytes) 0) as [Hc8|Hc8];
    cbn [negb mbind result_mbind result_bind]; [|discriminate].
  destruct (Z.eqb_spec (m_committed b mod align_bytes) 0) as [Hm8|Hm8];
    cbn [negb mbind result_mbind result_bind]; [|discriminate].
  destruct (Z.gtb_spec (m_committed b) (m_capacity b));
    cbn [mbind result_mbind result_bind]; [discriminate|].
  intros E. injection E as _ <-. unfold sound in Hs.
  assert (uint64 (m_written b - m_committed b) = m_written b - m_committed b)
    as Hw by (apply uint64_small; lia).
  cbn. rewrite Hw. split; [|auto].
  apply chain_sound_unfold. cbn. split; [unfold sound; cbn; intuition lia|].
  apply chain_sound_unfold. cbn. split; [unfold sound; cbn; intuition lia|].
  apply chain_sound_unfold in H. apply H.
Qed.

Lemma grow_internal_throws b e b' :
  chain_sound b -> grow_internal NDEBUG b = throws e b' ->
  chain_sound b' /\ m_capacity b' = m_capacity b /\
  m_written b' = m_written b /\ m_committed b' = m_committed b.
Proof.
  intros H. pose proof (chain_sound_top b H) as Hs.
  assert (forall d,
            chain_sound (with_storage b false d (m_capacity b))) as Hfreed.
  { intros d. apply (chain_sound_same_next b); [exact H | reflexivity|].
    unfold sound in *. cbn. intuition (try discriminate; lia). }
  unfold grow_internal, assert.
  destruct (NDEBUG || to_bool b); [|discriminate].
  destruct (m_memory b) eqn:Hm; cbn [negb].
  2:{ intros E. injection E as _ <-. auto. }
  destruct (m_data b) as [mem|]; [|discriminate].
  destruct (owning mem (m_capacity b) (m_committed b)); try discriminate.
  intros E. injection E as _ <-. split; [apply Hfreed | auto].
Qed.

Lemma grow_internal_keeps b : chain_sound b -> keeps (grow_internal NDEBUG b).
Proof.
  intros H b' E. destruct (grow_internal NDEBUG b) as [u b1|e b1| |] eqn:G;
    try discriminate E; injection E as <-.
  - apply (grow_internal_returns b u b1 H G).
  - apply (grow_internal_throws b e b1 H G).
Qed.

(** The last step of [reserve_space], once the request fits. *)
Lemma reserve_fits size b :
  chain_sound b -> 0 <= size -> m_written b + size <= m_capacity b ->
  chain_sound (with_written b (uint64 (m_written b + size))).
Proof.
  intros H Hs Hfit. pose proof (chain_sound_top b H) as Hb.
  unfold sound in Hb. rewrite uint64_small by lia.
  apply (chain_sound_same_next b); [exact H | reflexivity|].
  unfold sound. cbn. intuition lia.
Qed.

Lemma reserve_space_keeps size b :
  chain_sound b -> 0 <= size -> m_written b + size < 2 ^ 64 ->
  keeps (reserve_space NDEBUG size b).
Proof.
  intros H Hs Hov. pose proof (chain_sound_top b H) as Hb.
  unfold sound in Hb. unfold reserve_space.
  apply keeps_assert.
  assert (uint64 (m_written b + size) = m_written b + size) as Hu
    by (apply uint64_small; lia).
  destruct (Z.gtb_spec (uint64 (m_written b + size)) (m_capacity b))
    as [Hgt|Hle]; rewrite Hu in *.
  2:{ apply keeps_returns. rewrite <- Hu. apply reserve_fits; assumption. }
  destruct (negb (m_memory b) || bool_decide (m_auto_grow b = no)) eqn:Hg.
  { apply keeps_throws, H. }
  apply orb_false_elim in Hg as [Hm _]. apply negb_false_iff in Hm.
  assert (forall b1,
            chain_sound b1 -> m_capacity b1 = m_capacity b ->
            0 <= m_written b1 <= m_written b ->
            keeps
              (if uint64 (m_written b1 + size) >? m_capacity b1 then
                 match double_capacity 64 (uint64 (m_written b1 + size))
                                       (uint64 (m_capacity b1 * 2)) with
                 | None => diverges
                 | Some new_capacity =>
                   match grow NDEBUG new_capacity b1 with
                   | returns _ b2 =>
                     returns (m_written b2)
                       (with_written b2 (uint64 (m_written b2 + size)))
                   | throws e b2 => throws e b2
                   | undefined => undefined
                   | diverges => diverges
                   end
                 end
               else
                 returns (m_written b1)
                   (with_written b1 (uint64 (m_written b1 + size)))))
    as Hrest.
  { intros b1 H1 Hc1 Hw1.
    assert (uint64 (m_written b1 + size) = m_written b1 + size) as Hu1
      by (apply uint64_small; lia).
    destruct (Z.gtb_spec (uint64 (m_written b1 + size)) (m_capacity b1))
      as [Hgt1|Hle1]; rewrite Hu1 in *.
    2:{ apply keeps_returns. rewrite <- Hu1. apply reserve_fits; assumption. }
    destruct (double_capacity 64 _ _) as [nc|] eqn:Hdc;
      [|apply keeps_diverges].
    apply double_capacity_ge in Hdc as (Hneed & Hnc & Hnc8).
    2:{ apply Z.mod_pos_bound. reflexivity. }
    2:{ unfold uint64.
        rewrite Z.mod_mod_divide by (exists (2 ^ 61); reflexivity).
        rewrite Z.mul_mod, Hc1 by lia.
        destruct Hb as (_ & _ & Hb8). rewrite (Hb8 Hm). reflexivity. }
    destruct (grow NDEBUG nc b1) as [u b2|e b2| |] eqn:G;
      [|apply grow_throws in G; subst; apply keeps_throws, H1
       |apply keeps_undefined|apply keeps_diverges].
    apply grow_returns in G as (H2 & Hw2 & Hm2 & _ & Hcap); [|exact H1].
    apply keeps_returns, reserve_fits; [exact H2 | exact Hs |].
    pose proof (calculate_capacity_ge nc Hnc Hnc8). lia. }
  destruct (bool_decide (m_auto_grow b = internal)
            && negb (m_committed b =? 0)).
  - destruct (grow_internal NDEBUG b) as [u b1|e b1| |] eqn:G;
      [|apply keeps_throws, (grow_internal_throws b e b1 H G)
       |apply keeps_undefined|apply keeps_diverges].
    apply grow_internal_returns in G as (H1 & Hc1 & Hw1 & _); [|exact H].
    apply Hrest; [exact H1 | exact Hc1 | lia].
  - apply Hrest; [exact H | reflexivity | lia].
Qed.

Lemma add_item_keeps item b :
  chain_sound b ->
  (forall i, item_at header_size decode_item item 0 = Ok i ->
             0 <= padded_size i /\ m_written b + padded_size i < 2 ^ 64) ->
  keeps (add_item NDEBUG header_size decode_item item b).
Proof.
  intros H Hr. unfold add_item. apply keeps_assert.
  destruct (item_at header_size decode_item item 0) as [i| | |];
    try apply keeps_undefined.
  destruct (Hr i eq_refl) as [Hi Hov].
  pose proof (reserve_space_keeps (padded_size i) b H Hi Hov) as Hk.
  destruct (reserve_space NDEBUG (padded_size i) b) as [target b1|e b1| |];
    try exact Hk.
  destruct (m_data b1); [|apply keeps_undefined].
  apply keeps_returns.
  apply (chain_sound_same_next b1); [apply Hk; reflexivity | reflexivity|].
  specialize (Hk b1 eq_refl). apply chain_sound_top in Hk.
  unfold sound in *. cbn. intuition lia.
Qed.

Lemma length_concat_filter (P : list byte -> Prop)
      `{!forall r, Decision (P r)} (rs : list (list byte)) :
  (length (concat (filter P rs)) <= length (concat rs))%nat.
Proof.
  induction rs as [|r rs IH]; [reflexivity|].
  destruct (decide (P r)).
  - rewrite filter_cons_True by assumption. cbn [concat].
    rewrite !length_app. lia.
  - rewrite filter_cons_False by assumption. cbn [concat].
    rewrite length_app. lia.
Qed.

Lemma purge_removed_keeps b rs :
  chain_sound b -> holds header_size decode_item b rs ->
  keeps (purge_removed NDEBUG header_size decode_item b).
Proof.
  intros H (Hrs & Hc & mem & rest & Hd & ->).
  pose proof (chain_sound_top b H) as Hb. unfold sound in Hb.
  destruct (Z.eq_dec (m_committed b) 0) as [H0|Hne].
  - rewrite purge_removed_empty; [apply keeps_returns, H | |exact H0].
    unfold to_bool. rewrite Hd. reflexivity.
  - destruct (purge_removed_records NDEBUG header_size decode_item b rs rest
                Hrs Hd Hc Hne) as (gap & ->).
    apply keeps_returns.
    apply (chain_sound_same_next b); [exact H | reflexivity|].
    pose proof (length_concat_filter
                  (fun r => alive header_size decode_item r = true) rs).
    unfold sound. cbn. intuition lia.
Qed.

(** Every call that is in range keeps the invariant. *)
Lemma exec_keeps op b b' :
  chain_sound b -> in_range header_size decode_item op b ->
  exec NDEBUG header_size decode_item op b = Some b' -> chain_sound b'.
Proof.
  intros H Hr. destruct op; cbn [exec in_range] in *.
  - apply reserve_space_keeps; [exact H | apply Hr | apply Hr].
  - apply commit_keeps, H.
  - apply rollback_keeps, H.
  - apply clear_keeps, H.
  - apply grow_keeps, H.
  - apply grow_internal_keeps, H.
  - destruct Hr as [rs Hrs]. apply (purge_removed_keeps b rs H Hrs).
  - apply add_item_keeps; [exact H | exact Hr].
Qed.

End Keeps.

Lemma check_capacity_committed_ok capacity committed u :
  check_capacity_committed capacity committed = Ok u ->
  capacity mod 8 = 0 /\ committed <= capacity.
Proof.
  unfold check_capacity_committed, align_bytes.
  destruct (Z.eqb_spec (capacity mod 8) 0); cbn [negb]; [|discriminate].
  destruct (committed mod 8 =? 0); cbn [negb]; [|discriminate].
  destruct (Z.gtb_spec committed capacity); [discriminate|].
  intros _. split; [assumption | lia].
Qed.

(** The buffers of a program whose calls are in range are sound along
    their chains. *)
Lemma reachable_chain_sound NDEBUG header_size decode_item b :
  reachable NDEBUG header_size decode_item true b -> chain_sound b.
Proof.
  induction 1 as [ | data size b Hs Hb | data cap com b Hc Hm Hb
                 | data cap com b Hc Hm Hb | cap grow Hc | b _ IH | b _ IH
                 | b b' _ IH Hn | op b b' _ IH Hr He ].
  - apply chain_sound_unfold. cbn. unfold sound. cbn. intuition lia.
  - unfold external in Hb. destruct (negb _); [discriminate|].
    injection Hb as <-. apply chain_sound_unfold. cbn. unfold sound. cbn.
    intuition (try discriminate; lia).
  - unfold external_committed in Hb.
    destruct (check_capacity_committed cap com) eqn:E; try discriminate Hb.
    apply check_capacity_committed_ok in E. injection Hb as <-.
    apply chain_sound_unfold. cbn. unfold sound. cbn.
    intuition (try discriminate; lia).
  - unfold owning in Hb.
    destruct (check_capacity_committed cap com) eqn:E; try discriminate Hb.
    apply check_capacity_committed_ok in E. injection Hb as <-.
    apply chain_sound_unfold. cbn. unfold sound. cbn. intuition lia.
  - pose proof (calculate_capacity_range cap).
    apply chain_sound_unfold. cbn. unfold sound. cbn. intuition lia.
  - exact IH.
  - apply chain_sound_unfold. cbn. unfold sound. cbn.
    intuition (try discriminate; lia).
  - apply (chain_sound_next b b' IH Hn).
  - apply (exec_keeps NDEBUG header_size decode_item op b b' IH (Hr eq_refl) He).
Qed.

(** C7 (amended): in every buffer that a program reaches through the
    constructors, [reserve_space], [commit], [rollback], [clear], [grow],
    the chaining growth, [purge_removed], [add_item] and moves, [written]
    is at least [committed] and [committed] is at most the capacity,
    provided that no request makes [written + n] wrap around in
    [std::size_t] and that [purge_removed] is called on a committed part
    made of records. *)
Theorem buffer_invariant (NDEBUG : bool) (header_size : nat)
    (decode_item : list byte -> Item) (b : t) :
  reachable NDEBUG header_size decode_item true b -> invariant b.
Proof.
  intros H. apply reachable_chain_sound, chain_sound_top in H.
  unfold sound in H. unfold invariant. lia.
Qed.

Lemma buffer_invariant_witness :
  exists b,
    reserve_space false 8 (allocating 64 yes) = returns 0 b /\
    reachable false 2 example_decode_item true b /\
    m_written b = 8 /\ m_committed b = 0 /\ invariant b.
Proof.
  assert (exists b, reserve_space false 8 (allocating 64 yes) = returns 0 b
                    /\ m_written b = 8 /\ m_committed b = 0)
    as (b & Hr & Hw & Hc).
  { eexists. split; [vm_compute; reflexivity|]. split; reflexivity. }
  assert (reachable false 2 example_decode_item true b) as Hreach.
  { apply (reach_exec false 2 example_decode_item true (op_reserve_space 8)
             (allocating 64 yes) b).
    - apply reach_allocating. lia.
    - intros _. cbn. lia.
    - cbn [exec]. rewrite Hr. reflexivity. }
  exists b. split; [exact Hr|]. split; [exact Hreach|].
  split; [exact Hw|]. split; [exact Hc|].
  apply (buffer_invariant false 2 example_decode_item b Hreach).
Defined.

(** C7 as stated fails: after 8 bytes have been reserved and committed,
    a request for 2^64 - 8 bytes wraps [written] around to 0, below
    [committed]. *)
Lemma buffer_invariant_counterexample :
  exists b,
    reachable false 2 example_decode_item false b /\
    m_written b = 0 /\ m_committed b = 8 /\ ~ invariant b.
Proof.
  assert (exists b,
            exec false 2 example_decode_item
                 (op_reserve_space (2 ^ 64 - 8))
                 (with_committed (with_written (allocating 64 yes) 8) 8)
            = Some b /\ m_written b = 0 /\ m_committed b = 8)
    as (b & He & Hw & Hc).
  { eexists. split; [vm_compute; reflexivity|]. split; reflexivity. }
  exists b. split; [|split; [exact Hw|split; [exact Hc|]]].
  - apply (reach_exec false 2 example_decode_item false
             (op_reserve_space (2 ^ 64 - 8))
             (with_committed (with_written (allocating 64 yes) 8) 8) b);
      [|discriminate|exact He].
    apply (reach_exec false 2 example_decode_item false op_commit
             (with_written (allocating 64 yes) 8)
             (with_committed (with_written (allocating 64 yes) 8) 8));
      [|discriminate|vm_compute; reflexivity].
    apply (reach_exec false 2 example_decode_item false (op_reserve_space 8)
             (allocating 64 yes) (with_written (allocating 64 yes) 8));
      [|discriminate|vm_compute; reflexivity].
    apply reach_allocating. lia.
  - unfold invariant. rewrite Hw, Hc. lia.
Qed.

(** ** Buffer: the doubling loop *)

Lemma uint64_double c j :
  0 <= j -> uint64 (uint64 (c * 2) * 2 ^ j) = uint64 (c * 2 ^ (j + 1)).
Proof.
  intros Hj. unfold uint64. rewrite Z.mul_mod_idemp_l by lia.
  rewrite Z.pow_add_r by lia. f_equal. lia.
Qed.

(** The checks that the loop has made when it has used up its rounds. *)
Lemma double_capacity_none n need c :
  0 <= c < 2 ^ 64 -> double_capacity n need c = None ->
  forall j, 0 <= j <= Z.of_nat n -> need > uint64 (c * 2 ^ j).
Proof.
  revert c. induction n as [|n IH]; intros c Hc H j Hj;
    cbn [double_capacity] in H;
    destruct (Z.gtb_spec need c) as [Hgt|]; try discriminate H.
  - replace j with 0 by lia. rewrite Z.mul_1_r, uint64_small; lia.
  - destruct (Z.eq_dec j 0) as [->|Hj0].
    + rewrite Z.mul_1_r, uint64_small; lia.
    + replace j with (j - 1 + 1) by lia. rewrite <- uint64_double by lia.
      apply IH; [apply Z.mod_pos_bound; reflexivity | exact H | lia].
Qed.

Lemma double_capacity_all n need c :
  0 <= c < 2 ^ 64 -> (forall j, 0 <= j -> need > uint64 (c * 2 ^ j)) ->
  double_capacity n need c = None.
Proof.
  revert c. induction n as [|n IH]; intros c Hc H; cbn [double_capacity];
    pose proof (H 0 ltac:(lia)) as H0;
    rewrite Z.mul_1_r, uint64_small in H0 by lia;
    destruct (Z.gtb_spec need c); try lia; [reflexivity|].
  apply IH; [apply Z.mod_pos_bound; reflexivity|].
  intros j Hj. rewrite uint64_double by lia. apply H. lia.
Qed.

(** If the loop has not ended after 64 rounds, it never ends. *)
Lemma double_capacity_never need c :
  0 <= c < 2 ^ 64 -> double_capacity 64 need c = None ->
  forall n, double_capacity n need c = None.
Proof.
  intros Hc H n. apply double_capacity_all; [exact Hc|].
  intros j Hj. destruct (Z.le_gt_cases j 64) as [Hle|Hgt].
  - apply (double_capacity_none 64 need c Hc H). lia.
  - pose proof (double_capacity_none 64 need c Hc H 64 ltac:(lia)) as H64.
    replace (uint64 (c * 2 ^ j)) with (uint64 (c * 2 ^ 64)); [exact H64|].
    unfold uint64. rewrite (Z.mod_mul c (2 ^ 64)) by lia.
    replace j with (64 + (j - 64)) by lia. rewrite Z.pow_add_r by lia.
    replace (c * (2 ^ 64 * 2 ^ (j - 64))) with (c * 2 ^ (j - 64) * 2 ^ 64)
      by lia.
    symmetry. apply Z.mod_mul. lia.
Qed.

(** * Further properties of the code *)

(** Closed comparisons of numbers, by evaluation. *)
Ltac by_compute :=
  vm_compute;
  repeat match goal with |- _ /\ _ => split end;
  first [reflexivity | discriminate].

(** ** ReferenceTable: strings that are too long *)

Lemma allocated_not_empty (r : ReferenceTable.t) :
  ReferenceTable.empty (ReferenceTable.allocated r) = false.
Proof.
  unfold ReferenceTable.allocated.
  destruct (ReferenceTable.empty (ReferenceTable.m_table r)) eqn:E;
    [|exact E].
  apply empty_length. rewrite table_size_eq.
  pose proof (length_resize 3840000 ltac:(lia)). lia.
Qed.

(** [add] looks at the string only through [allocated], and at the
    cursor. *)
Lemma add_ext (r r' : ReferenceTable.t) s n :
  ReferenceTable.current_entry r = ReferenceTable.current_entry r' ->
  ReferenceTable.allocated r = ReferenceTable.allocated r' ->
  ReferenceTable.add r s n = ReferenceTable.add r' s n.
Proof.
  intros Hc Ha. unfold ReferenceTable.add.
  change (if ReferenceTable.empty (ReferenceTable.m_table r)
          then ReferenceTable.resize
                 (uint64 (ReferenceTable.entry_size *
                          ReferenceTable.number_of_entries))
          else ReferenceTable.m_table r)
    with (ReferenceTable.allocated r).
  change (if ReferenceTable.empty (ReferenceTable.m_table r')
          then ReferenceTable.resize
                 (uint64 (ReferenceTable.entry_size *
                          ReferenceTable.number_of_entries))
          else ReferenceTable.m_table r')
    with (ReferenceTable.allocated r').
  rewrite Hc, Ha. reflexivity.
Qed.

Lemma allocated_add_long (r : ReferenceTable.t) s n :
  ReferenceTable.max_length < n ->
  ReferenceTable.allocated (ReferenceTable.add r s n)
  = ReferenceTable.allocated r.
Proof.
  intros Hn. unfold ReferenceTable.allocated at 1. rewrite add_table.
  destruct (Z.leb_spec n ReferenceTable.max_length); [lia|].
  rewrite allocated_not_empty. reflexivity.
Qed.

Lemma add_all_skips (l : list (list byte)) :
  forall r r' : ReferenceTable.t,
    ReferenceTable.current_entry r = ReferenceTable.current_entry r' ->
    ReferenceTable.allocated r = ReferenceTable.allocated r' ->
    ReferenceTable.current_entry (ReferenceTable.add_all r l)
    = ReferenceTable.current_entry
        (ReferenceTable.add_all r' (filter ReferenceTable.short l)) /\
    ReferenceTable.allocated (ReferenceTable.add_all r l)
    = ReferenceTable.allocated
        (ReferenceTable.add_all r' (filter ReferenceTable.short l)).
Proof.
  induction l as [|s l IH]; intros r r' Hc Ha.
  - split; assumption.
  - destruct (decide (ReferenceTable.short s)) as [Hs|Hs].
    + rewrite filter_cons_True by exact Hs.
      cbn [ReferenceTable.add_all foldl].
      rewrite (add_ext r r' _ _ Hc Ha). apply IH; reflexivity.
    + rewrite filter_cons_False by exact Hs.
      cbn [ReferenceTable.add_all foldl].
      unfold ReferenceTable.short in Hs.
      apply IH.
      * rewrite add_current_long by lia. exact Hc.
      * rewrite allocated_add_long by lia. exact Ha.
Qed.

Lemma add_all_keeps_storage (l : list (list byte)) :
  forall r : ReferenceTable.t,
    ReferenceTable.m_table r <> [] ->
    ReferenceTable.m_table (ReferenceTable.add_all r l) <> [].
Proof.
  induction l as [|s l IH]; intros r Hr; [exact Hr|].
  cbn [ReferenceTable.add_all foldl]. apply IH.
  rewrite add_table, (allocated_nonempty r Hr).
  destruct (Z.of_nat (length s) <=? ReferenceTable.max_length);
    [|exact Hr].
  intros E. apply (f_equal length) in E.
  unfold ReferenceTable.copy_n in E. rewrite length_inserts in E.
  destruct (ReferenceTable.m_table r); [contradiction | discriminate E].
Qed.

(** X1: a string of more than 252 bytes is not stored.  Inserting a
    sequence of strings leaves the cursor and the contents of the table
    as inserting only its strings of at most 252 bytes does, and on a
    table that has its storage every [get] gives the same result. *)
Theorem add_all_skips_long (r : ReferenceTable.t) (l : list (list byte)) :
  let r1 := ReferenceTable.add_all r l in
  let r2 := ReferenceTable.add_all r (filter ReferenceTable.short l) in
  ReferenceTable.current_entry r1 = ReferenceTable.current_entry r2 /\
  ReferenceTable.allocated r1 = ReferenceTable.allocated r2 /\
  (ReferenceTable.m_table r <> [] ->
   forall index, ReferenceTable.get r1 index = ReferenceTable.get r2 index).
Proof.
  intros r1 r2.
  destruct (add_all_skips l r r eq_refl eq_refl) as [Hc Ha].
  split; [exact Hc|]. split; [exact Ha|].
  intros Hr index.
  pose proof (add_all_keeps_storage l r Hr) as H1.
  pose proof (add_all_keeps_storage (filter ReferenceTable.short l) r Hr)
    as H2.
  rewrite (allocated_nonempty _ H1), (allocated_nonempty _ H2) in Ha.
  subst r1 r2. unfold ReferenceTable.get. rewrite Hc, Ha. reflexivity.
Qed.

Lemma add_all_skips_long_witness :
  ReferenceTable.current_entry
    (ReferenceTable.add_all ReferenceTable.init [replicate 253 x61; [x62; x00]])
  = ReferenceTable.current_entry
      (ReferenceTable.add_all ReferenceTable.init [[x62; x00]]).
Proof.
  exact (proj1 (add_all_skips_long ReferenceTable.init
                  [replicate 253 x61; [x62; x00]])).
Defined.

(** ** O5mParser: tags *)

Import O5mParser.

Lemma byte_eqb_x00 c : c <> x00 -> Byte.eqb c x00 = false.
Proof.
  intros H. destruct (byte_eqb_reflect c x00); [contradiction|reflexivity].
Qed.

Lemma scan_while_string tbl what k rest :
  no_nul k -> scan_while tbl what (k ++ x00 :: rest) = Ok rest.
Proof.
  induction 1 as [|c k Hc _ IH]; [reflexivity|].
  cbn [app scan_while]. rewrite (byte_eqb_x00 c Hc).
  replace (ReferenceTable.empty (k ++ x00 :: rest)) with false
    by (destruct k; reflexivity).
  rewrite andb_false_r. exact IH.
Qed.

Lemma cstr_string k rest : no_nul k -> cstr (k ++ x00 :: rest) = k.
Proof.
  induction 1 as [|c k Hc _ IH]; [reflexivity|].
  cbn [app cstr]. rewrite (byte_eqb_x00 c Hc), IH. reflexivity.
Qed.

(** [add] copies the first [size] bytes only. *)
Lemma add_prefix (r : ReferenceTable.t) s rest :
  ReferenceTable.add r (s ++ rest) (Z.of_nat (length s))
  = ReferenceTable.add r s (Z.of_nat (length s)).
Proof.
  unfold ReferenceTable.add, ReferenceTable.copy_n.
  rewrite Nat2Z.id, take_app_length, firstn_all. reflexivity.
Qed.

(** A round of the loop of [decode_tags] on a tag that is given
    inline. *)
Lemma decode_tags_loop_inline n t data table acc :
  no_nul t.1 -> no_nul t.2 ->
  decode_tags_loop (S n) (inline_tag t ++ data) table acc
  = decode_tags_loop n data
      (ReferenceTable.add table (tag_pair t) (Z.of_nat (length (tag_pair t))))
      (acc ++ [t]).
Proof.
  intros Hk Hv. destruct t as [k v]. cbn [fst snd] in *.
  replace (inline_tag (k, v) ++ data) with (x00 :: k ++ x00 :: v ++ x00 :: data).
  2:{ unfold inline_tag, tag_pair. cbn [fst snd app].
      rewrite <- app_assoc. cbn [app]. rewrite <- app_assoc. reflexivity. }
  unfold tag_pair. cbn [fst snd decode_tags_loop decode_string].
  change (Byte.eqb x00 x00) with true. cbn match.
  replace (ReferenceTable.empty (k ++ x00 :: v ++ x00 :: data)) with false
    by (destruct k; reflexivity).
  cbn [mbind result_mbind result_bind in_table bytes negb andb].
  rewrite (scan_while_string false _ k _ Hk).
  cbn [mbind result_mbind result_bind].
  replace (ReferenceTable.empty (v ++ x00 :: data)) with false
    by (destruct v; reflexivity).
  rewrite (scan_while_string false _ v _ Hv).
  cbn [mbind result_mbind result_bind].
  rewrite (cstr_string k _ Hk), (cstr_string v _ Hv).
  f_equal.
  replace (distance (k ++ x00 :: v ++ x00 :: data) data)
    with (Z.of_nat (length (k ++ x00 :: v ++ [x00]))).
  2:{ unfold distance. rewrite !length_app. cbn [length].
      rewrite !length_app. cbn [length]. lia. }
  replace (k ++ x00 :: v ++ x00 :: data)
    with ((k ++ x00 :: v ++ [x00]) ++ data)
    by (rewrite <- app_assoc; cbn; rewrite <- app_assoc; reflexivity).
  apply add_prefix.
Qed.

Lemma decode_tags_loop_inlines tags :
  Forall (fun t : Tag => no_nul t.1 /\ no_nul t.2) tags ->
  forall m data table acc,
    decode_tags_loop (length tags + m) (concat (map inline_tag tags) ++ data)
                     table acc
    = decode_tags_loop m data
        (ReferenceTable.add_all table (map tag_pair tags)) (acc ++ tags).
Proof.
  induction 1 as [|t tags [Hk Hv] _ IH]; intros m data table acc.
  - cbn. rewrite app_nil_r. reflexivity.
  - cbn [map concat length Nat.add]. rewrite <- app_assoc.
    rewrite (decode_tags_loop_inline _ t _ table acc Hk Hv), IH.
    rewrite <- app_assoc. reflexivity.
Qed.

Lemma length_inline_tags (tags : list Tag) :
  (length tags <= length (concat (map inline_tag tags)))%nat.
Proof.
  induction tags as [|t tags IH]; [reflexivity|].
  cbn [map concat]. rewrite length_app. cbn [inline_tag length]. lia.
Qed.

(** X2: tags that are given inline are decoded as they are written.
    On a payload made of tags written as 0x00, key, 0x00, value, 0x00,
    with no NUL byte inside a key or a value, [decode_tags] returns the
    tags in their order, whatever the table holds, and passes each pair
    to the reference table, in the same order. *)
Theorem decode_tags_inline (tags : list Tag) (table : ReferenceTable.t) :
  Forall (fun t : Tag => no_nul t.1 /\ no_nul t.2) tags ->
  decode_tags (concat (map inline_tag tags)) table
  = Ok (tags, ReferenceTable.add_all table (map tag_pair tags)).
Proof.
  intros H. unfold decode_tags.
  pose proof (length_inline_tags tags) as Hlen.
  replace (length (concat (map inline_tag tags)))
    with (length tags + (length (concat (map inline_tag tags)) - length tags))%nat
    by lia.
  rewrite <- (app_nil_r (concat (map inline_tag tags))) at 2.
  rewrite (decode_tags_loop_inlines tags H).
  destruct (_ - _)%nat; reflexivity.
Qed.

Lemma decode_tags_inline_witness :
  decode_tags [x00; x61; x00; x62; x00] ReferenceTable.init
  = Ok ([([x61], [x62])],
        ReferenceTable.add_all ReferenceTable.init [[x61; x00; x62; x00]]).
Proof.
  apply (decode_tags_inline [([x61], [x62])] ReferenceTable.init).
  repeat constructor; discriminate.
Defined.

(** A varint of one byte. *)
Lemma decode_varint_byte b rest :
  byte_val b < 128 -> decode_varint (b :: rest) = Ok (byte_val b, rest).
Proof.
  intros Hb. pose proof (byte_val_range b) as Hr.
  unfold decode_varint. change (Z.to_nat max_varint_length) with 10%nat.
  cbn [decode_varint_impl].
  destruct (Z.ltb_spec (byte_val b) 128); [|lia].
  rewrite Z.shiftl_0_r, Z.lor_0_l.
  change 127 with (Z.ones 7). rewrite Z.land_ones by lia.
  rewrite Z.mod_small by (change (2 ^ 7) with 128; lia).
  rewrite uint64_small by lia. reflexivity.
Qed.

(** The [k] most recent of the strings inserted into any table can be
    fetched. *)
Lemma add_all_get_from (r : ReferenceTable.t) l k :
  ReferenceTable.table_ok r -> Forall ReferenceTable.short l ->
  1 <= k <= Z.min (Z.of_nat (length l)) ReferenceTable.number_of_entries ->
  exists s p,
    l !! Z.to_nat (Z.of_nat (length l) - k) = Some s /\
    ReferenceTable.get (ReferenceTable.add_all r l) k = Ok p /\
    take (length s) p = s.
Proof.
  intros H0 Hl Hk.
  pose proof (add_all_ok r l H0) as Hok.
  pose proof (add_all_current r l H0 Hl) as Hcur.
  assert (l <> []) as Hne by (intros ->; cbn in Hk; lia).
  pose proof (add_all_not_empty r l H0 Hne) as Hemp.
  set (N := Z.of_nat (length l)) in *.
  destruct (lookup_lt_is_Some_2 l (Z.to_nat (N - k))) as [s Hs]; [lia|].
  exists s. eexists. split; [exact Hs|]. split.
  - apply get_ok; [apply Hok | exact Hemp | lia].
  - pose proof (add_all_slots r l _ s H0 Hl Hs) as Hslot.
    fold N in Hslot. rewrite Hcur.
    replace ((((ReferenceTable.current_entry r + N)
                 mod ReferenceTable.number_of_entries
               + ReferenceTable.number_of_entries - k)
              mod ReferenceTable.number_of_entries))
      with ((ReferenceTable.current_entry r + Z.of_nat (Z.to_nat (N - k)))
              mod ReferenceTable.number_of_entries).
    { apply Hslot. lia. }
    unfold ReferenceTable.number_of_entries in *. rewrite Z2Nat.id by lia.
    rewrite <- Z.add_sub_assoc, Zplus_mod_idemp_l.
    replace (ReferenceTable.current_entry r + N + (15000 - k))
      with (ReferenceTable.current_entry r + (N - k) + 1 * 15000) by lia.
    symmetry. apply Z_mod_plus_full.
Qed.

(** X3: a tag that was given inline can be referred to.  After tags
    written inline, each of at most 252 bytes with its terminators, a
    reference with the one-byte index [j] (at most the number of those
    tags) is decoded as the [j]-th most recent of them; the reference
    itself adds nothing to the table. *)
Theorem decode_tags_reference (tags : list Tag) (table : ReferenceTable.t)
    (b : byte) (t : Tag) :
  ReferenceTable.table_ok table ->
  Forall (fun t : Tag => no_nul t.1 /\ no_nul t.2 /\
                         ReferenceTable.short (tag_pair t)) tags ->
  1 <= byte_val b < 128 -> byte_val b <= Z.of_nat (length tags) ->
  tags !! Z.to_nat (Z.of_nat (length tags) - byte_val b) = Some t ->
  decode_tags (concat (map inline_tag tags) ++ [b]) table
  = Ok (tags ++ [t], ReferenceTable.add_all table (map tag_pair tags)).
Proof.
  intros Hok Htags Hb Hn Ht.
  assert (Forall (fun t : Tag => no_nul t.1 /\ no_nul t.2) tags) as Hnul.
  { eapply Forall_impl; [exact Htags|]. intros ? (?&?&?). split; assumption. }
  assert (Forall ReferenceTable.short (map tag_pair tags)) as Hshort.
  { apply Forall_fmap. eapply Forall_impl; [exact Htags|].
    intros ? (?&?&?). assumption. }
  unfold decode_tags.
  pose proof (length_inline_tags tags) as Hlen.
  replace (length (concat (map inline_tag tags) ++ [b]))
    with (length tags
          + S (length (concat (map inline_tag tags)) - length tags))%nat
    by (rewrite length_app; cbn [length]; lia).
  rewrite (decode_tags_loop_inlines tags Hnul).
  set (table' := ReferenceTable.add_all table (map tag_pair tags)).
  destruct (add_all_get_from table (map tag_pair tags) (byte_val b) Hok Hshort)
    as (s & p & Hs & Hget & Htake).
  { rewrite length_map. unfold ReferenceTable.number_of_entries. lia. }
  rewrite length_map, list_lookup_fmap, Ht in Hs. cbn in Hs.
  injection Hs as <-. fold table' in Hget.
  assert (b <> x00) as Hb0 by (intros ->; cbn in Hb; lia).
  destruct t as [k v]. destruct (Forall_lookup_1 _ _ _ _ Hnul Ht) as [Hk Hv].
  cbn [fst snd] in Hk, Hv.
  assert (p = k ++ x00 :: v ++ x00 :: drop (length (tag_pair (k, v))) p) as Hp.
  { rewrite <- (take_drop (length (tag_pair (k, v))) p) at 1.
    rewrite Htake. unfold tag_pair. cbn [fst snd].
    rewrite <- app_assoc. cbn [app]. rewrite <- app_assoc. reflexivity. }
  cbn [decode_tags_loop decode_string].
  rewrite (byte_eqb_x00 b Hb0).
  rewrite (decode_varint_byte b []) by lia.
  cbn [mbind result_mbind result_bind]. rewrite Hget.
  cbn [mbind result_mbind result_bind in_table bytes negb andb].
  rewrite Hp.
  rewrite (scan_while_string true _ k _ Hk).
  cbn [mbind result_mbind result_bind].
  rewrite (scan_while_string true _ v _ Hv).
  cbn [mbind result_mbind result_bind].
  rewrite (cstr_string k _ Hk), (cstr_string v _ Hv).
  destruct (_ - _)%nat; reflexivity.
Qed.

Lemma decode_tags_reference_witness :
  decode_tags ([x00; x61; x00; x62; x00] ++ [x00; x63; x00; x64; x00] ++ [x02])
              ReferenceTable.init
  = Ok ([([x61], [x62]); ([x63], [x64]); ([x61], [x62])],
        ReferenceTable.add_all ReferenceTable.init
          [[x61; x00; x62; x00]; [x63; x00; x64; x00]]).
Proof.
  apply (decode_tags_reference [([x61], [x62]); ([x63], [x64])]
           ReferenceTable.init x02 ([x61], [x62]) table_ok_init).
  - repeat constructor; try discriminate;
      unfold ReferenceTable.short, ReferenceTable.max_length; cbn; lia.
  - cbn. lia.
  - cbn. lia.
  - reflexivity.
Defined.

Lemma scan_while_unterminated what k :
  no_nul k -> k <> [] -> scan_while false what k = Throw (o5m_error what).
Proof.
  induction 1 as [|c k Hc Hk IH]; intros Hne; [contradiction|].
  cbn [scan_while]. rewrite (byte_eqb_x00 c Hc). cbn [negb andb].
  destruct k as [|c' k]; [reflexivity|]. cbn [ReferenceTable.empty].
  apply IH. discriminate.
Qed.

(** X4: tags that are cut short are reported.  After any number of tags
    given inline, a payload that ends after the 0x00 that opens a tag, in
    a key, after a key or in a value makes [decode_tags] throw the
    [o5m_error] of that place. *)
Theorem decode_tags_truncated (tags : list Tag) (k v : list byte)
    (table : ReferenceTable.t) :
  Forall (fun t : Tag => no_nul t.1 /\ no_nul t.2) tags ->
  no_nul k -> no_nul v ->
  let good := concat (map inline_tag tags) in
  decode_tags (good ++ [x00]) table
    = Throw (o5m_error "string format error") /\
  (k <> [] ->
   decode_tags (good ++ x00 :: k) table
     = Throw (o5m_error "no null byte in tag key")) /\
  decode_tags (good ++ x00 :: k ++ [x00]) table
    = Throw (o5m_error "no null byte in tag value") /\
  (v <> [] ->
   decode_tags (good ++ x00 :: k ++ x00 :: v) table
     = Throw (o5m_error "no null byte in tag value")).
Proof.
  intros Htags Hk Hv good.
  assert (forall bad,
            decode_tags (good ++ x00 :: bad) table
            = decode_tags_loop
                (S (length good - length tags + length bad))
                (x00 :: bad)
                (ReferenceTable.add_all table (map tag_pair tags)) tags)
    as Hstep.
  { intros bad. unfold decode_tags.
    pose proof (length_inline_tags tags) as Hlen. fold good in Hlen.
    replace (length (good ++ x00 :: bad))
      with (length tags + S (length good - length tags + length bad))%nat
      by (rewrite length_app; cbn [length]; lia).
    apply (decode_tags_loop_inlines tags Htags). }
  repeat split.
  - rewrite Hstep. reflexivity.
  - intros Hne. rewrite Hstep. cbn [decode_tags_loop decode_string].
    change (Byte.eqb x00 x00) with true. cbn match.
    destruct k as [|c k]; [contradiction|]. cbn [ReferenceTable.empty].
    cbn [mbind result_mbind result_bind in_table bytes].
    rewrite scan_while_unterminated by (assumption || discriminate).
    reflexivity.
  - rewrite Hstep. cbn [decode_tags_loop decode_string].
    change (Byte.eqb x00 x00) with true. cbn match.
    replace (ReferenceTable.empty (k ++ [x00])) with false
      by (destruct k; reflexivity).
    cbn [mbind result_mbind result_bind in_table bytes].
    rewrite (scan_while_string false _ k [] Hk). reflexivity.
  - intros Hne. rewrite Hstep. cbn [decode_tags_loop decode_string].
    change (Byte.eqb x00 x00) with true. cbn match.
    replace (ReferenceTable.empty (k ++ x00 :: v)) with false
      by (destruct k; reflexivity).
    cbn [mbind result_mbind result_bind in_table bytes].
    rewrite (scan_while_string false _ k v Hk).
    cbn [mbind result_mbind result_bind negb andb].
    destruct v as [|c v]; [contradiction|]. cbn [ReferenceTable.empty].
    rewrite scan_while_unterminated by (assumption || discriminate).
    reflexivity.
Qed.

Lemma decode_tags_truncated_witness :
  decode_tags [x00; x61; x00] ReferenceTable.init
  = Throw (o5m_error "no null byte in tag value").
Proof.
  assert (no_nul [x61]) as Hk by (repeat constructor; discriminate).
  exact (proj1 (proj2 (proj2
           (decode_tags_truncated [] [x61] [] ReferenceTable.init
              (Forall_nil_2 _) Hk (Forall_nil_2 _))))).
Defined.

(** ** O5mParser: users *)

Lemma scan_do_while_string tbl what name rest :
  no_nul name -> scan_do_while tbl what (name ++ x00 :: rest) = Ok rest.
Proof.
  induction 1 as [|c k Hc _ IH]; [reflexivity|].
  cbn [app scan_do_while]. rewrite (byte_eqb_x00 c Hc). exact IH.
Qed.

Lemma scan_do_while_unterminated what name :
  no_nul name -> scan_do_while false what name = Throw (o5m_error what).
Proof.
  induction 1 as [|c k Hc _ IH]; [reflexivity|].
  cbn [scan_do_while]. rewrite (byte_eqb_x00 c Hc). exact IH.
Qed.

(** The first steps of [decode_user] on a user that is given inline,
    with the uid in the bytes [u]. *)
Lemma decode_user_inline_uid u uid tail table :
  holds_varint u uid ->
  decode_user (x00 :: u ++ tail) table
  = if uid >? user_id_type_max then Throw (o5m_error "uid out of range")
    else
      match tail with
      | [] => Throw (o5m_error "missing user name")
      | _ :: user =>
        if uid =? 0 then
          Ok (0, [], user, ReferenceTable.add table [x00; x00] 2)
        else
          data ← scan_do_while false "no null byte in user name" user;
          Ok (uid, cstr user, data,
              ReferenceTable.add table (u ++ tail) (distance (u ++ tail) data))
      end.
Proof.
  intros Hu.
  assert (u <> []) as Hne.
  { intros ->. specialize (Hu []). discriminate Hu. }
  cbn [decode_user decode_string].
  change (Byte.eqb x00 x00) with true. cbn match.
  replace (ReferenceTable.empty (u ++ tail)) with false
    by (destruct u; [contradiction | reflexivity]).
  cbn [mbind result_mbind result_bind].
  unfold decode_varint_at. cbn [bytes in_table]. rewrite Hu.
  cbn [mbind result_mbind result_bind].
  destruct (uid >? user_id_type_max); [reflexivity|].
  unfold at_end. cbn [bytes in_table negb andb].
  destruct tail as [|sep user]; [reflexivity|]. cbn [ReferenceTable.empty].
  rewrite andb_true_r. reflexivity.
Qed.

(** X5: a user that is given inline.  On 0x00, a uid other than 0 as a
    varint, one byte, the name and its terminator, [decode_user] returns
    the uid and the name, leaves the cursor after the terminator and
    passes the bytes from the uid to the terminator to the reference
    table.  The byte between the uid and the name is skipped whatever it
    is. *)
Theorem decode_user_inline (u : list byte) (uid : Z) (sep : byte)
    (name rest : list byte) (table : ReferenceTable.t) :
  holds_varint u uid ->
  0 < uid <= user_id_type_max -> no_nul name ->
  let stored := u ++ sep :: name ++ [x00] in
  decode_user (x00 :: stored ++ rest) table
  = Ok (uid, name, rest,
        ReferenceTable.add table stored (Z.of_nat (length stored))).
Proof.
  intros Hu Huid Hname stored.
  replace (stored ++ rest) with (u ++ sep :: name ++ x00 :: rest).
  2:{ unfold stored. rewrite <- app_assoc. cbn [app].
      rewrite <- app_assoc. reflexivity. }
  rewrite (decode_user_inline_uid u uid _ table Hu).
  destruct (Z.gtb_spec uid user_id_type_max); [lia|].
  destruct (Z.eqb_spec uid 0); [lia|].
  rewrite (scan_do_while_string false _ name rest Hname).
  cbn [mbind result_mbind result_bind].
  rewrite (cstr_string name rest Hname). do 2 f_equal.
  replace (distance (u ++ sep :: name ++ x00 :: rest) rest)
    with (Z.of_nat (length stored)).
  2:{ unfold distance, stored. rewrite !length_app. cbn [length].
      rewrite !length_app. cbn [length]. lia. }
  replace (u ++ sep :: name ++ x00 :: rest) with (stored ++ rest).
  2:{ unfold stored. rewrite <- app_assoc. cbn [app].
      rewrite <- app_assoc. reflexivity. }
  apply add_prefix.
Qed.

Lemma decode_user_inline_witness :
  decode_user (x00 :: [x07; x00; x61; x00] ++ [xff]) ReferenceTable.init
  = Ok (7, [x61], [xff],
        ReferenceTable.add ReferenceTable.init [x07; x00; x61; x00] 4).
Proof.
  apply (decode_user_inline [x07] 7 x00 [x61] [xff] ReferenceTable.init).
  - intros tail. reflexivity.
  - unfold user_id_type_max. lia.
  - repeat constructor. discriminate.
Defined.

(** X6: the anonymous user.  On 0x00, the uid 0 and one more byte,
    [decode_user] returns the uid 0 and the empty name, consumes these
    three bytes and no more, whatever follows, and adds two NUL bytes to
    the reference table. *)
Theorem decode_user_anonymous (sep : byte) (rest : list byte)
    (table : ReferenceTable.t) :
  decode_user (x00 :: x00 :: sep :: rest) table
  = Ok (0, [], rest, ReferenceTable.add table [x00; x00] 2).
Proof.
  apply (decode_user_inline_uid [x00] 0 (sep :: rest) table).
  intros tail. reflexivity.
Qed.

(** X7: what [decode_user] rejects in a user that is given inline: a
    uid above 2^32 - 1, a payload that ends with the uid, and, for a uid
    other than 0, a name without its terminator. *)
Theorem decode_user_rejects (u : list byte) (uid : Z) (sep : byte)
    (name : list byte) (table : ReferenceTable.t) :
  holds_varint u uid ->
  no_nul name ->
  (uid > user_id_type_max ->
   forall tail,
     decode_user (x00 :: u ++ tail) table
     = Throw (o5m_error "uid out of range")) /\
  (uid <= user_id_type_max ->
   decode_user (x00 :: u ++ []) table
   = Throw (o5m_error "missing user name")) /\
  (uid <= user_id_type_max -> uid <> 0 ->
   decode_user (x00 :: u ++ sep :: name) table
   = Throw (o5m_error "no null byte in user name")).
Proof.
  intros Hu Hname. repeat split.
  - intros Huid tail. rewrite (decode_user_inline_uid u uid tail table Hu).
    destruct (Z.gtb_spec uid user_id_type_max); [reflexivity|lia].
  - intros Huid. rewrite (decode_user_inline_uid u uid [] table Hu).
    destruct (Z.gtb_spec uid user_id_type_max); [lia|reflexivity].
  - intros Huid H0. rewrite (decode_user_inline_uid u uid _ table Hu).
    destruct (Z.gtb_spec uid user_id_type_max); [lia|].
    destruct (Z.eqb_spec uid 0); [lia|].
    rewrite (scan_do_while_unterminated _ name Hname). reflexivity.
Qed.

Lemma decode_user_rejects_witness :
  decode_user (x00 :: [x80; x80; x80; x80; x10] ++ [x00; x61; x00])
              ReferenceTable.init
  = Throw (o5m_error "uid out of range").
Proof.
  assert (holds_varint [x80; x80; x80; x80; x10] (2 ^ 32)) as Hu
    by (intros tail; reflexivity).
  apply (proj1 (decode_user_rejects [x80; x80; x80; x80; x10] (2 ^ 32) x00 []
                  ReferenceTable.init Hu (Forall_nil_2 _))).
  unfold user_id_type_max. lia.
Defined.

(** X8: a user that was given inline can be referred to.  After the
    table was given the bytes [stored] of an inline user (uid, one byte,
    name, terminator; at most 252 bytes), a reference with index 1
    yields the same uid and name, moves the cursor past the reference
    only and leaves the table as it is. *)
Theorem decode_user_reference (u : list byte) (uid : Z) (sep : byte)
    (name rest : list byte) (table : ReferenceTable.t) :
  ReferenceTable.table_ok table ->
  holds_varint u uid ->
  0 <= uid <= user_id_type_max -> no_nul name ->
  let stored := u ++ sep :: name ++ [x00] in
  ReferenceTable.short stored ->
  let table' := ReferenceTable.add table stored (Z.of_nat (length stored)) in
  decode_user (x01 :: rest) table' = Ok (uid, name, rest, table').
Proof.
  intros Hok Hu Huid Hname stored Hshort table'.
  destruct (add_all_get_from table [stored] 1 Hok)
    as (s & p & Hs & Hget & Htake).
  { constructor; [exact Hshort | constructor]. }
  { unfold ReferenceTable.number_of_entries. cbn. lia. }
  cbn in Hs. injection Hs as <-.
  change (ReferenceTable.add_all table [stored]) with table' in Hget.
  assert (p = u ++ sep :: name ++ x00 :: drop (length stored) p) as Hp.
  { rewrite <- (take_drop (length stored) p) at 1. rewrite Htake.
    unfold stored. rewrite <- app_assoc. cbn [app].
    rewrite <- app_assoc. reflexivity. }
  cbn [decode_user decode_string].
  change (Byte.eqb x01 x00) with false. cbn match.
  rewrite (decode_varint_byte x01 rest) by (cbn; lia).
  cbn [mbind result_mbind result_bind].
  change (byte_val x01) with 1. rewrite Hget.
  cbn [mbind result_mbind result_bind].
  unfold decode_varint_at. cbn [bytes in_table].
  rewrite Hp, Hu. cbn [mbind result_mbind result_bind].
  destruct (Z.gtb_spec uid user_id_type_max); [lia|].
  unfold at_end. cbn [bytes in_table negb andb].
  rewrite andb_false_r.
  rewrite (scan_do_while_string true _ name _ Hname).
  cbn [mbind result_mbind result_bind].
  rewrite (cstr_string name _ Hname). reflexivity.
Qed.

Lemma decode_user_reference_witness :
  let table' :=
    ReferenceTable.add ReferenceTable.init [x07; x00; x61; x00] 4 in
  decode_user [x01; xff] table' = Ok (7, [x61], [xff], table').
Proof.
  apply (decode_user_reference [x07] 7 x00 [x61] [xff] ReferenceTable.init
           table_ok_init).
  - intros tail. reflexivity.
  - unfold user_id_type_max. lia.
  - repeat constructor. discriminate.
  - unfold ReferenceTable.short, ReferenceTable.max_length. cbn. lia.
Defined.

(** ** O5mParser: ways *)

Lemma holds_zvarint_nonempty chunk z : holds_zvarint chunk z -> chunk <> [].
Proof. intros H ->. specialize (H []). discriminate H. Qed.

Lemma holds_varint_nonempty chunk v : holds_varint chunk v -> chunk <> [].
Proof. intros H ->. specialize (H []). discriminate H. Qed.

Lemma length_chunks chunks zs :
  Forall2 holds_zvarint chunks zs ->
  (length chunks <= length (concat chunks))%nat.
Proof.
  induction 1 as [|chunk z chunks zs H _ IH]; [reflexivity|].
  apply holds_zvarint_nonempty in H. cbn [concat length].
  rewrite length_app. destruct chunk; [contradiction|]. cbn [length]. lia.
Qed.

(** The loop over the node references, on a section made of zigzag
    varints. *)
Lemma decode_way_nodes_chunks chunks zs :
  Forall2 holds_zvarint chunks zs ->
  forall n rest d acc,
    (length chunks <= n)%nat ->
    decode_way_nodes n (length rest) (concat chunks ++ rest) d acc
    = Ok (acc ++ (updates d zs).1, rest, (updates d zs).2).
Proof.
  induction 1 as [|chunk z chunks zs H _ IH]; intros n rest d acc Hn.
  - cbn [concat app updates fst snd]. rewrite app_nil_r.
    destruct n; cbn [decode_way_nodes];
      rewrite (proj2 (Nat.ltb_ge _ _)) by lia; reflexivity.
  - pose proof (holds_zvarint_nonempty _ _ H) as Hne.
    destruct n as [|n]; [cbn [length] in Hn; lia|].
    cbn [concat decode_way_nodes]. rewrite <- app_assoc.
    rewrite (proj2 (Nat.ltb_lt _ _)).
    2:{ rewrite !length_app. destruct chunk; [contradiction|].
        cbn [length]. lia. }
    rewrite H. cbn [mbind result_mbind result_bind updates].
    destruct (DeltaDecode.update d z) as [v d'].
    rewrite IH by (cbn [length] in Hn; lia).
    destruct (updates d' zs) as [vs d'']. cbn [fst snd].
    rewrite <- app_assoc. reflexivity.
Qed.

Lemma with_delta_way_node_id_same st :
  with_delta_way_node_id st (m_delta_way_node_id st) = st.
Proof. destruct st. reflexivity. Qed.



(** ** O5mParser: relations *)

Lemma decode_member_type_char ty :
  decode_member_type (member_type_char ty) = Ok ty.
Proof. destruct ty; reflexivity. Qed.

(** [decode_role] on a role that is given inline. *)
Lemma decode_role_inline m rest table :
  no_nul m.2 ->
  decode_role (x00 :: role_string m ++ rest) table
  = Ok (m.1.2, m.2, rest,
        ReferenceTable.add table (role_string m)
                           (Z.of_nat (length (role_string m)))).
Proof.
  destruct m as [[delta ty] role]. cbn [fst snd]. intros Hrole.
  unfold role_string. cbn [fst snd app decode_role decode_string].
  change (Byte.eqb x00 x00) with true. cbn match.
  cbn [ReferenceTable.empty mbind result_mbind result_bind bytes in_table].
  rewrite decode_member_type_char. cbn [mbind result_mbind result_bind].
  rewrite <- app_assoc. cbn [app].
  replace (ReferenceTable.empty (role ++ x00 :: rest)) with false
    by (destruct role; reflexivity).
  cbn [negb andb]. rewrite (scan_while_string false _ role rest Hrole).
  cbn [mbind result_mbind result_bind].
  rewrite (cstr_string role rest Hrole). do 2 f_equal.
  replace (distance (member_type_char ty :: role ++ x00 :: rest) rest)
    with (Z.of_nat (length (member_type_char ty :: role ++ [x00]))).
  2:{ unfold distance. cbn [length]. rewrite !length_app. cbn [length]. lia. }
  replace (member_type_char ty :: role ++ x00 :: rest)
    with ((member_type_char ty :: role ++ [x00]) ++ rest)
    by (cbn [app]; rewrite <- app_assoc; reflexivity).
  apply add_prefix.
Qed.

Lemma with_members_same st :
  with_delta_member_ids
    (with_reference_table st (m_reference_table st))
    (m_delta_member_ids st) = st.
Proof. destruct st. reflexivity. Qed.

Lemma length_members chunks ms :
  Forall2 (fun chunk m => holds_zvarint chunk m.1.1 /\ no_nul m.2) chunks ms ->
  (length ms <= length (concat (zip_with inline_member chunks ms)))%nat.
Proof.
  induction 1 as [|chunk m chunks ms _ _ IH]; [reflexivity|].
  cbn [zip_with concat length]. rewrite length_app.
  unfold inline_member at 1. rewrite length_app. cbn [length]. lia.
Qed.

(** The loop over the members, on a section made of members that are
    given inline. *)
Lemma decode_members_inline chunks ms :
  Forall2 (fun chunk m => holds_zvarint chunk m.1.1 /\ no_nul m.2) chunks ms ->
  forall n rest st acc,
    (length ms <= n)%nat -> length (m_delta_member_ids st) = 3%nat ->
    decode_members n (length rest)
      (concat (zip_with inline_member chunks ms) ++ rest) st acc
    = Ok (acc ++ (member_updates (m_delta_member_ids st) ms).1, rest,
          with_delta_member_ids
            (with_reference_table st
               (ReferenceTable.add_all (m_reference_table st)
                  (map role_string ms)))
            (member_updates (m_delta_member_ids st) ms).2).
Proof.
  induction 1 as [|chunk m chunks ms [Hz Hrole] _ IH];
    intros n rest st acc Hn Hds.
  - cbn [zip_with concat app member_updates fst snd map
         ReferenceTable.add_all foldl].
    rewrite app_nil_r, with_members_same.
    destruct n; cbn [decode_members];
      rewrite (proj2 (Nat.ltb_ge _ _)) by lia; reflexivity.
  - destruct n as [|n]; [cbn [length] in Hn; lia|].
    cbn [zip_with concat decode_members]. rewrite <- app_assoc.
    rewrite (proj2 (Nat.ltb_lt _ _)).
    2:{ rewrite !length_app. unfold inline_member. rewrite length_app.
        cbn [length]. lia. }
    unfold inline_member at 1. rewrite <- app_assoc. rewrite Hz.
    cbn [mbind result_mbind result_bind app].
    rewrite (decode_role_inline m _ _ Hrole).
    cbn [mbind result_mbind result_bind].
    destruct m as [[delta ty] role]. cbn [fst snd member_updates map].
    cbn [m_delta_member_ids with_reference_table].
    destruct (lookup_lt_is_Some_2 (m_delta_member_ids st)
                (item_type_to_nwr_index ty)) as [d Hd].
    { rewrite Hds. destruct ty; cbn; lia. }
    rewrite Hd. cbn [default from_option id].
    destruct (DeltaDecode.update d delta) as [ref d'].
    rewrite IH.
    2:{ cbn [length] in Hn. lia. }
    2:{ cbn [m_delta_member_ids with_delta_member_ids].
        rewrite length_insert. exact Hds. }
    cbn [m_delta_member_ids with_delta_member_ids m_reference_table
         with_reference_table].
    destruct (member_updates _ ms) as [members ds']. cbn [fst snd].
    rewrite <- app_assoc. reflexivity.
Qed.



(** X11: the member types and what [decode_role] rejects.  The
    characters '0', '1' and '2' stand for node, way and relation, and
    every other byte is an [o5m_error]; so is, for a role that is given
    inline, a payload that ends with the type character, and a role
    without its terminator. *)
Theorem decode_role_rejects (c : byte) (ty : item_type) (role : list byte)
    (rest : list byte) (table : ReferenceTable.t) :
  (decode_member_type c = Ok ty <-> c = member_type_char ty) /\
  ((forall ty, c <> member_type_char ty) ->
   decode_member_type c = Throw (o5m_error "unknown member type") /\
   decode_role (x00 :: c :: rest) table
   = Throw (o5m_error "unknown member type")) /\
  decode_role [x00; member_type_char ty] table
    = Throw (o5m_error "missing role") /\
  (no_nul role -> role <> [] ->
   decode_role (x00 :: member_type_char ty :: role) table
   = Throw (o5m_error "no null byte in role")).
Proof.
  assert ((forall ty, c <> member_type_char ty) ->
          decode_member_type c = Throw (o5m_error "unknown member type"))
    as Hbad.
  { intros H. pose proof (H node). pose proof (H way). pose proof (H relation).
    destruct c; try reflexivity; contradiction. }
  repeat split.
  - intros H. destruct c; try discriminate H; destruct ty;
      try reflexivity; discriminate H.
  - intros ->. apply decode_member_type_char.
  - exact (Hbad H).
  - cbn [decode_role decode_string]. change (Byte.eqb x00 x00) with true.
    cbn match. cbn [ReferenceTable.empty mbind result_mbind result_bind bytes].
    rewrite (Hbad H). reflexivity.
  - destruct ty; reflexivity.
  - intros Hrole Hne.
    cbn [decode_role decode_string]. change (Byte.eqb x00 x00) with true.
    cbn match.
    cbn [ReferenceTable.empty mbind result_mbind result_bind bytes in_table].
    rewrite decode_member_type_char. cbn [mbind result_mbind result_bind].
    destruct role as [|r role]; [contradiction|].
    cbn [ReferenceTable.empty negb andb].
    rewrite scan_while_unterminated by (assumption || discriminate).
    reflexivity.
Qed.

Lemma decode_role_rejects_witness :
  decode_role [x00; x33; x61; x00] ReferenceTable.init
  = Throw (o5m_error "unknown member type").
Proof.
  refine (proj2 (proj1 (proj2
            (decode_role_rejects x33 node [] [x61; x00] ReferenceTable.init))
            _)).
  intros []; discriminate.
Defined.

(** ** O5mParser: the metadata of an object *)

(** X12: the metadata section.  [decode_info] throws an [o5m_error] at
    the end of the payload; on the byte 0x00 it consumes that byte and
    changes nothing; otherwise it reads the version, rejecting one above
    2^32 - 1, then the delta of the timestamp; when the timestamp that
    results is 0 it stops there; otherwise it reads the delta of the
    changeset and, if the payload goes on, the user, and sets the uid to
    0 if it does not. *)
Theorem decode_info_spec (object : OSMObject) (st : t) :
  decode_info object [] st
    = Throw (o5m_error "premature end of file while parsing object metadata")
  /\
  (forall rest, decode_info object (x00 :: rest) st = Ok ([], object, rest, st))
  /\
  (forall vbytes version tsbytes zts rest,
     holds_varint vbytes version -> hd x00 vbytes <> x00 ->
     holds_zvarint tsbytes zts ->
     let ts := DeltaDecode.update (m_delta_timestamp st) zts in
     let st1 := with_delta_timestamp st ts.2 in
     (version > object_version_type_max ->
      decode_info object (vbytes ++ rest) st
      = Throw (o5m_error "object version too large")) /\
     (0 <= version <= object_version_type_max -> ts.1 = 0 ->
      decode_info object (vbytes ++ tsbytes ++ rest) st
      = Ok ([], set_version object version, rest, st1)) /\
     (0 <= version <= object_version_type_max -> ts.1 <> 0 ->
      forall csbytes zcs,
        holds_zvarint csbytes zcs ->
        let cs := DeltaDecode.update (m_delta_changeset st1) zcs in
        let st2 := with_delta_changeset st1 cs.2 in
        let object' :=
          set_changeset (set_timestamp (set_version object version) ts.1)
                        cs.1 in
        decode_info object (vbytes ++ tsbytes ++ csbytes ++ rest) st =
        match rest with
        | [] => Ok ([], set_uid object' 0, [], st2)
        | _ :: _ =>
          '(uid, user, data, table) ←
            decode_user rest (m_reference_table st2);
          Ok (user, set_uid object' uid, data, with_reference_table st2 table)
        end)).
Proof.
  split; [reflexivity|]. split; [reflexivity|].
  intros vbytes version tsbytes zts rest Hv Hhd Hts ts st1.
  pose proof (holds_varint_nonempty _ _ Hv) as Hne.
  destruct vbytes as [|c vbytes]; [contradiction|]. cbn [hd] in Hhd.
  assert (forall tail,
            decode_info object ((c :: vbytes) ++ tail) st =
            '(version, data) ← decode_varint ((c :: vbytes) ++ tail);
            if version >? object_version_type_max then
              Throw (o5m_error "object version too large")
            else
              let object := set_version object (uint32 version) in
              '(z, data) ← zvarint data;
              let '(timestamp, d) :=
                DeltaDecode.update (m_delta_timestamp st) z in
              let st := with_delta_timestamp st d in
              if negb (timestamp =? 0) then
                let object := set_timestamp object timestamp in
                '(z, data) ← zvarint data;
                let '(changeset, d) :=
                  DeltaDecode.update (m_delta_changeset st) z in
                let st := with_delta_changeset st d in
                let object := set_changeset object changeset in
                match data with
                | _ :: _ =>
                  '(uid, user, data, table) ←
                    decode_user data (m_reference_table st);
                  Ok (user, set_uid object uid, data,
                      with_reference_table st table)
                | [] => Ok ([], set_uid object 0, data, st)
                end
              else Ok ([], object, data, st)) as Hinfo.
  { intros tail. cbn [app decode_info]. rewrite (byte_eqb_x00 c Hhd).
    reflexivity. }
  split; [|split].
  - intros Hlarge. rewrite Hinfo, Hv. cbn [mbind result_mbind result_bind].
    destruct (Z.gtb_spec version object_version_type_max); [reflexivity|lia].
  - intros Hver H0. rewrite Hinfo, Hv. cbn [mbind result_mbind result_bind].
    destruct (Z.gtb_spec version object_version_type_max); [lia|].
    rewrite Hts. cbn [mbind result_mbind result_bind].
    subst st1. destruct ts as [timestamp d] eqn:E. cbn [fst snd] in *.
    subst ts. rewrite E. subst timestamp. cbn [Z.eqb negb].
    rewrite uint32_small by (unfold object_version_type_max in Hver; lia).
    reflexivity.
  - intros Hver H0 csbytes zcs Hcs cs st2 object'.
    rewrite Hinfo, Hv. cbn [mbind result_mbind result_bind].
    destruct (Z.gtb_spec version object_version_type_max); [lia|].
    rewrite Hts. cbn [mbind result_mbind result_bind].
    subst object' st2 cs st1. destruct ts as [timestamp d] eqn:E.
    cbn [fst snd] in *. subst ts. rewrite E.
    destruct (Z.eqb_spec timestamp 0); [contradiction|]. cbn [negb].
    rewrite Hcs. cbn [mbind result_mbind result_bind].
    cbn [m_delta_changeset with_delta_timestamp].
    destruct (DeltaDecode.update (m_delta_changeset st) zcs) as [changeset d'].
    cbn [fst snd].
    rewrite uint32_small by (unfold object_version_type_max in Hver; lia).
    destruct rest; reflexivity.
Qed.

Lemma decode_info_spec_witness :
  let st := init [] osm_entity_bits.node in
  decode_info new_object ([x01] ++ [x02] ++ [x04] ++ []) st
  = Ok ([],
        set_uid (set_changeset (set_timestamp (set_version new_object 1) 1) 2) 0,
        [],
        with_delta_changeset
          (with_delta_timestamp st {| DeltaDecode.m_value := 1 |})
          {| DeltaDecode.m_value := 2 |}).
Proof.
  intros st.
  assert (holds_varint [x01] 1) as Hv by (intros tail; reflexivity).
  assert (holds_zvarint [x02] 1) as Hts by (intros tail; reflexivity).
  assert (holds_zvarint [x04] 2) as Hcs by (intros tail; reflexivity).
  exact (proj2 (proj2
           (proj2 (proj2 (decode_info_spec new_object st))
              [x01] 1 [x02] 1 [] Hv ltac:(discriminate) Hts))
           ltac:(by_compute) ltac:(discriminate) [x04] 2 Hcs).
Defined.

(** ** O5mParser: datasets that are cut short *)



(** ** O5mParser: what is handed to the consumer *)

Lemma grows_by_refl types st : grows_by types st st.
Proof.
  split; [reflexivity|]. exists []. rewrite app_nil_r. split; constructor.
Qed.

Lemma grows_by_trans types st1 st2 st3 :
  grows_by types st1 st2 -> grows_by types st2 st3 -> grows_by types st1 st3.
Proof.
  intros (Hr1 & es1 & Ho1 & Hw1) (Hr2 & es2 & Ho2 & Hw2).
  split; [congruence|]. exists (es1 ++ es2).
  rewrite Ho2, Ho1, app_assoc. split; [reflexivity|].
  apply Forall_app. split; assumption.
Qed.

Lemma grows_by_same types st st' :
  read_types st' = read_types st -> output st' = output st ->
  grows_by types st st'.
Proof.
  intros Hr Ho. split; [exact Hr|]. exists []. rewrite app_nil_r.
  split; [exact Ho | constructor].
Qed.

Lemma decode_payload_grows ds_type payload st st' :
  decode_payload ds_type payload st = Ok st' ->
  grows_by (read_types st) st st'.
Proof.
  intros H. unfold decode_payload in H.
  destruct (mark_header_as_done_frame st) as (_ & Hr & Ho & _).
  assert (forall e st1,
            read_types st1 = read_types st -> output st1 = output st ->
            wanted (read_types st) e ->
            grows_by (read_types st) st (commit st1 e)) as Hcommit.
  { intros e st1 Hr1 Ho1 He. split; [exact Hr1|]. exists [e].
    cbn [output commit with_output]. rewrite Ho1.
    split; [reflexivity | repeat constructor; exact He]. }
  unfold decode_bbox, decode_timestamp in H.
  repeat match type of H with
         | (if ?c then _ else _) = _ => destruct c eqn:?
         end;
    try (break_ok H; simplify_eq; apply grows_by_same; reflexivity || assumption).
  - destruct (decode_node payload (mark_header_as_done st))
      as [[n st1]| | |] eqn:E; try discriminate H.
    apply decode_node_frame in E as (_ & Hr1 & _ & _ & Ho1).
    injection H as <-. apply Hcommit; [congruence | congruence |].
    unfold wanted. cbn [entity_bit]. rewrite <- Hr.
    match goal with E : negb (_ =? 0) = true |- _ =>
      apply negb_true_iff, Z.eqb_neq in E; exact E end.
  - destruct (decode_way payload (mark_header_as_done st))
      as [[n st1]| | |] eqn:E; try discriminate H.
    apply decode_way_frame in E as (_ & Hr1 & _ & _ & Ho1).
    injection H as <-. apply Hcommit; [congruence | congruence |].
    unfold wanted. cbn [entity_bit]. rewrite <- Hr.
    match goal with E : negb (_ =? 0) = true |- _ =>
      apply negb_true_iff, Z.eqb_neq in E; exact E end.
  - destruct (decode_relation payload (mark_header_as_done st))
      as [[n st1]| | |] eqn:E; try discriminate H.
    apply decode_relation_frame in E as (_ & Hr1 & _ & _ & Ho1).
    injection H as <-. apply Hcommit; [congruence | congruence |].
    unfold wanted. cbn [entity_bit]. rewrite <- Hr.
    match goal with E : negb (_ =? 0) = true |- _ =>
      apply negb_true_iff, Z.eqb_neq in E; exact E end.
Qed.

Lemma decode_dataset_grows st c st' :
  decode_dataset st = Ok (c, st') -> grows_by (read_types st) st st'.
Proof.
  intros H. unfold decode_dataset in H.
  destruct (m_data st) as [|b rest]; [discriminate H|].
  destruct (byte_val b >? dataset_type.jump).
  - destruct (byte_val b =? dataset_type.reset); injection H as <- <-;
      apply grows_by_same; reflexivity.
  - cbn [m_data with_data] in H.
    destruct (decode_varint rest) as [[len rest']|e| |] eqn:Hv;
      try discriminate H.
    2:{ destruct e; discriminate H. }
    cbn [mbind result_mbind result_bind] in H.
    destruct (ensure_bytes_available _ len); [|discriminate H].
    cbn [negb] in H.
    destruct (decode_payload _ _ _) as [st1| | |] eqn:Hp; try discriminate H.
    apply decode_payload_grows in Hp. cbn [read_types with_data] in Hp.
    cbn [mbind result_mbind result_bind] in H.
    assert (grows_by (read_types st) st st1) as Hg.
    { destruct Hp as (Hr & es & Ho & Hw). split; [exact Hr|].
      exists es. split; [exact Ho | exact Hw]. }
    destruct ((read_types st1 =? osm_entity_bits.nothing) && header_is_done st1);
      injection H as <- <-; [exact Hg|].
    eapply grows_by_trans; [exact Hg|]. apply grows_by_same; reflexivity.
Qed.

Lemma decode_data_loop_grows n :
  forall st st',
    decode_data_loop n st = Ok st' -> grows_by (read_types st) st st'.
Proof.
  induction n as [|n IH]; intros st st' H; cbn [decode_data_loop] in H.
  - destruct (ensure_bytes_available st 1); [discriminate H|].
    injection H as <-. apply grows_by_refl.
  - destruct (ensure_bytes_available st 1).
    2:{ injection H as <-. apply grows_by_refl. }
    destruct (decode_dataset st) as [[c st1]| | |] eqn:Hd; try discriminate H.
    cbn [mbind result_mbind result_bind] in H.
    apply decode_dataset_grows in Hd.
    destruct c.
    + apply IH in H. destruct Hd as [Hr Hd]. rewrite Hr in H.
      eapply grows_by_trans; [split; [exact Hr | exact Hd] | exact H].
    + injection H as <-. exact Hd.
Qed.

Lemma decode_header_grows st st' :
  decode_header st = Ok st' ->
  read_types st' = read_types st /\ output st' = output st.
Proof.
  intros H. unfold decode_header, check_header_magic, check_file_type,
    check_file_format_version in H.
  break_ok H; break_all_ok; simplify_eq; split; reflexivity.
Qed.

(** X14: what [run] hands to the consumer.  When [run] returns, the
    entities that were committed before are still there, in their order,
    followed by what the run has added, and every entity added is of a
    kind that the consumer asked for; the header has been published. *)
Theorem run_output_wanted (st st' : t) :
  run st = Ok st' ->
  read_types st' = read_types st /\ header_is_done st' = true /\
  exists es,
    output st' = output st ++ es /\ Forall (wanted (read_types st)) es.
Proof.
  intros H. unfold run in H.
  destruct (decode_header st) as [st1| | |] eqn:Hh; try discriminate H.
  cbn [mbind result_mbind result_bind] in H. unfold decode_data in H.
  destruct (decode_data_loop _ st1) as [st2| | |] eqn:Hl; try discriminate H.
  cbn [mbind result_mbind result_bind] in H. injection H as <-.
  apply decode_header_grows in Hh as [Hr1 Ho1].
  apply decode_data_loop_grows in Hl as (Hr2 & es & Ho2 & Hw).
  destruct (mark_header_as_done_frame st2) as (_ & Hr3 & Ho3 & Hdone).
  split; [congruence|]. split; [exact Hdone|].
  exists es. rewrite Ho3, Ho2, Ho1, <- Hr1. split; [reflexivity | exact Hw].
Qed.

Lemma run_output_wanted_witness :
  let st :=
    init (o5m_header x6d ++ [x11; x02; x02; x00; x10; x02; x02; x00])
         osm_entity_bits.node in
  exists st',
    run st = Ok st' /\ header_is_done st' = true /\
    output st' =
      [a_node {| node_object := set_visible (set_id new_object 1) false;
                 node_location := Location_default |}].
Proof.
  intros st.
  destruct (run st) as [st'| | |] eqn:E; try (vm_compute in E; discriminate E).
  exists st'. split; [reflexivity|].
  destruct (run_output_wanted st st' E) as (_ & Hdone & _).
  split; [exact Hdone|].
  vm_compute in E. injection E as <-. reflexivity.
Defined.

(** ** O5mParser: references into an empty table *)

Lemma decode_string_missing b rest table :
  ReferenceTable.m_table table = [] -> 1 <= byte_val b < 128 ->
  decode_string (b :: rest) table
  = Throw (o5m_error "reference to non-existing string in table").
Proof.
  intros Ht Hb.
  assert (b <> x00) as Hb0 by (intros ->; cbn in Hb; lia).
  cbn [decode_string]. rewrite (byte_eqb_x00 b Hb0).
  rewrite (decode_varint_byte b rest) by lia.
  cbn [mbind result_mbind result_bind].
  rewrite get_throw by (left; exact Ht). reflexivity.
Qed.

(** X15: a reference before any string was stored.  While the
    reference table has no storage, a reference with a one-byte index in
    the place of a tag, of a user or of a role makes the decoder throw
    the [o5m_error] of the table. *)
Theorem reference_missing (b : byte) (rest : list byte)
    (table : ReferenceTable.t) :
  ReferenceTable.m_table table = [] -> 1 <= byte_val b < 128 ->
  let e := o5m_error "reference to non-existing string in table" in
  decode_tags (b :: rest) table = Throw e /\
  decode_user (b :: rest) table = Throw e /\
  decode_role (b :: rest) table = Throw e.
Proof.
  intros Ht Hb e. pose proof (decode_string_missing b rest table Ht Hb) as Hs.
  repeat split.
  - unfold decode_tags. cbn [length decode_tags_loop]. rewrite Hs. reflexivity.
  - unfold decode_user. rewrite Hs. reflexivity.
  - unfold decode_role. rewrite Hs. reflexivity.
Qed.

Lemma reference_missing_witness :
  decode_tags [x01] ReferenceTable.init
  = Throw (o5m_error "reference to non-existing string in table").
Proof.
  exact (proj1 (reference_missing x01 [] ReferenceTable.init eq_refl
                  ltac:(by_compute))).
Defined.

(** ** O5mParser: payloads that are cut short *)



(** ** O5mParser: datasets that are passed over *)

(** More rounds than the stream has bytes change nothing. *)
Lemma decode_data_loop_fuel n :
  forall m st,
    (length (m_data st) <= n)%nat -> (length (m_data st) <= m)%nat ->
    decode_data_loop n st = decode_data_loop m st.
Proof.
  induction n as [|n IH]; intros m st Hn Hm.
  - destruct m; cbn [decode_data_loop];
      destruct (ensure_bytes_available st 1) eqn:E; try reflexivity;
      apply ensure_bytes_available_spec in E; lia.
  - destruct m as [|m]; cbn [decode_data_loop];
      destruct (ensure_bytes_available st 1) eqn:E; try reflexivity.
    { apply ensure_bytes_available_spec in E. lia. }
    destruct (decode_dataset st) as [[[|] st1]| | |] eqn:Hd; try reflexivity.
    cbn [mbind result_mbind result_bind].
    apply decode_dataset_shorter in Hd. apply IH; lia.
Qed.

Lemma skipped_nonempty d : skipped d -> (0 < length d)%nat.
Proof. intros []; cbn; lia. Qed.

Lemma decode_dataset_skipped d rest st :
  skipped d ->
  read_types st <> osm_entity_bits.nothing \/ header_is_done st = false ->
  decode_dataset (with_data st (d ++ rest)) = Ok (next_dataset, with_data st rest).
Proof.
  intros Hd Hgo. destruct Hd as [c Hc Hr | c len payload Hc Hty Hlen Hp].
  - rewrite (decode_dataset_marker (with_data st ([c] ++ rest)) c rest
               eq_refl Hc).
    destruct (Z.eqb_spec (byte_val c) dataset_type.reset); [contradiction|].
    reflexivity.
  - rewrite (decode_dataset_length (with_data st ((c :: len :: payload) ++ rest))
               c (len :: payload ++ rest) (byte_val len) payload rest
               (with_data st (payload ++ rest)) eq_refl Hc).
    + cbn [read_types header_is_done with_data].
      destruct Hgo as [Hr | Hh].
      * destruct (Z.eqb_spec (read_types st) osm_entity_bits.nothing);
          [contradiction | reflexivity].
      * rewrite Hh, andb_false_r. reflexivity.
    + apply decode_varint_byte. exact Hlen.
    + exact Hp.
    + apply decode_payload_other. exact Hty.
Qed.

Lemma decode_data_loop_skipped ds rest st :
  Forall skipped ds ->
  read_types st <> osm_entity_bits.nothing \/ header_is_done st = false ->
  forall n,
    decode_data_loop (length ds + n) (with_data st (concat ds ++ rest))
    = decode_data_loop n (with_data st rest).
Proof.
  intros Hds Hgo. induction Hds as [|d ds Hd _ IH]; intros n; [reflexivity|].
  cbn [length concat Nat.add decode_data_loop]. rewrite <- app_assoc.
  replace (ensure_bytes_available _ 1) with true.
  2:{ symmetry. apply ensure_bytes_available_spec. cbn [m_data with_data].
      pose proof (skipped_nonempty d Hd). rewrite length_app. lia. }
  rewrite (decode_dataset_skipped d _ st Hd Hgo).
  cbn [mbind result_mbind result_bind]. apply IH.
Qed.

Lemma length_skipped ds :
  Forall skipped ds -> (length ds <= length (concat ds))%nat.
Proof.
  induction 1 as [|d ds Hd _ IH]; [reflexivity|].
  pose proof (skipped_nonempty d Hd). cbn [concat length].
  rewrite length_app. lia.
Qed.



Import Buffer.

(** ** Buffer: the constructors *)

(** X18: what the constructors accept.  The constructors that take a
    capacity and the number of committed bytes succeed exactly when both
    are multiples of 8 and the committed bytes fit; the buffer then is
    valid, holds [committed] bytes, all of them committed, and never
    grows by itself.  Otherwise they throw [std::invalid_argument].  The
    constructor that takes a size succeeds exactly when the size is a
    multiple of 8, and makes a buffer that is full. *)
Theorem constructors_check (data : list byte) (capacity committed : Z) :
  0 <= capacity -> 0 <= committed ->
  (capacity mod 8 = 0 /\ committed mod 8 = 0 /\ committed <= capacity ->
   exists b1 b2,
     external_committed data capacity committed = Ok b1 /\
     owning data capacity committed = Ok b2 /\
     m_memory b1 = false /\ m_memory b2 = true /\
     forall b, b = b1 \/ b = b2 ->
       to_bool b = true /\ m_data b = Some data /\
       Buffer.capacity b = capacity /\ written b = committed /\
       Buffer.committed b = committed /\ m_auto_grow b = no /\
       has_nested_buffers b = false)
  /\
  (~ (capacity mod 8 = 0 /\ committed mod 8 = 0 /\ committed <= capacity) ->
   exists what,
     external_committed data capacity committed
       = Throw (invalid_argument what) /\
     owning data capacity committed = Throw (invalid_argument what))
  /\
  (capacity mod 8 = 0 ->
   exists b,
     external data capacity = Ok b /\ to_bool b = true /\
     m_memory b = false /\ Buffer.capacity b = capacity /\
     written b = capacity /\ Buffer.committed b = capacity)
  /\
  (capacity mod 8 <> 0 ->
   external data capacity
   = Throw (invalid_argument "buffer size needs to be multiple of alignment")).
Proof.
  intros Hc Hm. unfold external_committed, owning, external,
    check_capacity_committed, align_bytes.
  destruct (Z.eqb_spec (capacity mod 8) 0) as [Hc8|Hc8]; cbn [negb].
  - destruct (Z.eqb_spec (committed mod 8) 0) as [Hm8|Hm8]; cbn [negb].
    + destruct (Z.gtb_spec committed capacity) as [Hgt|Hle].
      * split; [intros (_ & _ & H); lia|].
        split; [intros _; eexists; split; reflexivity|].
        split; [intros _; eexists; repeat split|contradiction].
      * split.
        { intros _. eexists. eexists. cbn [mbind result_mbind result_bind].
          split; [reflexivity|]. split; [reflexivity|].
          split; [reflexivity|]. split; [reflexivity|].
          intros b [-> | ->]; repeat split. }
        split; [intros H; exfalso; apply H; repeat split; assumption|].
        split; [intros _; eexists; repeat split|contradiction].
    + split; [intros (_ & H & _); contradiction|].
      split; [intros _; eexists; split; reflexivity|].
      split; [intros _; eexists; repeat split|contradiction].
  - split; [intros (H & _); contradiction|].
    split; [intros _; eexists; split; reflexivity|].
    split; [contradiction | reflexivity].
Qed.

Lemma constructors_check_witness :
  exists what,
    external_committed [] 16 24 = Throw (invalid_argument what) /\
    owning [] 16 24 = Throw (invalid_argument what).
Proof.
  apply (proj1 (proj2 (constructors_check [] 16 24 ltac:(lia) ltac:(lia)))).
  intros (_ & _ & H). lia.
Defined.

(** X19: the capacity of a buffer that allocates its storage.  For a
    request of at most 2^64 - 8 bytes the capacity is 64 if the request
    is smaller and otherwise the request rounded up to the next multiple
    of 8; the storage has that size, and the buffer is valid and
    empty. *)
Theorem allocating_spec (n : Z) (grow : auto_grow) :
  0 <= n <= 2 ^ 64 - 8 ->
  let b := allocating n grow in
  to_bool b = true /\ written b = 0 /\ committed b = 0 /\
  m_memory b = true /\ m_auto_grow b = grow /\
  has_nested_buffers b = false /\
  backed b (new_array (capacity b)) /\
  capacity b mod 8 = 0 /\ 64 <= capacity b /\
  n <= capacity b /\ (64 <= n -> capacity b < n + 8) /\
  (n < 64 -> capacity b = 64).
Proof.
  intros Hn b.
  pose proof (calculate_capacity_bounds n ltac:(lia) ltac:(lia))
    as (Hge & H64 & H8).
  subst b. unfold backed, capacity. cbn.
  repeat split; try assumption; try lia.
  - apply length_new_array. lia.
  - intros Hn64. unfold calculate_capacity, min_capacity.
    destruct (Z.ltb_spec n 64); [lia|].
    apply padded_length_bounds; lia.
  - intros Hn64. unfold calculate_capacity, min_capacity.
    destruct (Z.ltb_spec n 64); [reflexivity|lia].
Qed.

Lemma allocating_spec_witness :
  capacity (allocating 100 yes) = 104 /\ capacity (allocating 10 no) = 64.
Proof.
  destruct (allocating_spec 100 yes ltac:(lia))
    as (_ & _ & _ & _ & _ & _ & _ & H8 & _ & Hge & Hlt & _).
  destruct (allocating_spec 10 no ltac:(lia))
    as (_ & _ & _ & _ & _ & _ & _ & _ & _ & _ & _ & H64).
  split; [|apply H64; lia].
  specialize (Hlt ltac:(lia)).
  pose proof (Z.div_mod (capacity (allocating 100 yes)) 8 ltac:(lia)). lia.
Defined.

(** ** Buffer: reserving space *)



(** ** Buffer: growing *)

(** X21: [grow].  On a buffer that does not own its storage it throws
    [std::logic_error] and changes nothing.  Otherwise the capacity
    becomes the larger of the capacity and the request as the
    constructor would round it: a request that is not larger changes
    nothing, and for a larger one the storage is replaced by one of the
    new size that starts with the bytes of the old one; [written] and
    [committed] stay. *)
Theorem grow_spec (NDEBUG : bool) (b : t) (mem : list byte) (size : Z) :
  backed b mem -> 0 <= m_capacity b ->
  (m_memory b = false ->
   grow NDEBUG size b
   = throws (logic_error
       "Can't grow Buffer if it doesn't use internal memory management.") b)
  /\
  (m_memory b = true -> calculate_capacity size <= m_capacity b ->
   grow NDEBUG size b = returns tt b)
  /\
  (m_memory b = true -> m_capacity b < calculate_capacity size ->
   exists mem',
     grow NDEBUG size b
     = returns tt (with_storage b true (Some mem') (calculate_capacity size))
     /\ take (length mem) mem' = mem
     /\ Z.of_nat (length mem') = calculate_capacity size).
Proof.
  intros [Hd Hlen] Hc. split; [|split].
  - intros Hm. unfold grow, to_bool. rewrite Hd, assert_true, Hm. reflexivity.
  - intros Hm Hle. unfold grow, to_bool. rewrite Hd, assert_true, Hm.
    cbn [negb]. destruct (Z.ltb_spec (m_capacity b) (calculate_capacity size));
      [lia | reflexivity].
  - intros Hm Hlt. apply grow_larger; assumption.
Qed.

Lemma grow_spec_witness :
  exists mem',
    grow false 100 (allocating 64 yes)
    = returns tt (with_storage (allocating 64 yes) true (Some mem') 104)
    /\ take 64 mem' = new_array 64.
Proof.
  destruct (grow_spec false (allocating 64 yes) (new_array 64) 100
              (conj eq_refl eq_refl) ltac:(vm_compute; discriminate))
    as (_ & _ & H).
  destruct (H eq_refl ltac:(vm_compute; reflexivity)) as (mem' & Hg & Ht & _).
  exists mem'. split; [exact Hg | exact Ht].
Defined.


(** X22: [grow_internal] hands the committed bytes to a nested buffer.
    On a buffer that owns its storage, with a capacity and a committed
    size that are multiples of 8, the old storage goes, with the
    committed bytes and the chain so far, to a new buffer at the head of
    the chain, which does not grow by itself; the buffer gets fresh
    storage of the same capacity that starts with the bytes that were
    written and not committed, and nothing is committed in it. *)
Theorem grow_internal_spec (NDEBUG : bool) (b : t) (mem : list byte) :
  backed b mem -> m_memory b = true ->
  m_capacity b mod 8 = 0 -> m_committed b mod 8 = 0 ->
  0 <= m_committed b <= m_written b -> m_written b <= m_capacity b < 2 ^ 64 ->
  exists b' old mem',
    grow_internal NDEBUG b = returns tt b' /\
    m_next_buffer b' = Some old /\
    m_data old = Some mem /\ m_memory old = true /\
    m_capacity old = m_capacity b /\
    m_written old = m_committed b /\ m_committed old = m_committed b /\
    m_auto_grow old = no /\ m_next_buffer old = m_next_buffer b /\
    backed b' mem' /\ m_memory b' = true /\
    m_capacity b' = m_capacity b /\ m_auto_grow b' = m_auto_grow b /\
    m_committed b' = 0 /\ m_written b' = m_written b - m_committed b /\
    take (Z.to_nat (m_written b')) mem'
    = take (Z.to_nat (m_written b - m_committed b))
           (drop (Z.to_nat (m_committed b)) mem).
Proof.
  intros [Hd Hlen] Hm Hc8 Hm8 Hcw Hwc.
  unfold grow_internal, to_bool. rewrite Hd, assert_true, Hm. cbn [negb].
  unfold owning, check_capacity_committed, align_bytes.
  rewrite Hc8, Hm8. cbn [Z.eqb negb].
  destruct (Z.gtb_spec (m_committed b) (m_capacity b)); [lia|].
  cbn [mbind result_mbind result_bind].
  rewrite (uint64_small (m_written b - m_committed b)) by lia.
  eexists. eexists. eexists. split; [reflexivity|].
  cbn [m_next_buffer m_data m_memory m_capacity m_written m_committed
       m_auto_grow with_next_buffer].
  repeat (split; [reflexivity|]).
  split.
  { split; [reflexivity|]. cbn [m_capacity]. rewrite length_copy_n.
    apply length_new_array. lia. }
  repeat (split; [reflexivity|]).
  rewrite copy_n_splice; [|lia|lia| |].
  - change (Z.to_nat 0) with 0%nat. rewrite take_0. cbn [app].
    rewrite take_app_le by (rewrite length_take, length_drop; lia).
    rewrite take_take, Nat.min_id. reflexivity.
  - rewrite length_drop. lia.
  - rewrite length_new_array; lia.
Qed.

Lemma grow_internal_spec_witness :
  let b := with_committed (with_written (allocating 64 internal) 16) 8 in
  exists b' old mem',
    grow_internal false b = returns tt b' /\
    m_next_buffer b' = Some old /\ m_written old = 8 /\
    m_committed old = 8 /\ backed b' mem' /\
    m_committed b' = 0 /\ m_written b' = 8.
Proof.
  intros b.
  destruct (grow_internal_spec false b (new_array 64)
              (conj eq_refl eq_refl) eq_refl eq_refl eq_refl
              ltac:(by_compute) ltac:(by_compute))
    as (b' & old & mem' & Hg & Hn & _ & _ & _ & Hw & Hc & _ & _ & Hb & _ & _
        & _ & Hc' & Hw' & _).
  exists b', old, mem'.
  exact (conj Hg (conj Hn (conj Hw (conj Hc (conj Hb (conj Hc' Hw')))))).
Defined.

Lemma reserve_space_full NDEBUG b size :
  to_bool b = true -> 0 <= m_written b -> 0 <= size ->
  m_capacity b < m_written b + size < 2 ^ 64 ->
  m_memory b = false \/ m_auto_grow b = no ->
  reserve_space NDEBUG size b = throws buffer_is_full b.
Proof.
  intros Hv Hw Hs Hov Hfixed. unfold reserve_space. rewrite Hv, assert_true.
  rewrite (uint64_small (m_written b + size)) by lia.
  destruct (Z.gtb_spec (m_written b + size) (m_capacity b)) as [Hgt|Hle];
    [|lia].
  destruct Hfixed as [Hm|Hg].
  - rewrite Hm. reflexivity.
  - rewrite Hg, orb_true_r. reflexivity.
Qed.



(** X24: a request that no doubling can meet.  On a buffer that owns
    its storage and grows in place, whose capacity is a power of two,
    a request that brings [written] above 2^63 makes the doubling loop
    of [reserve_space] run forever: the doubled capacity stays below the
    request until it wraps around to 0, and then stays 0. *)
Theorem reserve_space_diverges (NDEBUG : bool) (b : t) (size e : Z) :
  to_bool b = true -> m_memory b = true ->
  m_auto_grow b = yes \/ m_auto_grow b = internal /\ m_committed b = 0 ->
  0 <= e <= 63 -> m_capacity b = 2 ^ e ->
  0 <= m_written b -> 0 <= size -> 2 ^ 63 < m_written b + size < 2 ^ 64 ->
  (forall n,
     double_capacity n (m_written b + size) (uint64 (m_capacity b * 2))
     = None) /\
  reserve_space NDEBUG size b = diverges.
Proof.
  intros Hv Hm Hg He Hc Hw Hs Hneed.
  assert (m_capacity b <= 2 ^ 63) as Hcap.
  { rewrite Hc. apply Z.pow_le_mono_r; lia. }
  assert (forall n,
            double_capacity n (m_written b + size) (uint64 (m_capacity b * 2))
            = None) as Hloop.
  { intros n. apply double_capacity_all; [apply Z.mod_pos_bound; reflexivity|].
    intros j Hj. rewrite uint64_double by lia.
    rewrite Hc, <- Z.pow_add_r by lia.
    destruct (Z.le_gt_cases (e + (j + 1)) 63) as [Hle|Hgt].
    - assert (2 ^ (e + (j + 1)) <= 2 ^ 63) by (apply Z.pow_le_mono_r; lia).
      rewrite uint64_small by lia. lia.
    - replace (e + (j + 1)) with (e + j + 1 - 64 + 64) by lia.
      rewrite Z.pow_add_r by lia. unfold uint64.
      rewrite Z.mod_mul by lia. lia. }
  split; [exact Hloop|].
  unfold reserve_space. rewrite Hv, assert_true.
  rewrite (uint64_small (m_written b + size)) by lia.
  destruct (Z.gtb_spec (m_written b + size) (m_capacity b)); [|lia].
  rewrite Hm. cbn [negb orb].
  assert (bool_decide (m_auto_grow b = no) = false) as ->.
  { apply bool_decide_eq_false_2.
    destruct Hg as [-> | [-> _]]; discriminate. }
  assert (bool_decide (m_auto_grow b = internal) && negb (m_committed b =? 0)
          = false) as ->.
  { destruct Hg as [-> | [-> ->]]; reflexivity. }
  rewrite (uint64_small (m_written b + size)) by lia.
  destruct (Z.gtb_spec (m_written b + size) (m_capacity b)); [|lia].
  rewrite Hloop. reflexivity.
Qed.

Lemma reserve_space_diverges_witness :
  reserve_space false (2 ^ 63 + 8) (allocating 64 yes) = diverges.
Proof.
  apply (reserve_space_diverges false (allocating 64 yes) (2 ^ 63 + 8) 6
           eq_refl eq_refl (or_introl eq_refl) ltac:(lia) eq_refl
           ltac:(by_compute) ltac:(lia) ltac:(by_compute)).
Defined.

(** ** Buffer: the chain of nested buffers *)

Lemma nested_unfold b :
  nested b =
  match m_next_buffer b with
  | Some next => with_next_buffer next None :: nested next
  | None => []
  end.
Proof. destruct b. reflexivity. Qed.

Lemma detach_last_unfold next :
  detach_last next =
  match m_next_buffer next with
  | Some next' =>
    let '(last, rest) := detach_last next' in
    (last, Some (with_next_buffer next rest))
  | None => (next, None)
  end.
Proof. destruct next. reflexivity. Qed.

Lemma with_next_buffer_none b :
  m_next_buffer b = None -> with_next_buffer b None = b.
Proof. destruct b. cbn. intros ->. reflexivity. Qed.

Lemma detach_last_spec n :
  forall next parent,
    length (nested next) = n ->
    nested (with_next_buffer parent (Some next))
    = nested (with_next_buffer parent (detach_last next).2)
      ++ [(detach_last next).1] /\
    m_next_buffer (detach_last next).1 = None.
Proof.
  induction n as [|n IH]; intros next parent Hn;
    rewrite (nested_unfold next) in Hn;
    rewrite (detach_last_unfold next);
    rewrite (nested_unfold (with_next_buffer parent (Some next)));
    cbn [m_next_buffer with_next_buffer];
    rewrite (nested_unfold next);
    destruct (m_next_buffer next) as [next'|] eqn:E;
    try discriminate Hn.
  - cbn [fst snd]. rewrite (nested_unfold (with_next_buffer parent None)).
    cbn [m_next_buffer with_next_buffer app].
    rewrite (with_next_buffer_none next E). split; [reflexivity | exact E].
  - cbn [length] in Hn. injection Hn as Hn.
    destruct (IH next' next Hn) as [Hchain Hlast].
    destruct (detach_last next') as [last rest]. cbn [fst snd] in *.
    split; [|exact Hlast].
    rewrite (nested_unfold (with_next_buffer parent _)).
    cbn [m_next_buffer with_next_buffer app]. f_equal.
    rewrite (nested_unfold (with_next_buffer next (Some next'))) in Hchain.
    cbn [m_next_buffer with_next_buffer] in Hchain. exact Hchain.
Qed.

(** X25: [get_last_nested] takes the oldest buffer off the chain.  The
    buffer that is returned is the last of the chain and has no nested
    buffers itself; the chain is left without it, and the buffer is
    otherwise as it was.  On a buffer without nested buffers the call is
    undefined, with or without the [assert]. *)
Theorem get_last_nested_spec (NDEBUG : bool) (b : t) :
  (nested b = [] -> get_last_nested NDEBUG b = undefined) /\
  (nested b <> [] ->
   exists last b',
     get_last_nested NDEBUG b = returns last b' /\
     nested b = nested b' ++ [last] /\
     m_next_buffer last = None /\
     with_next_buffer b' None = with_next_buffer b None).
Proof.
  unfold get_last_nested, has_nested_buffers. rewrite (nested_unfold b).
  destruct (m_next_buffer b) as [next|] eqn:E.
  - split; [discriminate|]. intros _. rewrite assert_true.
    destruct (detach_last_spec _ next b eq_refl) as [Hchain Hlast].
    destruct (detach_last next) as [last rest]. cbn [fst snd] in *.
    exists last, (with_next_buffer b rest).
    split; [reflexivity|]. split; [|split; [exact Hlast | reflexivity]].
    rewrite <- Hchain. rewrite (nested_unfold (with_next_buffer b _)).
    reflexivity.
  - split; [|contradiction]. intros _. unfold assert.
    destruct (NDEBUG || false); reflexivity.
Qed.

Lemma get_last_nested_spec_witness :
  let b := with_next_buffer (allocating 64 internal) (Some (allocating 64 no)) in
  exists last b',
    get_last_nested false b = returns last b' /\
    nested b = nested b' ++ [last] /\ m_next_buffer last = None.
Proof.
  intros b.
  destruct (proj2 (get_last_nested_spec false b) ltac:(discriminate))
    as (last & b' & Hg & Hn & Hl & _).
  exists last, b'. exact (conj Hg (conj Hn Hl)).
Defined.

(** ** Buffer: adding records *)

(** A request that fits, or that a buffer growing in place makes room
    for: the storage afterwards starts with the old one. *)
Lemma reserve_space_in_place NDEBUG b mem n :
  backed b mem -> 0 <= m_written b -> 0 <= n -> m_capacity b < 2 ^ 64 ->
  m_written b + n <= m_capacity b \/
  (m_memory b = true /\ m_auto_grow b = yes /\ 0 < m_capacity b /\
   m_capacity b mod 8 = 0 /\ m_written b + n <= 2 ^ 63) ->
  exists b1 mem1,
    reserve_space NDEBUG n b = returns (m_written b) b1 /\
    backed b1 mem1 /\ take (length mem) mem1 = mem /\
    m_written b1 = m_written b + n /\ m_written b1 <= m_capacity b1 /\
    m_committed b1 = m_committed b /\
    m_builder_count b1 = m_builder_count b /\
    m_memory b1 = m_memory b /\ m_auto_grow b1 = m_auto_grow b /\
    m_next_buffer b1 = m_next_buffer b.
Proof.
  intros [Hd Hlen] Hw Hn Hcap Hroom.
  destruct (Z.le_gt_cases (m_written b + n) (m_capacity b)) as [Hfit|Hgt].
  - exists (with_written b (m_written b + n)), mem.
    split.
    { unfold reserve_space, to_bool. rewrite Hd, assert_true.
      rewrite (uint64_small (m_written b + n)) by lia.
      destruct (Z.gtb_spec (m_written b + n) (m_capacity b)); [lia|].
      reflexivity. }
    split; [split; assumption|]. split; [apply firstn_all|].
    cbn. repeat split; lia.
  - destruct Hroom as [Hfit|(Hm & Hg & Hpos & H8 & H63)]; [lia|].
    destruct (reserve_space_grows NDEBUG b mem n Hd Hm Hg Hpos H8 Hlen Hw Hn
                ltac:(lia))
      as (k & mem' & Hk & Hup & Hlow & Hr & Htake & Hlen').
    eexists. exists mem'. split; [exact Hr|].
    split; [split; [reflexivity | exact Hlen']|].
    split; [exact Htake|]. cbn. rewrite Hm. repeat split; lia.
Qed.

Section Adding.

Variable NDEBUG : bool.
Variable header_size : nat.
Variable decode_item : list byte -> Item.

Local Abbreviation record_ok := (record_ok header_size decode_item).
Local Abbreviation record_item := (record_item header_size decode_item).
Local Abbreviation holds := (holds header_size decode_item).
Local Abbreviation add_item := (add_item NDEBUG header_size decode_item).
Local Abbreviation push_back := (push_back NDEBUG header_size decode_item).
Local Abbreviation len l := (Z.of_nat (length l)).

Lemma record_ok_aligned r : record_ok r -> len r mod 8 = 0.
Proof.
  intros (_ & _ & H). rewrite <- H. apply padded_length_range.
Qed.

Lemma records_aligned rs : Forall record_ok rs -> len (concat rs) mod 8 = 0.
Proof.
  induction 1 as [|r rs Hr _ IH]; [reflexivity|].
  cbn [concat]. rewrite length_app, Nat2Z.inj_add, Z.add_mod by lia.
  rewrite (record_ok_aligned r Hr), IH. reflexivity.
Qed.

(** [add_item] on the bytes of a well-formed record. *)
Lemma add_item_record b mem item :
  backed b mem -> 0 <= m_written b <= m_capacity b -> m_capacity b < 2 ^ 64 ->
  record_ok item ->
  m_written b + len item <= m_capacity b \/
  (m_memory b = true /\ m_auto_grow b = yes /\ 0 < m_capacity b /\
   m_capacity b mod 8 = 0 /\ m_written b + len item <= 2 ^ 63) ->
  exists b2 mem2,
    add_item item b = returns (m_written b) b2 /\
    backed b2 mem2 /\
    take (Z.to_nat (m_written b + len item)) mem2
    = take (Z.to_nat (m_written b)) mem ++ item /\
    m_written b2 = m_written b + len item /\
    m_written b2 <= m_capacity b2 /\
    m_committed b2 = m_committed b /\
    m_builder_count b2 = m_builder_count b /\
    m_memory b2 = m_memory b /\ m_auto_grow b2 = m_auto_grow b /\
    m_next_buffer b2 = m_next_buffer b.
Proof.
  intros Hb Hw Hcap Hitem Hroom.
  pose proof Hitem as (Hh & Hpos & Hsize).
  destruct (reserve_space_in_place NDEBUG b mem (len item) Hb (proj1 Hw)
              ltac:(lia) Hcap Hroom)
    as (b1 & mem1 & Hr & [Hd1 Hlen1] & Htake & Hw1 & Hfit1 & Hc1 & Hbc1 & Hm1
        & Hg1 & Hn1).
  destruct Hb as [Hd Hlen].
  assert (Buffer.item_at header_size decode_item item 0 = Ok (record_item item))
    as Hat.
  { unfold Buffer.item_at. rewrite Z.add_0_l.
    destruct (Z.leb_spec (Z.of_nat header_size) (len item)); [|lia].
    reflexivity. }
  exists (with_storage b1 (m_memory b1)
            (Some (copy_n item (len item) mem1 (m_written b)))
            (m_capacity b1)).
  eexists. split.
  { unfold Buffer.add_item, to_bool. rewrite Hd, assert_true, Hat.
    unfold padded_size. fold (Buffer.padded_size (record_item item)).
    rewrite Hsize, Hr, Hd1. reflexivity. }
  split; [split; [reflexivity|]|].
  { cbn [m_capacity with_storage]. rewrite length_copy_n. exact Hlen1. }
  split.
  { rewrite copy_n_splice by lia.
    rewrite Nat2Z.id, firstn_all.
    rewrite app_assoc, take_app_le.
    2:{ rewrite length_app, length_take. lia. }
    rewrite take_ge by (rewrite length_app, length_take; lia).
    f_equal. rewrite <- Htake at 1. rewrite take_take. f_equal. lia. }
  cbn. repeat split; assumption.
Qed.



End Adding.



(** ** Buffer: purging twice *)

Section PurgeTwice.

Variable NDEBUG : bool.
Variable header_size : nat.
Variable decode_item : list byte -> Item.

Local Abbreviation record_ok := (record_ok header_size decode_item).
Local Abbreviation alive := (alive header_size decode_item).
Local Abbreviation placements := (placements header_size decode_item).
Local Abbreviation purge_removed :=
  (purge_removed NDEBUG header_size decode_item).
Local Abbreviation len l := (Z.of_nat (length l)).

(** [purge_removed] on records, with the size of what is left behind
    the records that are kept. *)
Lemma purge_removed_layout b rs rest :
  Forall record_ok rs ->
  m_data b = Some (concat rs ++ rest) ->
  m_committed b = len (concat rs) -> m_committed b <> 0 ->
  exists gap,
    purge_removed b =
    returns (moved (placements 0 0 rs))
      (with_committed
         (with_written
            (with_storage b (m_memory b)
               (Some (concat (filter (fun r => alive r = true) rs)
                        ++ gap ++ rest))
               (m_capacity b))
            (len (concat (filter (fun r => alive r = true) rs))))
         (len (concat (filter (fun r => alive r = true) rs)))) /\
    len gap + len (concat (filter (fun r => alive r = true) rs))
    = len (concat rs).
Proof.
  intros Hrs Hd Hc Hne. unfold Buffer.purge_removed, to_bool.
  rewrite Hd, assert_true.
  destruct (Z.eqb_spec (m_committed b) 0); [contradiction|].
  destruct (purge_loop_records header_size decode_item rs Hrs
              (S (length (concat rs ++ rest))) [] [] rest []
              (concat rs ++ rest) (m_committed b) 0 0)
    as (gap & Hloop & Hgap).
  - pose proof (records_count header_size decode_item rs Hrs).
    rewrite length_app. lia.
  - reflexivity.
  - reflexivity.
  - reflexivity.
  - rewrite Hc. lia.
  - exists gap. rewrite Hloop. split; [reflexivity|].
    cbn [length] in Hgap. lia.
Qed.

Lemma filter_alive_all rs :
  Forall (fun r => alive r = true) rs ->
  filter (fun r => alive r = true) rs = rs.
Proof.
  induction 1 as [|r rs Hr _ IH]; [reflexivity|].
  rewrite filter_cons_True by exact Hr. rewrite IH. reflexivity.
Qed.

Lemma placements_alive rs :
  Forall (fun r => alive r = true) rs ->
  forall o, moved (placements o o rs) = [].
Proof.
  induction 1 as [|r rs Hr _ IH]; intros o; [reflexivity|].
  cbn [Buffer.placements]. rewrite Hr, moved_cons, Z.eqb_refl. apply IH.
Qed.

(** X28: [purge_removed] twice.  On a buffer whose committed part is
    made of well-formed records, a second [purge_removed] right after
    the first finds nothing to do: it calls the callback for no record
    and leaves the buffer, with its storage, as the first call left
    it. *)
Theorem purge_removed_idempotent (b : t) (rs : list (list byte))
    (rest : list byte) :
  Forall record_ok rs ->
  m_data b = Some (concat rs ++ rest) ->
  m_committed b = len (concat rs) ->
  exists calls b1,
    purge_removed b = returns calls b1 /\
    purge_removed b1 = returns [] b1.
Proof.
  intros Hrs Hd Hc.
  destruct (Z.eq_dec (m_committed b) 0) as [H0|Hne].
  { exists [], b.
    assert (purge_removed b = returns [] b) as H.
    { apply purge_removed_empty; [unfold to_bool; rewrite Hd; reflexivity|].
      exact H0. }
    split; exact H. }
  destruct (purge_removed_layout b rs rest Hrs Hd Hc Hne) as (gap & Hp & Hgap).
  set (kept := filter (fun r => alive r = true) rs) in *.
  eexists. eexists. split; [exact Hp|].
  assert (Forall record_ok kept) as Hkept
    by (apply (record_ok_filter header_size decode_item), Hrs).
  assert (Forall (fun r => alive r = true) kept) as Halive.
  { apply Forall_forall. intros r Hr. apply list_elem_of_filter in Hr. apply Hr. }
  destruct (Z.eq_dec (len (concat kept)) 0) as [Hk0|Hkne].
  { apply purge_removed_empty; [reflexivity | exact Hk0]. }
  match goal with
  | |- purge_removed ?b1 = _ =>
    destruct (purge_removed_layout b1 kept (gap ++ rest) Hkept eq_refl eq_refl
                Hkne) as (gap' & Hp' & Hgap')
  end.
  rewrite Hp'. rewrite (filter_alive_all kept Halive) in *.
  rewrite (placements_alive kept Halive).
  assert (gap' = []) as -> by (destruct gap'; [reflexivity | cbn in Hgap'; lia]).
  reflexivity.
Qed.

End PurgeTwice.

Lemma purge_removed_idempotent_witness :
  exists calls b1,
    purge_removed false 2 example_decode_item example_buffer
      = returns calls b1 /\
    purge_removed false 2 example_decode_item b1 = returns [] b1.
Proof.
  exact (purge_removed_idempotent false 2 example_decode_item example_buffer
           [example_removed; example_kept] [] example_records_ok
           eq_refl eq_refl).
Defined.

(** ** Buffer: the offsets that [reserve_space] and [commit] return *)

(** What [grow] leaves alone. *)
Lemma grow_fields NDEBUG size b u b' :
  grow NDEBUG size b = returns u b' -> to_bool b = true ->
  to_bool b' = true /\ m_written b' = m_written b /\
  m_committed b' = m_committed b /\
  m_builder_count b' = m_builder_count b /\
  m_next_buffer b' = m_next_buffer b.
Proof.
  unfold grow, assert. intros H Hv.
  destruct (NDEBUG || to_bool b); [|discriminate H].
  destruct (negb (m_memory b)); [discriminate H|].
  destruct (m_capacity b <? calculate_capacity size).
  - destruct (m_data b); [|discriminate H]. injection H as _ <-.
    repeat split.
  - injection H as _ <-. repeat split. exact Hv.
Qed.

(** The end of [reserve_space], from the second test of the room on. *)
Lemma reserve_space_tail NDEBUG size b off b1 :
  to_bool b = true ->
  (if uint64 (m_written b + size) >? m_capacity b then
     match double_capacity 64 (uint64 (m_written b + size))
                           (uint64 (m_capacity b * 2)) with
     | None => diverges
     | Some new_capacity =>
       match grow NDEBUG new_capacity b with
       | returns _ b =>
         returns (m_written b) (with_written b (uint64 (m_written b + size)))
       | throws e b => throws e b
       | undefined => undefined
       | diverges => diverges
       end
     end
   else returns (m_written b) (with_written b (uint64 (m_written b + size))))
  = returns off b1 ->
  off = m_written b /\ m_written b1 = uint64 (m_written b + size) /\
  m_committed b1 = m_committed b /\ to_bool b1 = true /\
  m_builder_count b1 = m_builder_count b /\
  m_next_buffer b1 = m_next_buffer b.
Proof.
  intros Hv H.
  destruct (uint64 (m_written b + size) >? m_capacity b).
  - destruct (double_capacity _ _ _) as [nc|]; [|discriminate H].
    destruct (grow NDEBUG nc b) as [u b2|e b2| |] eqn:G; try discriminate H.
    apply grow_fields in G as (Hv2 & Hw2 & Hc2 & Hb2 & Hn2); [|exact Hv].
    injection H as <- <-. cbn. rewrite Hw2. repeat split; assumption.
  - injection H as <- <-. cbn. repeat split. exact Hv.
Qed.



(** ** Buffer: growing by nesting *)

(** The doubling of the capacity, for a buffer that grows by nesting
    and has nothing committed. *)
Lemma reserve_space_doubles NDEBUG b mem n :
  m_data b = Some mem -> m_memory b = true ->
  m_auto_grow b = internal -> m_committed b = 0 ->
  0 < m_capacity b -> m_capacity b mod 8 = 0 ->
  Z.of_nat (length mem) = m_capacity b ->
  0 <= m_written b -> 0 <= n ->
  m_capacity b < m_written b + n <= 2 ^ 63 ->
  exists k mem',
    1 <= k /\
    reserve_space NDEBUG n b =
      returns (m_written b)
        (with_written
           (with_storage b true (Some mem')
              (Z.max 64 (m_capacity b * 2 ^ k)))
           (m_written b + n)) /\
    m_written b + n <= Z.max 64 (m_capacity b * 2 ^ k) /\
    take (length mem) mem' = mem /\
    Z.of_nat (length mem') = Z.max 64 (m_capacity b * 2 ^ k).
Proof.
  intros Hd Hm Hg Hc0 Hc H8 Hlen Hw Hn Hneed.
  destruct (double_capacity_spec 64 (m_written b + n) (m_capacity b * 2))
    as (j & Hj & Hdc & Hup & Hlow); [lia|lia| |].
  { change (2 ^ Z.of_nat 64) with (2 ^ 64). lia. }
  assert (0 < 2 ^ j) as Hpos by (apply Z.pow_pos_nonneg; lia).
  assert (2 ^ (j + 1) = 2 * 2 ^ j) as Hp1
    by (rewrite Z.pow_add_r by lia; lia).
  assert (0 < j -> 2 ^ j = 2 * 2 ^ (j - 1)) as Hp2.
  { intros H. replace j with (j - 1 + 1) at 1 by lia.
    rewrite Z.pow_add_r by lia. lia. }
  set (nc := m_capacity b * 2 * 2 ^ j) in *.
  assert (nc = m_capacity b * 2 ^ (j + 1)) as Hnc_eq by (unfold nc; lia).
  assert (m_capacity b * 2 ^ j < m_written b + n) as Hlow'.
  { destruct (Z.eq_dec j 0) as [->|Hj0]; [cbn; lia|].
    specialize (Hlow ltac:(lia)). rewrite (Hp2 ltac:(lia)). lia. }
  assert (0 <= nc < 2 ^ 64) as Hnc by (unfold nc; lia).
  assert (nc mod 8 = 0) as Hnc8.
  { unfold nc. rewrite <- Z.mul_assoc, Z.mul_mod, H8 by lia. reflexivity. }
  assert (calculate_capacity nc = Z.max 64 nc) as Hcc.
  { apply calculate_capacity_aligned; [lia| |assumption].
    pose proof (Z.div_mod nc 8 ltac:(lia)).
    change (2 ^ 64) with (8 * 2305843009213693952) in *. lia. }
  destruct (grow_larger NDEBUG b mem nc Hd Hm ltac:(lia) Hlen)
    as (mem' & Hgrow & Htake & Hlen'); [lia|].
  exists (j + 1), mem'. rewrite <- Hnc_eq, <- Hcc.
  split; [lia|]. split; [|split; [lia | split; assumption]].
  unfold reserve_space, to_bool. rewrite Hd, assert_true.
  rewrite (uint64_small (m_written b + n)) by lia.
  destruct (Z.gtb_spec (m_written b + n) (m_capacity b)); [|lia].
  rewrite Hm, Hg, Hc0. cbn [negb orb andb Z.eqb].
  rewrite (bool_decide_eq_false_2 (internal = no)) by discriminate.
  rewrite andb_false_r.
  rewrite ?(uint64_small (m_written b + n)) by lia.
  destruct (Z.gtb_spec (m_written b + n) (m_capacity b)); [|lia].
  rewrite (uint64_small (m_capacity b * 2)) by lia.
  rewrite Hdc, Hgrow. cbn [m_written with_storage].
  rewrite ?(uint64_small (m_written b + n)) by lia. reflexivity.
Qed.

(** [grow_internal] on a buffer with aligned sizes. *)
Lemma grow_internal_split NDEBUG b mem :
  backed b mem -> m_memory b = true ->
  m_capacity b mod 8 = 0 -> m_committed b mod 8 = 0 ->
  0 <= m_committed b <= m_written b -> m_written b <= m_capacity b < 2 ^ 64 ->
  grow_internal NDEBUG b =
  returns tt
    {| m_next_buffer :=
         Some {| m_next_buffer := m_next_buffer b; m_memory := true;
                 m_data := Some mem; m_capacity := m_capacity b;
                 m_written := m_committed b; m_committed := m_committed b;
                 m_builder_count := 0; m_auto_grow := no |};
       m_memory := true;
       m_data :=
         Some (copy_n (drop (Z.to_nat (m_committed b)) mem)
                 (m_written b - m_committed b) (new_array (m_capacity b)) 0);
       m_capacity := m_capacity b;
       m_written := m_written b - m_committed b; m_committed := 0;
       m_builder_count := m_builder_count b;
       m_auto_grow := m_auto_grow b |} /\
  take (Z.to_nat (m_written b - m_committed b))
       (copy_n (drop (Z.to_nat (m_committed b)) mem)
          (m_written b - m_committed b) (new_array (m_capacity b)) 0)
  = take (Z.to_nat (m_written b - m_committed b))
         (drop (Z.to_nat (m_committed b)) mem).
Proof.
  intros [Hd Hlen] Hm Hc8 Hm8 Hcw Hwc. split.
  - unfold grow_internal, to_bool. rewrite Hd, assert_true, Hm. cbn [negb].
    unfold owning, check_capacity_committed, align_bytes.
    rewrite Hc8, Hm8. cbn [Z.eqb negb].
    destruct (Z.gtb_spec (m_committed b) (m_capacity b)); [lia|].
    cbn [mbind result_mbind result_bind].
    rewrite (uint64_small (m_written b - m_committed b)) by lia.
    reflexivity.
  - rewrite copy_n_splice; [|lia|lia| |].
    + change (Z.to_nat 0) with 0%nat. rewrite take_0. cbn [app].
      rewrite take_app_le by (rewrite length_take, length_drop; lia).
      rewrite take_take, Nat.min_id. reflexivity.
    + rewrite length_drop. lia.
    + rewrite length_new_array; lia.
Qed.

(** X30: [reserve_space] on a buffer that grows by nesting.  When the
    request does not fit and something is committed, the committed
    bytes go, with the old storage, to a new buffer at the head of the
    chain; the pending bytes move to the start of fresh storage, which
    is doubled until the request fits; the offset that is returned is
    that of the first free byte behind the pending bytes, and nothing is
    committed. *)
Theorem reserve_space_internal (NDEBUG : bool) (b : t) (mem : list byte)
    (size : Z) :
  backed b mem -> m_memory b = true -> m_auto_grow b = internal ->
  m_capacity b mod 8 = 0 -> m_committed b mod 8 = 0 ->
  0 < m_committed b <= m_written b -> m_written b <= m_capacity b ->
  0 <= size -> m_capacity b < m_written b + size <= 2 ^ 63 ->
  let pending := m_written b - m_committed b in
  exists b1 old mem1,
    reserve_space NDEBUG size b = returns pending b1 /\
    m_next_buffer b1 = Some old /\
    m_data old = Some mem /\ m_capacity old = m_capacity b /\
    m_written old = m_committed b /\ m_committed old = m_committed b /\
    m_next_buffer old = m_next_buffer b /\
    backed b1 mem1 /\ m_committed b1 = 0 /\
    m_written b1 = pending + size /\ m_written b1 <= m_capacity b1 /\
    take (Z.to_nat pending) mem1
    = take (Z.to_nat pending) (drop (Z.to_nat (m_committed b)) mem).
Proof.
  intros Hb Hm Hg Hc8 Hm8 Hcw Hwc Hs Hneed pending.
  destruct (grow_internal_split NDEBUG b mem Hb Hm Hc8 Hm8 ltac:(lia)
              ltac:(lia)) as [Hgi Htake].
  destruct Hb as [Hd Hlen].
  set (mem0 := copy_n (drop (Z.to_nat (m_committed b)) mem)
                 (m_written b - m_committed b) (new_array (m_capacity b)) 0)
    in *.
  set (b0 := {| m_next_buffer := _; m_memory := true; m_data := Some mem0;
                m_capacity := m_capacity b;
                m_written := m_written b - m_committed b; m_committed := 0;
                m_builder_count := m_builder_count b;
                m_auto_grow := m_auto_grow b |}) in *.
  assert (Z.of_nat (length mem0) = m_capacity b) as Hlen0.
  { unfold mem0. rewrite length_copy_n. apply length_new_array. lia. }
  assert (reserve_space NDEBUG size b = reserve_space NDEBUG size b0) as Heq.
  { unfold reserve_space at 1. unfold to_bool. rewrite Hd, assert_true.
    rewrite (uint64_small (m_written b + size)) by lia.
    destruct (Z.gtb_spec (m_written b + size) (m_capacity b)); [|lia].
    rewrite Hm, Hg. cbn [negb orb].
    rewrite (bool_decide_eq_false_2 (internal = no)) by discriminate.
    rewrite (bool_decide_eq_true_2 (internal = internal)) by reflexivity.
    destruct (Z.eqb_spec (m_committed b) 0); [lia|]. cbn [negb andb].
    rewrite Hgi.
    unfold reserve_space, to_bool. cbn [m_data b0]. rewrite assert_true.
    cbn [m_memory m_auto_grow m_committed m_written m_capacity b0
         negb orb Z.eqb]. rewrite Hg.
    rewrite (bool_decide_eq_false_2 (internal = no)) by discriminate.
    rewrite andb_false_r.
    change (m_written b0) with (m_written b - m_committed b).
    change (m_capacity b0) with (m_capacity b).
    destruct (uint64 (m_written b - m_committed b + size) >? m_capacity b);
      reflexivity. }
  rewrite Heq.
  destruct (Z.le_gt_cases (pending + size) (m_capacity b)) as [Hfit|Hgt].
  - exists (with_written b0 (pending + size)). eexists. exists mem0.
    split.
    { unfold reserve_space, to_bool. cbn [m_data b0]. rewrite assert_true.
      cbn [m_written m_capacity b0]. fold pending.
      rewrite (uint64_small (pending + size)) by (unfold pending; lia).
      destruct (Z.gtb_spec (pending + size) (m_capacity b)); [lia|].
      reflexivity. }
    split; [reflexivity|]. cbn.
    repeat (split; [reflexivity|]).
    split; [split; [reflexivity | exact Hlen0]|].
    repeat (split; [reflexivity|]). split; [exact Hfit | exact Htake].
  - assert (0 < m_capacity b) as Hpos by lia.
    assert (0 <= pending) as Hpend by (unfold pending; lia).
    assert (m_capacity b < pending + size <= 2 ^ 63) as Hneed0
      by (unfold pending in *; lia).
    destruct (reserve_space_doubles NDEBUG b0 mem0 size eq_refl eq_refl Hg
                eq_refl Hpos Hc8 Hlen0 Hpend Hs Hneed0)
      as (k & mem' & Hk & Hr & Hup & Htake' & Hlen').
    eexists. eexists. exists mem'.
    split; [exact Hr|]. cbn.
    split; [reflexivity|].
    repeat (split; [reflexivity|]).
    split; [split; [reflexivity | exact Hlen']|].
    repeat (split; [reflexivity|]). split; [exact Hup|].
    transitivity (take (Z.to_nat pending) mem0); [|exact Htake].
    rewrite <- Htake' at 1. rewrite take_take. f_equal. lia.
Qed.

Lemma reserve_space_internal_witness :
  let b := with_committed (with_written (allocating 64 internal) 16) 8 in
  exists b1 old mem1,
    reserve_space false 56 b = returns 8 b1 /\
    m_next_buffer b1 = Some old /\ m_committed old = 8 /\
    backed b1 mem1 /\ m_committed b1 = 0 /\ m_written b1 = 64.
Proof.
  intros b.
  destruct (reserve_space_internal false b (new_array 64) 56
              (conj eq_refl eq_refl) eq_refl eq_refl eq_refl eq_refl
              ltac:(by_compute) ltac:(by_compute) ltac:(lia)
              ltac:(by_compute))
    as (b1 & old & mem1 & Hr & Hn & _ & _ & _ & Hc & _ & Hb & Hc1 & Hw1 & _).
  exists b1, old, mem1.
  exact (conj Hr (conj Hn (conj Hc (conj Hb (conj Hc1 Hw1))))).
Defined.
